(** * Ultimate AI Image Editor: reference resolution, request assembly,
      reference store and mask editor of [src/index.tsx]

    A shallow embedding of the TypeScript module.  JavaScript strings are
    sequences of UTF-16 code units; [Map] and [Set] are insertion-ordered, so
    they are lists here; typed pixel arrays are lists indexed with stdpp's
    lookup and insert. *)

From Stdlib Require Import String Ascii.
From stdpp Require Import base tactics option list numbers sorting.
From Equations Require Import Equations.

Set Default Proof Using "Type".
Local Open Scope N_scope.
Local Open Scope nat_scope.

(** * The program *)

(** ** JavaScript strings *)

Module JS.

(** One UTF-16 code unit. *)
Abbreviation char16 := N (only parsing).

Abbreviation jsstring := (list N) (only parsing).

(** A source-code string literal (ASCII text). *)
Definition lit (s : string) : jsstring :=
  (λ a, N_of_ascii a) <$> list_ascii_of_string s.

(** The regular-expression class [\w] without the [u] and [i] flags:
    [A-Za-z0-9_]. *)
Definition is_word (c : char16) : bool :=
  ((48 <=? c) && (c <=? 57))%N || ((65 <=? c) && (c <=? 90))%N
  || (c =? 95)%N || ((97 <=? c) && (c <=? 122))%N.

(** ECMAScript WhiteSpace and LineTerminator code units, the ones
    [String.prototype.trim] removes. *)
Definition is_space (c : char16) : bool :=
  ((9 <=? c) && (c <=? 13))%N || (c =? 32)%N || (c =? 160)%N || (c =? 5760)%N
  || ((8192 <=? c) && (c <=? 8202))%N || (c =? 8232)%N || (c =? 8233)%N
  || (c =? 8239)%N || (c =? 8287)%N || (c =? 12288)%N || (c =? 65279)%N.

Fixpoint trimStart (s : jsstring) : jsstring :=
  match s with
  | c :: r => if is_space c then trimStart r else s
  | [] => []
  end.

(** [s.trim()] *)
Definition trim (s : jsstring) : jsstring :=
  reverse (trimStart (reverse (trimStart s))).

(** Truthiness of a string: only the empty string is falsy. *)
Definition truthy (s : jsstring) : bool :=
  match s with [] => false | _ => true end.

(** [a || b] on strings. *)
Definition or_else (a b : jsstring) : jsstring := if truthy a then a else b.

(** [xs.join(sep)] *)
Fixpoint join (sep : jsstring) (xs : list jsstring) : jsstring :=
  match xs with
  | [] => []
  | [x] => x
  | x :: r => x ++ sep ++ join sep r
  end.

Definition COMMA : char16 := 44%N.

Definition AT : char16 := 64%N.

(** [s.split(',')]: the pieces between commas; always at least one piece. *)
Fixpoint split_comma (s : jsstring) : list jsstring :=
  match s with
  | [] => [[]]
  | c :: r =>
      if decide (c = COMMA) then [] :: split_comma r
      else match split_comma r with
           | p :: ps => (c :: p) :: ps
           | [] => [[c]]
           end
  end.

(** [s.split(',')[1]]; [None] is [undefined]. *)
Definition split_comma_1 (s : jsstring) : option jsstring := split_comma s !! 1.

(** The longest prefix of word characters: what the greedy [\w+] consumes. *)
Fixpoint word_run (s : jsstring) : jsstring :=
  match s with
  | c :: r => if is_word c then c :: word_run r else []
  | [] => []
  end.

(** [KEY_REGEX = /^\w+$/], [KEY_REGEX.test(s)]. Without the [m] flag [$]
    matches at the end of the input only. *)
Definition KEY_REGEX_test (s : jsstring) : bool :=
  truthy s && forallb is_word s.

(** [REFERENCE_REGEX = /@(\w+)/g] tried at index [i] of [s]: the capture
    group when the pattern matches there. *)
Definition REFERENCE_REGEX_at (s : jsstring) (i : nat) : option jsstring :=
  match drop i s with
  | c :: r =>
      if decide (c = AT) then
        match word_run r with
        | [] => None
        | w => Some w
        end
      else None
  | [] => None
  end.

(** One [exec] of the global regex: the leftmost index at or after
    [lastIndex] where it matches, searched over the [n] remaining start
    positions, with the capture. *)
Fixpoint REFERENCE_REGEX_exec (s : jsstring) (lastIndex n : nat)
  : option (nat * jsstring) :=
  match n with
  | O => None
  | S n' =>
      match REFERENCE_REGEX_at s lastIndex with
      | Some w => Some (lastIndex, w)
      | None => REFERENCE_REGEX_exec s (S lastIndex) n'
      end
  end.

(** The search of [exec] stays inside the string and a match is not empty, so
    the scan below terminates. *)

Lemma exec_bounds s i n j w :
  REFERENCE_REGEX_exec s i n = Some (j, w) →
  i ≤ j ∧ j < i + n ∧ REFERENCE_REGEX_at s j = Some w ∧
  ∀ k, i ≤ k → k < j → REFERENCE_REGEX_at s k = None.
Proof.
  revert i. induction n as [|n IH]; intros i; simpl; [done|].
  destruct (REFERENCE_REGEX_at s i) as [w'|] eqn:E.
  - intros [= <- <-]. repeat split; try lia. done.
  - intros H. apply IH in H as (? & ? & ? & Hk). repeat split; try lia; [done|].
    intros k ? ?. destruct (decide (k = i)) as [->|]; [done|]. apply Hk; lia.
Qed.

Lemma at_length s j w :
  REFERENCE_REGEX_at s j = Some w → w ≠ [] ∧ j + 1 + length w ≤ length s.
Proof.
  unfold REFERENCE_REGEX_at. destruct (drop j s) as [|c r] eqn:E; [done|].
  case_decide; [|done].
  assert (length (word_run r) ≤ length r) as Hl.
  { clear. induction r as [|d r IH]; simpl; [lia|]. destruct (is_word d); simpl; lia. }
  assert (length (drop j s) = S (length r)) as Hd by (by rewrite E).
  rewrite length_drop in Hd.
  destruct (word_run r) eqn:Ew; [done|]. intros [= <-]. split; [done|]. lia.
Qed.

(** [[...s.matchAll(REFERENCE_REGEX)]]: the matches as (index, capture)
    pairs, each search resuming at the end of the previous match. *)
Equations? matchAll_from (s : jsstring) (lastIndex : nat)
  : list (nat * jsstring) by wf (length s - lastIndex) lt :=
  matchAll_from s lastIndex
    with Equations.Prop.Logic.inspect
           (REFERENCE_REGEX_exec s lastIndex (length s - lastIndex)) := {
    | exist _ (Some (j, w)) E => (j, w) :: matchAll_from s (j + 1 + length w)
    | exist _ None _ => []
    }.
Proof.
  apply exec_bounds in E as (? & ? & Hat & _). apply at_length in Hat. lia.
Qed.

Definition matchAll (s : jsstring) : list (nat * jsstring) := matchAll_from s 0.

End JS.

Import JS.

(** ** Insertion-ordered collections *)

(** The JavaScript [Set]: distinct elements in insertion order. *)
Module JSSet.
Section set.
Context {A : Type} `{!EqDecision A}.

(** [s.add(x)] *)
Definition add (x : A) (s : list A) : list A :=
  if decide (x ∈ s) then s else s ++ [x].

(** [new Set(xs)]: the elements of the array are added one by one. *)
Definition from (xs : list A) : list A := foldl (λ s x, add x s) [] xs.

End set.
End JSSet.

(** The JavaScript [Map]: distinct keys, enumerated in insertion order. *)
Module JSMap.
Section map.
Context {K V : Type} `{!EqDecision K}.

(** [m.get(k)]; [None] is [undefined]. *)
Fixpoint get (k : K) (m : list (K * V)) : option V :=
  match m with
  | [] => None
  | (k', v) :: r => if decide (k' = k) then Some v else get k r
  end.

(** [m.has(k)] *)
Definition has (k : K) (m : list (K * V)) : bool := bool_decide (k ∈ m.*1).

(** [m.set(k, v)]: an existing key keeps its position, a new key goes
    last. *)
Fixpoint set (k : K) (v : V) (m : list (K * V)) : list (K * V) :=
  match m with
  | [] => [(k, v)]
  | (k', v') :: r =>
      if decide (k' = k) then (k, v) :: r else (k', v') :: set k v r
  end.

(** [m.delete(k)] *)
Definition delete (k : K) (m : list (K * V)) : list (K * V) :=
  filter (λ kv, kv.1 ≠ k) m.

End map.
End JSMap.

(** ** The reference store and the prompt resolver *)

(** [{ data: string; mimeType: string }] *)
Module StoredImage.
Record t := { data : list N; mimeType : list N }.
End StoredImage.

(** [references: Map<string, { data, mimeType }>] *)
Abbreviation References := (list (list N * StoredImage.t)) (only parsing).

Record ParsedPrompt := { referencedKeys : list (list N); missingKeys : list (list N) }.

(** [parsePromptForReferences(prompt)] *)
Definition parsePromptForReferences (references : References) (prompt : jsstring)
  : ParsedPrompt :=
  let referencedKeys := JSSet.from ((λ m, m.2) <$> matchAll prompt) in
  let missingKeys :=
    foldl (λ missing key,
             if negb (JSMap.has key references) then missing ++ [key] else missing)
          [] referencedKeys in
  {| referencedKeys := referencedKeys; missingKeys := missingKeys |}.

(** ** The request assembler *)

(** [stagedImage]: the image attached to the next request. The [file]
    field is never read and is left out. *)
Module StagedImage.
Record t := {
  data : list N;
  mimeType : list N;
  maskData : option (list N);
  maskPreviewData : option (list N)
}.
End StagedImage.

(** A request [Part]: a text segment or inline image data. The payload of
    an image part is [undefined] ([None]) when [split(',')[1]] is. *)
Inductive Part :=
| TextPart (text : list N)
| InlineDataPart (data : option (list N)) (mimeType : list N).

(** [{ inlineData: { data: d.split(',')[1], mimeType: m } }] *)
Definition inlineData (d m : jsstring) : Part := InlineDataPart (split_comma_1 d) m.

(** Truthiness of an optional string property such as [image.maskData]. *)
Definition truthy_opt (o : option jsstring) : bool :=
  match o with Some s => truthy s | None => false end.

(** The [referencedKeys.forEach] loop of [buildApiParts]. Reading [.data]
    of a key that is not in the store throws a [TypeError]: [None]. *)
Definition pushReferenceParts (references : References)
    (referencedKeys : list jsstring) (parts : list Part) : option (list Part) :=
  foldl (λ acc key,
           parts ← acc;
           ref ← JSMap.get key references;
           Some (parts ++ [inlineData (StoredImage.data ref) (StoredImage.mimeType ref)]))
        (Some parts) referencedKeys.

(** [buildApiParts(prompt, image, referencedKeys)] *)
Definition buildApiParts (references : References) (prompt : jsstring)
    (image : option StagedImage.t) (referencedKeys : list jsstring)
  : option (list Part) :=
  let parts : list Part := [] in
  let effectivePrompt :=
    or_else prompt
      (match image with Some _ => lit "Describe this image." | None => lit "" end) in
  let parts :=
    if truthy effectivePrompt then parts ++ [TextPart effectivePrompt] else parts in
  let parts :=
    match image with
    | Some image =>
        match StagedImage.maskData image with
        | Some maskData =>
            if truthy maskData then
              (parts ++ [inlineData (StagedImage.data image) (StagedImage.mimeType image)])
                ++ [inlineData maskData (StagedImage.mimeType image)]
            else
              parts ++ [inlineData (StagedImage.data image) (StagedImage.mimeType image)]
        | None =>
            parts ++ [inlineData (StagedImage.data image) (StagedImage.mimeType image)]
        end
    | None => parts
    end in
  pushReferenceParts references referencedKeys parts.

(** ** The chat orchestrator *)

Inductive Sender := user | ai.

(** One rendered chat bubble: what [addMessage] appends to [chatHistory]. *)
Record Message := { sender : Sender; text : list N; images : list (list N) }.

(** [addMessage(sender, text, imageDataUrls)] *)
Definition addMessage (s : Sender) (t : jsstring) (imageDataUrls : list jsstring)
    (chatHistory : list Message) : list Message :=
  chatHistory ++ [{| sender := s; text := t; images := imageDataUrls |}].

(** A part of the model's response; both properties are optional. *)
Record ResponsePart := {
  rp_text : option (list N);
  rp_inlineData : option (option (list N) * option (list N))
}.

(** What [await ai.models.generateContent(...)] followed by reading
    [response.candidates[0].content.parts] gives: the parts, or an exception
    raised inside the [try] block, an [Error] with its message or another
    value. *)
Inductive ApiOutcome :=
| Responded (parts : list ResponsePart)
| Failed (message : option (list N)).

(** Interpolation [${x}] of an optional string in a template literal. *)
Definition interpolate (o : option jsstring) : jsstring :=
  match o with Some s => s | None => lit "undefined" end.

(** The loop of [processApiResponse]. *)
Definition processPart (acc : jsstring * list jsstring) (part : ResponsePart)
  : jsstring * list jsstring :=
  let '(responseText, responseImageDataUrls) := acc in
  if truthy_opt (rp_text part) then
    (responseText ++ interpolate (rp_text part), responseImageDataUrls)
  else
    match rp_inlineData part with
    | Some (mimeType, data) =>
        (responseText,
         responseImageDataUrls ++
           [lit "data:" ++ interpolate mimeType ++ lit ";base64," ++ interpolate data])
    | None => acc
    end.

(** [processApiResponse(response)] once the parts are read: the loop, the
    fallback text and [addMessage]. *)
Definition processApiResponse (parts : list ResponsePart)
    (chatHistory : list Message) : list Message :=
  let '(responseText, responseImageDataUrls) := foldl processPart ([], []) parts in
  let fallbackText :=
    if decide (0 < length responseImageDataUrls)
    then lit "Here is the generated image."
    else lit "I couldn't generate a response." in
  addMessage ai (or_else responseText fallbackText) responseImageDataUrls chatHistory.

(** The observable effects of the orchestrator: the rendered chat and the
    requests sent to the model, oldest first. *)
Record World := { chatHistory : list Message; requests : list (list Part) }.

(** [callGeminiApi(prompt, image)], with [generate] the answer of the
    external model to a request. [None]: the [TypeError] of
    [buildApiParts] leaves the function. *)
Definition callGeminiApi (generate : list Part → ApiOutcome)
    (references : References) (prompt : jsstring) (image : option StagedImage.t)
    (w : World) : option World :=
  if negb (truthy prompt) && negb (bool_decide (is_Some image)) then
    Some {| chatHistory :=
              addMessage ai (lit "Please provide a prompt or an image.") []
                (chatHistory w);
            requests := requests w |}
  else
    let r := parsePromptForReferences references prompt in
    if decide (0 < length (missingKeys r)) then
      Some {| chatHistory :=
                addMessage ai
                  (lit "Error: The following reference keys were not found: "
                     ++ join (lit ", ") (missingKeys r) ++ lit ".")
                  [] (chatHistory w);
              requests := requests w |}
    else
      parts ← buildApiParts references prompt image (referencedKeys r);
      if decide (length parts = 0) then Some w
      else
        let w := {| chatHistory := chatHistory w;
                    requests := requests w ++ [parts] |} in
        match generate parts with
        | Responded response =>
            Some {| chatHistory := processApiResponse response (chatHistory w);
                    requests := requests w |}
        | Failed error =>
            let message :=
              match error with Some m => m | None => lit "Please try again." end in
            Some {| chatHistory :=
                      addMessage ai (lit "Sorry, an error occurred. " ++ message)
                        [] (chatHistory w);
                    requests := requests w |}
        end.

(** ** The reference store handlers *)

(** [saveModalSource: 'upload' | 'generated'] *)
Inductive ModalSource := upload | generated.

(** The globals and page elements the save-key dialog works on:
    [references], [imageToSave], [saveModalSource], the text of
    [keyErrorMessage], whether [saveKeyModal] is hidden, and the chat. *)
Record Store := {
  references : list (list N * StoredImage.t);
  imageToSave : option StoredImage.t;
  saveModalSource : option ModalSource;
  keyErrorMessage : list N;
  saveKeyModalHidden : bool;
  messages : list Message
}.

Definition DQUOTE : char16 := 34%N.

Definition MSG_KEY_REQUIRED : jsstring := lit "A key is required to save a reference.".

Definition MSG_INVALID_KEY : jsstring :=
  lit "Invalid key. Use only letters, numbers, and underscores.".

Definition MSG_KEY_TAKEN : jsstring :=
  lit "This key is already in use. Please choose another.".

Definition set_keyErrorMessage (m : jsstring) (st : Store) : Store :=
  {| references := references st; imageToSave := imageToSave st;
     saveModalSource := saveModalSource st; keyErrorMessage := m;
     saveKeyModalHidden := saveKeyModalHidden st; messages := messages st |}.

(** [closeSaveKeyModal()] *)
Definition closeSaveKeyModal (st : Store) : Store :=
  {| references := references st; imageToSave := None;
     saveModalSource := None; keyErrorMessage := keyErrorMessage st;
     saveKeyModalHidden := true; messages := messages st |}.

(** [handleSaveKey()], with [value] the content of [referenceKeyInput]. *)
Definition handleSaveKey (value : jsstring) (st : Store) : Store :=
  match imageToSave st with
  | None => st
  | Some img =>
      let key := trim value in
      let st := set_keyErrorMessage (lit "") st in
      if negb (truthy key) then
        match saveModalSource st with
        | Some upload => closeSaveKeyModal st
        | _ => set_keyErrorMessage MSG_KEY_REQUIRED st
        end
      else if negb (KEY_REGEX_test key) then set_keyErrorMessage MSG_INVALID_KEY st
      else if JSMap.has key (references st) then set_keyErrorMessage MSG_KEY_TAKEN st
      else
        closeSaveKeyModal
          {| references :=
               JSMap.set key {| StoredImage.data := StoredImage.data img;
                                StoredImage.mimeType := StoredImage.mimeType img |}
                 (references st);
             imageToSave := imageToSave st;
             saveModalSource := saveModalSource st;
             keyErrorMessage := keyErrorMessage st;
             saveKeyModalHidden := saveKeyModalHidden st;
             messages :=
               addMessage ai
                 (lit "Image saved as reference with key: " ++ [DQUOTE]
                    ++ lit "<strong>" ++ key ++ lit "</strong>" ++ [DQUOTE] ++ lit ".")
                 [] (messages st) |}
  end.

(** The key field of one row of the references dialog after a rename
    attempt: the store, the text of the field and its [invalid] mark. *)
Record Renamed := {
  rn_references : list (list N * StoredImage.t);
  rn_value : list N;
  rn_invalid : bool
}.

(** [handleRename], the blur handler of the row created for [oldKey]
    ([input.dataset.oldKey]), with [value] the content of the field.
    [None]: the non-null assertion on [references.get(oldKey)] does not
    hold. *)
Definition handleRename (oldKey value : jsstring)
    (references : References) : option Renamed :=
  let newKey := trim value in
  if decide (newKey = oldKey) then
    Some {| rn_references := references; rn_value := value; rn_invalid := false |}
  else if negb (KEY_REGEX_test newKey)
          || (JSMap.has newKey references && negb (bool_decide (newKey = oldKey)))
  then
    Some {| rn_references := references; rn_value := oldKey; rn_invalid := true |}
  else
    refData ← JSMap.get oldKey references;
    let references := JSMap.delete oldKey references in
    let references := JSMap.set newKey refData references in
    Some {| rn_references := references; rn_value := value; rn_invalid := false |}.

(** The delete button of the row of [key], once confirmed. *)
Definition handleDelete (key : jsstring) (references : References) : References :=
  JSMap.delete key references.

(** ** The mask editor *)

(** [ImageData]: [width], [height] and the RGBA bytes of [data], a
    [Uint8ClampedArray]. *)
Module ImageData.
Record t := { width : nat; height : nat; data : list Z }.

(** The array holds four bytes per pixel. *)
Definition wf (d : t) : Prop := length (data d) = 4 * (width d * height d).

Definition same_size (a b : t) : Prop := width a = width b ∧ height a = height b.

#[export] Instance same_size_dec a b : Decision (same_size a b).
Proof. unfold same_size. apply _. Defined.
End ImageData.

(** [ctx.globalCompositeOperation] as the editor sets it. *)
Inductive Composite := source_over | destination_out.

(** The part of the browser's 2D canvas the editor relies on. Pointer
    coordinates are floating-point numbers and rasterisation is the
    browser's, so both are kept abstract: [Pen] is the state of the context
    apart from its bitmap (current path, line and fill styles, compositing)
    and the drawing calls give the bytes of the bitmap after the call. *)
Class Canvas2D := {
  Point : Type;
  Pen : Type;
  (** [shapeStartX = 0], [shapeStartY = 0] *)
  origin : Point;
  (** the state of a context whose canvas was just resized *)
  pen_reset : Pen;
  (** [lineWidth = parseInt(size, 10)], [lineCap = 'round'],
      [strokeStyle = color], [fillStyle = color] *)
  setStyle : list N → list N → Pen → Pen;
  setComposite : Composite → Pen → Pen;
  beginPath : Pen → Pen;
  moveTo : Point → Pen → Pen;
  lineTo : Point → Pen → Pen;
  (** [arc(x1, y1, Math.sqrt((x2-x1)**2 + (y2-y1)**2), 0, 2*Math.PI)] *)
  arc : Point → Point → Pen → Pen;
  stroke : Pen → ImageData.t → list Z;
  fill : Pen → ImageData.t → list Z;
  (** [fillRect(x1, y1, x2 - x1, y2 - y1)] *)
  fillRect : Pen → Point → Point → ImageData.t → list Z;
  (** [putImageData(img, 0, 0)] for an image whose size is not the canvas's *)
  blit : ImageData.t → ImageData.t → list Z;
  (** [canvas.toDataURL(mimeType)] of a canvas holding the given bitmap *)
  toDataURL : list N → ImageData.t → list N;
  stroke_length : ∀ p c, length (stroke p c) = length (ImageData.data c);
  fill_length : ∀ p c, length (fill p c) = length (ImageData.data c);
  fillRect_length : ∀ p a b c, length (fillRect p a b c) = length (ImageData.data c);
  blit_length : ∀ i c, length (blit i c) = length (ImageData.data c)
}.

Section editor.
Context `{canvas2d : Canvas2D}.

(** The globals and page elements of the mask editor: [stagedImage],
    [isDrawing], [originalImage], [currentTool], [canvasHistory],
    [shapeStartX]/[shapeStartY], the bitmap of [editorCanvas], the state of
    [ctx], whether [editorModal] is hidden, and [imagePreview.src]. *)
Record Editor := {
  stagedImage : option StagedImage.t;
  isDrawing : bool;
  originalImage : option ImageData.t;
  currentTool : list N;
  canvasHistory : list ImageData.t;
  shapeStart : Point;
  editorCanvas : ImageData.t;
  ctx : Pen;
  editorModalHidden : bool;
  imagePreview : list N
}.

Definition set_stagedImage (v : option StagedImage.t) (st : Editor) : Editor :=
  {| stagedImage := v; isDrawing := isDrawing st; originalImage := originalImage st;
     currentTool := currentTool st; canvasHistory := canvasHistory st;
     shapeStart := shapeStart st; editorCanvas := editorCanvas st; ctx := ctx st;
     editorModalHidden := editorModalHidden st; imagePreview := imagePreview st |}.

Definition set_isDrawing (v : bool) (st : Editor) : Editor :=
  {| stagedImage := stagedImage st; isDrawing := v; originalImage := originalImage st;
     currentTool := currentTool st; canvasHistory := canvasHistory st;
     shapeStart := shapeStart st; editorCanvas := editorCanvas st; ctx := ctx st;
     editorModalHidden := editorModalHidden st; imagePreview := imagePreview st |}.

Definition set_originalImage (v : option ImageData.t) (st : Editor) : Editor :=
  {| stagedImage := stagedImage st; isDrawing := isDrawing st; originalImage := v;
     currentTool := currentTool st; canvasHistory := canvasHistory st;
     shapeStart := shapeStart st; editorCanvas := editorCanvas st; ctx := ctx st;
     editorModalHidden := editorModalHidden st; imagePreview := imagePreview st |}.

Definition set_currentTool (v : jsstring) (st : Editor) : Editor :=
  {| stagedImage := stagedImage st; isDrawing := isDrawing st;
     originalImage := originalImage st;
     currentTool := v; canvasHistory := canvasHistory st;
     shapeStart := shapeStart st; editorCanvas := editorCanvas st; ctx := ctx st;
     editorModalHidden := editorModalHidden st; imagePreview := imagePreview st |}.

Definition set_canvasHistory (v : list ImageData.t) (st : Editor) : Editor :=
  {| stagedImage := stagedImage st; isDrawing := isDrawing st;
     originalImage := originalImage st;
     currentTool := currentTool st; canvasHistory := v;
     shapeStart := shapeStart st; editorCanvas := editorCanvas st; ctx := ctx st;
     editorModalHidden := editorModalHidden st; imagePreview := imagePreview st |}.

Definition set_shapeStart (v : Point) (st : Editor) : Editor :=
  {| stagedImage := stagedImage st; isDrawing := isDrawing st;
     originalImage := originalImage st;
     currentTool := currentTool st; canvasHistory := canvasHistory st;
     shapeStart := v; editorCanvas := editorCanvas st; ctx := ctx st;
     editorModalHidden := editorModalHidden st; imagePreview := imagePreview st |}.

Definition set_editorCanvas (v : ImageData.t) (st : Editor) : Editor :=
  {| stagedImage := stagedImage st; isDrawing := isDrawing st;
     originalImage := originalImage st;
     currentTool := currentTool st; canvasHistory := canvasHistory st;
     shapeStart := shapeStart st; editorCanvas := v; ctx := ctx st;
     editorModalHidden := editorModalHidden st; imagePreview := imagePreview st |}.

Definition set_ctx (v : Pen) (st : Editor) : Editor :=
  {| stagedImage := stagedImage st; isDrawing := isDrawing st;
     originalImage := originalImage st;
     currentTool := currentTool st; canvasHistory := canvasHistory st;
     shapeStart := shapeStart st; editorCanvas := editorCanvas st; ctx := v;
     editorModalHidden := editorModalHidden st; imagePreview := imagePreview st |}.

Definition set_editorModalHidden (v : bool) (st : Editor) : Editor :=
  {| stagedImage := stagedImage st; isDrawing := isDrawing st;
     originalImage := originalImage st;
     currentTool := currentTool st; canvasHistory := canvasHistory st;
     shapeStart := shapeStart st; editorCanvas := editorCanvas st; ctx := ctx st;
     editorModalHidden := v; imagePreview := imagePreview st |}.

Definition set_imagePreview (v : jsstring) (st : Editor) : Editor :=
  {| stagedImage := stagedImage st; isDrawing := isDrawing st;
     originalImage := originalImage st;
     currentTool := currentTool st; canvasHistory := canvasHistory st;
     shapeStart := shapeStart st; editorCanvas := editorCanvas st; ctx := ctx st;
     editorModalHidden := editorModalHidden st; imagePreview := v |}.

(** The bitmap of the canvas with new bytes, its size unchanged. *)
Definition repaint (bytes : list Z) (c : ImageData.t) : ImageData.t :=
  {| ImageData.width := ImageData.width c; ImageData.height := ImageData.height c;
     ImageData.data := bytes |}.

(** [ctx.getImageData(0, 0, editorCanvas.width, editorCanvas.height)]: a
    copy of the whole bitmap. *)
Definition getImageData (st : Editor) : ImageData.t := editorCanvas st.

(** [ctx.putImageData(img, 0, 0)] *)
Definition putImageData (img : ImageData.t) (st : Editor) : Editor :=
  if decide (ImageData.same_size img (editorCanvas st)) then
    set_editorCanvas (repaint (ImageData.data img) (editorCanvas st)) st
  else
    set_editorCanvas (repaint (blit img (editorCanvas st)) (editorCanvas st)) st.

(** [saveCanvasState()] *)
Definition saveCanvasState (st : Editor) : Editor :=
  set_canvasHistory (canvasHistory st ++ [getImageData st]) st.

(** [openEditor()] together with the [onload] callback of the image it
    creates; [loaded] is the decoded staged image, at its natural size, as
    [drawImage] puts it on the resized canvas. *)
Definition openEditor (loaded : ImageData.t) (st : Editor) : Editor :=
  match stagedImage st with
  | None => st
  | Some _ =>
      let st := set_originalImage (Some loaded) st in
      let st := set_ctx pen_reset (set_editorCanvas loaded st) in
      let st := set_editorModalHidden false st in
      let st := set_canvasHistory [] st in
      saveCanvasState st
  end.

(** [closeEditor()]; [clearRect] makes the whole bitmap transparent black. *)
Definition closeEditor (st : Editor) : Editor :=
  let st := set_editorModalHidden true st in
  let st := set_originalImage None st in
  let st := set_canvasHistory [] st in
  set_editorCanvas
    (repaint (replicate (length (ImageData.data (editorCanvas st))) 0%Z)
       (editorCanvas st)) st.

(** [a[i] !== b[i]] on typed arrays; a read past the end is [undefined]. *)
Definition differs (a b : list Z) (i : nat) : bool :=
  bool_decide (a !! i ≠ b !! i).

(** [hasChanged] of [saveMask] for the pixel whose bytes start at [i]. *)
Definition hasChanged (originalPixels currentPixels : list Z) (i : nat) : bool :=
  differs originalPixels currentPixels i
  || differs originalPixels currentPixels (i + 1)
  || differs originalPixels currentPixels (i + 2)
  || differs originalPixels currentPixels (i + 3).

(** The four assignments to [maskPixels] of one iteration; a write past the
    end of a typed array does nothing. *)
Definition writeMaskPixel (changed : bool) (i : nat) (maskPixels : list Z) : list Z :=
  if changed then
    <[i + 3 := 255%Z]> (<[i + 2 := 255%Z]> (<[i + 1 := 255%Z]> (<[i := 255%Z]> maskPixels)))
  else
    <[i + 3 := 255%Z]> (<[i + 2 := 0%Z]> (<[i + 1 := 0%Z]> (<[i := 0%Z]> maskPixels))).

(** [for (let i = 0; i < originalPixels.length; i += 4) ...] *)
Equations? maskLoop (originalPixels currentPixels maskPixels : list Z) (i : nat)
  : list Z by wf (length originalPixels - i) lt :=
  maskLoop originalPixels currentPixels maskPixels i
    with decide (i < length originalPixels) := {
    | left _ =>
        maskLoop originalPixels currentPixels
          (writeMaskPixel (hasChanged originalPixels currentPixels i) i maskPixels)
          (i + 4)
    | right _ => maskPixels
    }.
Proof. lia. Qed.

(** [maskCtx.createImageData(w, h)]: transparent black. *)
Definition createImageData (w h : nat) : ImageData.t :=
  {| ImageData.width := w; ImageData.height := h;
     ImageData.data := replicate (4 * (w * h)) 0%Z |}.

(** The [maskImageData] that [saveMask] computes from snapshot 0 and the
    current bitmap. *)
Definition maskImageData (originalImageData currentImageData : ImageData.t)
  : ImageData.t :=
  let blank :=
    createImageData (ImageData.width currentImageData)
      (ImageData.height currentImageData) in
  repaint
    (maskLoop (ImageData.data originalImageData) (ImageData.data currentImageData)
       (ImageData.data blank) 0)
    blank.

(** [saveMask()] *)
Definition saveMask (st : Editor) : Editor :=
  match stagedImage st, canvasHistory st with
  | Some staged, originalImageData :: _ =>
      let currentImageData := getImageData st in
      let mask := maskImageData originalImageData currentImageData in
      let maskData := toDataURL (StagedImage.mimeType staged) mask in
      let maskPreviewData :=
        toDataURL (StagedImage.mimeType staged) (editorCanvas st) in
      let staged :=
        {| StagedImage.data := StagedImage.data staged;
           StagedImage.mimeType := StagedImage.mimeType staged;
           StagedImage.maskData := Some maskData;
           StagedImage.maskPreviewData := Some maskPreviewData |} in
      closeEditor (set_imagePreview maskPreviewData (set_stagedImage (Some staged) st))
  | _, _ => st
  end.

(** [handleUndo()]. After the [pop] at least one snapshot is left to
    restore. *)
Definition handleUndo (st : Editor) : Editor :=
  if decide (1 < length (canvasHistory st)) then
    let st := set_canvasHistory (removelast (canvasHistory st)) st in
    match last (canvasHistory st) with
    | Some snapshot => putImageData snapshot st
    | None => st
    end
  else st.

Definition is_tool (name : string) (st : Editor) : bool :=
  bool_decide (currentTool st = lit name).

(** [drawShape(x1, y1, x2, y2)] *)
Definition drawShape (p1 p2 : Point) (st : Editor) : Editor :=
  let st := set_ctx (setComposite source_over (ctx st)) st in
  if is_tool "rectangle" st then
    set_editorCanvas
      (repaint (fillRect (ctx st) p1 p2 (editorCanvas st)) (editorCanvas st)) st
  else if is_tool "circle" st then
    let st := set_ctx (arc p1 p2 (beginPath (ctx st))) st in
    set_editorCanvas (repaint (fill (ctx st) (editorCanvas st)) (editorCanvas st)) st
  else st.

(** [startDraw(e)], with [pos] the result of [getMousePos(e)]. *)
Definition startDraw (pos : Point) (st : Editor) : Editor :=
  let st := set_isDrawing true st in
  if is_tool "brush" st || is_tool "eraser" st then
    set_ctx (moveTo pos (beginPath (ctx st))) st
  else if is_tool "rectangle" st || is_tool "circle" st then
    set_shapeStart pos st
  else st.

(** [stopDraw(e)]. With no snapshot to restore, [putImageData] throws and
    the handler ends there. *)
Definition stopDraw (pos : Point) (st : Editor) : Editor :=
  if negb (isDrawing st) then st
  else
    let st := set_isDrawing false st in
    if is_tool "rectangle" st || is_tool "circle" st then
      match last (canvasHistory st) with
      | Some snapshot =>
          let st := putImageData snapshot st in
          let st := drawShape (shapeStart st) pos st in
          saveCanvasState st
      | None => st
      end
    else saveCanvasState st.

(** [draw(e)], with [size] the value of the brush-size slider and
    [selected] the colour of the selected palette button, if any. *)
Definition draw (pos : Point) (size : jsstring) (selected : option jsstring)
    (st : Editor) : Editor :=
  if negb (isDrawing st) then st
  else
    let activeColor :=
      if truthy_opt selected then interpolate selected else lit "#E53935" in
    let st := set_ctx (setStyle size activeColor (ctx st)) st in
    if is_tool "brush" st then
      let st := set_ctx (lineTo pos (setComposite source_over (ctx st))) st in
      set_editorCanvas (repaint (stroke (ctx st) (editorCanvas st)) (editorCanvas st)) st
    else if is_tool "eraser" st then
      let st := set_ctx (lineTo pos (setComposite destination_out (ctx st))) st in
      set_editorCanvas (repaint (stroke (ctx st) (editorCanvas st)) (editorCanvas st)) st
    else if is_tool "rectangle" st || is_tool "circle" st then
      match last (canvasHistory st) with
      | Some snapshot => drawShape (shapeStart st) pos (putImageData snapshot st)
      | None => st
      end
    else st.

(** What can happen to the editor: the page's listeners on the editor
    controls, and the places outside the editor that replace or drop the
    staged image. *)
Inductive Event :=
| Stage (image : StagedImage.t)
| ResetInputArea
| OpenEditor (loaded : ImageData.t)
| CloseEditor
| SaveMask
| Undo
| MouseDown (pos : Point)
| MouseMove (pos : Point) (size : list N) (selected : option (list N))
| MouseUp (pos : Point)
| MouseOut (pos : Point)
| PickTool (tool : list N)
| PickColor.

Definition handle (ev : Event) (st : Editor) : Editor :=
  match ev with
  | Stage image => set_stagedImage (Some image) st
  | ResetInputArea => set_stagedImage None st
  | OpenEditor loaded => openEditor loaded st
  | CloseEditor => closeEditor st
  | SaveMask => saveMask st
  | Undo => handleUndo st
  | MouseDown pos => startDraw pos st
  | MouseMove pos size selected => draw pos size selected st
  | MouseUp pos | MouseOut pos => stopDraw pos st
  | PickTool tool => if truthy tool then set_currentTool tool st else st
  | PickColor => set_currentTool (lit "brush") st
  end.

(** The page as loaded: nothing staged, the editor closed (it is
    [openEditor] that takes the [hidden] class off the dialog), [canvas0]
    the untouched canvas element. *)
Definition initial (canvas0 : ImageData.t) : Editor :=
  {| stagedImage := None; isDrawing := false; originalImage := None;
     currentTool := lit "brush"; canvasHistory := [];
     shapeStart := origin; editorCanvas := canvas0; ctx := pen_reset;
     editorModalHidden := true; imagePreview := lit "" |}.

(** An image decoded by the browser is a well-formed bitmap. *)
Definition event_ok (ev : Event) : Prop :=
  match ev with
  | OpenEditor loaded => ImageData.wf loaded
  | _ => True
  end.

Inductive reachable (canvas0 : ImageData.t) : Editor → Prop :=
| reachable_initial : reachable canvas0 (initial canvas0)
| reachable_step st ev :
    reachable canvas0 st → event_ok ev → reachable canvas0 (handle ev st).

(** The editor after a sequence of events, oldest first. *)
Definition run (canvas0 : ImageData.t) (events : list Event) : Editor :=
  foldl (λ st ev, handle ev st) (initial canvas0) events.

End editor.

(** ** More string methods *)

Definition COLON : char16 := 58%N.

Definition SEMICOLON : char16 := 59%N.

Definition SPACE : char16 := 32%N.

(** The search of [s.indexOf(c)] for a one-character [c], counting from
    [i]; [-1] when [c] does not occur. *)
Fixpoint indexOf_from (c : char16) (s : jsstring) (i : Z) : Z :=
  match s with
  | [] => (-1)%Z
  | d :: r => if decide (d = c) then i else indexOf_from c r (i + 1)%Z
  end.

(** [s.indexOf(c)] *)
Definition indexOf (c : char16) (s : jsstring) : Z := indexOf_from c s 0%Z.

(** An index argument of [substring] brought into [0 .. length]. *)
Definition clamp (len : nat) (i : Z) : nat := Z.to_nat i `min` len.

(** [s.substring(a, b)]: both indices are clamped to the string and
    swapped when [a] is the larger. *)
Definition substring (a b : Z) (s : jsstring) : jsstring :=
  let a := clamp (length s) a in
  let b := clamp (length s) b in
  take (a `max` b - a `min` b) (drop (a `min` b) s).

(** [s.substring(a)] *)
Definition substring_from (a : Z) (s : jsstring) : jsstring :=
  drop (clamp (length s) a) s.

Definition SLASH : char16 := 47%N.

Definition EQUALS : char16 := 61%N.

(** [s.split(sep)] for a separator of one character; always at least one
    piece. *)
Fixpoint split_on (sep : char16) (s : jsstring) : list jsstring :=
  match s with
  | [] => [[]]
  | c :: r =>
      if decide (c = sep) then [] :: split_on sep r
      else match split_on sep r with
           | p :: ps => (c :: p) :: ps
           | [] => [[c]]
           end
  end.

(** [t.includes(s)]: [s] stands at some index of [t]. *)
Definition includes (s t : jsstring) : bool :=
  existsb (λ i, bool_decide (take (length s) (drop i t) = s)) (seq 0 (S (length t))).

(** The line terminators, which [.] does not match. *)
Definition is_line_terminator (c : char16) : bool :=
  ((c =? 10) || (c =? 13) || (c =? 8232) || (c =? 8233))%N.

(** After the [:] of [/:(.*?);/]: the shortest run of characters other
    than line terminators that is followed by [;]. *)
Fixpoint lazy_until_semicolon (s : jsstring) : option jsstring :=
  match s with
  | [] => None
  | c :: r =>
      if decide (c = SEMICOLON) then Some []
      else if is_line_terminator c then None
      else (c ::.) <$> lazy_until_semicolon r
  end.

(** [s.match(/:(.*?);/)]: capture 1 of the leftmost match; [None] is
    [null]. *)
Fixpoint match_mime (s : jsstring) : option jsstring :=
  match s with
  | [] => None
  | c :: r =>
      if decide (c = COLON) then
        match lazy_until_semicolon r with
        | Some m => Some m
        | None => match_mime r
        end
      else match_mime r
  end.

(** ASCII whitespace, which [atob] skips. *)
Definition is_ascii_whitespace (c : char16) : bool :=
  ((c =? 9) || (c =? 10) || (c =? 12) || (c =? 13) || (c =? 32))%N.

(** The value of a character of the base64 alphabet. *)
Definition base64_value (c : char16) : option N :=
  if ((65 <=? c) && (c <=? 90))%N then Some (c - 65)%N
  else if ((97 <=? c) && (c <=? 122))%N then Some (c - 71)%N
  else if ((48 <=? c) && (c <=? 57))%N then Some (c + 4)%N
  else if (c =? 43)%N then Some 62%N
  else if (c =? 47)%N then Some 63%N
  else None.

(** The bytes of a run of 6-bit values; the bits left over by the last
    group are dropped. *)
Fixpoint base64_bytes (vs : list N) : list N :=
  match vs with
  | a :: b :: c :: d :: r =>
      (a * 4 + b / 16)%N :: ((b mod 16) * 16 + c / 4)%N :: ((c mod 4) * 64 + d)%N
      :: base64_bytes r
  | [a; b; c] => [(a * 4 + b / 16)%N; ((b mod 16) * 16 + c / 4)%N]
  | [a; b] => [(a * 4 + b / 16)%N]
  | _ => []
  end.

(** [atob(data)], the forgiving base64 decoding of the platform: the
    character codes of the binary string. Whitespace is skipped; when the
    length is a multiple of four, one or two [=] at the end are dropped;
    [None] ([InvalidCharacterError]) when the length then leaves remainder
    one or a character is outside the alphabet. *)
Definition atob (data : jsstring) : option (list N) :=
  let data := filter (λ c, is_ascii_whitespace c = false) data in
  let data :=
    if decide (length data mod 4 = 0) then
      if decide (last data = Some EQUALS) then
        let data := removelast data in
        if decide (last data = Some EQUALS) then removelast data else data
      else data
    else data in
  if decide (length data mod 4 = 1) then None
  else base64_bytes <$> mapM base64_value data.

(** ** The pieces of the page around the store *)

(** [url.substring(url.indexOf(':') + 1, url.indexOf(';'))]: how the save
    and edit buttons of a generated image read its mime type. *)
Definition mimeTypeOf (url : jsstring) : jsstring :=
  substring (indexOf COLON url + 1)%Z (indexOf SEMICOLON url) url.

(** The data URL [processApiResponse] makes of an inline-data part. *)
Definition responseImageUrl (inline : option (list N) * option (list N)) : jsstring :=
  lit "data:" ++ interpolate inline.1 ++ lit ";base64," ++ interpolate inline.2.

(** The response object as [processApiResponse] reads it,
    [response.candidates[0].content.parts]: [candidates], its first
    element, [content] and [parts] can each be missing. *)
Module Response.
Record Content := { parts : option (list ResponsePart) }.
Record Candidate := { content : option Content }.
Record t := { candidates : option (list Candidate) }.

(** [response.candidates[0].content.parts] as the [for ... of] loop needs
    it; [None]: the [TypeError] of reading a property of [undefined], or of
    iterating [undefined]. *)
Definition firstParts (response : t) : option (list ResponsePart) :=
  cs ← candidates response; c ← cs !! 0; ct ← content c; parts ct.

(** [processApiResponse(response)] from the response object on; [None]:
    the read throws, before anything is added to the chat. *)
Definition processApiResponse (response : t) (chatHistory : list Message)
  : option (list Message) :=
  ps ← firstParts response; Some (processApiResponse ps chatHistory).
End Response.

(** The arguments of [new File([u8arr], filename, { type: mime })]. *)
Module File.
Record t := { bits : list N; name : list N; type_ : list N }.
End File.

(** [dataURLtoFile(dataurl, filename)]; [None]: the [Error] thrown when
    the pattern does not match, or the exception of [atob]. An absent
    [arr[1]] reaches [atob] as the string [undefined]. *)
Definition dataURLtoFile (dataurl filename : jsstring) : option File.t :=
  let arr := split_comma dataurl in
  mime ← match_mime (default [] (arr !! 0));
  bstr ← atob (interpolate (arr !! 1));
  Some {| File.bits := bstr; File.name := filename; File.type_ := mime |}.

(** The file that [stageGeneratedImageForEditing(dataUrl)] makes before it
    stages anything; [now] is [Date.now()] in decimal digits. [None]:
    [dataURLtoFile] throws. *)
Definition generatedEditFile (now url : jsstring) : option File.t :=
  let mimeType := mimeTypeOf url in
  let extension :=
    match split_on SLASH mimeType !! 1 with
    | Some e => or_else e (lit "png")
    | None => lit "png"
    end in
  let filename := lit "generated-edit-" ++ now ++ lit "." ++ extension in
  dataURLtoFile url filename.

(** [openSaveKeyModal(imageData, mimeType, source)] *)
Definition openSaveKeyModal (imageData mimeType : jsstring) (source : ModalSource)
    (st : Store) : Store :=
  {| references := references st;
     imageToSave := Some {| StoredImage.data := imageData;
                            StoredImage.mimeType := mimeType |};
     saveModalSource := Some source; keyErrorMessage := lit "";
     saveKeyModalHidden := false; messages := messages st |}.

(** The save button of a generated image shown at [url]. *)
Definition saveGeneratedImage (url : jsstring) (st : Store) : Store :=
  openSaveKeyModal url (mimeTypeOf url) generated st.

(** [insertReferenceAtCursor(key)] with the text and the selection of the
    prompt field: the new text and the new cursor position. *)
Definition insertReferenceAtCursor (key : jsstring) (start end_ : nat)
    (text : jsstring) : list N * nat :=
  let newText :=
    substring 0 (Z.of_nat start) text ++ [AT] ++ key ++ [SPACE]
      ++ substring_from (Z.of_nat end_) text in
  (newText, start + length key + 2).

(** [populateReferencePicker(filter)]: the keys of the items shown, in
    display order; [toLowerCase] is the string method. *)
Definition populateReferencePicker (toLowerCase : list N → list N)
    (filter_ : jsstring) (references : References) : list jsstring :=
  let lowerCaseFilter := toLowerCase filter_ in
  filter (λ key, includes lowerCaseFilter (toLowerCase key) = true) references.*1.

(** *** The references dialog *)

(** The store together with the rows the dialog shows: the
    [data-old-key] of each row, in display order. *)
Module RefDialog.
Record t := { references : list (list N * StoredImage.t); rows : list (list N) }.

(** [populateReferencesModal()] *)
Definition populateReferencesModal (d : t) : t :=
  {| references := references d; rows := (references d).*1 |}.

(** What happens to the store and the rows: the dialog is opened, a row's
    delete button is pressed (and confirmed or not), a row's key field
    loses focus holding [value], a row's use button is pressed when the
    clock shows [now], or a reference is saved from the save dialog. *)
Inductive Event :=
| Open
| Delete (key : list N) (confirmed : bool)
| Rename (oldKey value : list N)
| Use (key now : list N)
| Saved (key : list N) (image : StoredImage.t).

(** The handler of an event; [None]: it throws. A rename throws when its
    non-null assertion fails and it reads [undefined]; the use button
    throws when [dataURLtoFile] does, the store and the rows being then as
    they were. The use button leaves the store and the rows alone: it
    closes the dialog and stages the image. *)
Definition handle (ev : Event) (d : t) : option t :=
  match ev with
  | Open => Some (populateReferencesModal d)
  | Delete key confirmed =>
      if confirmed then
        Some (populateReferencesModal
                {| references := handleDelete key (references d); rows := rows d |})
      else Some d
  | Rename oldKey value =>
      out ← handleRename oldKey value (references d);
      if decide (trim value = oldKey) then Some d
      else if rn_invalid out then Some d
      else Some (populateReferencesModal
                   {| references := rn_references out; rows := rows d |})
  | Use key now =>
      match JSMap.get key (references d) with
      | None => Some d
      | Some ref => _ ← generatedEditFile now (StoredImage.data ref); Some d
      end
  | Saved key image =>
      Some {| references := JSMap.set key image (references d); rows := rows d |}
  end.

(** An event the page can deliver: the buttons and fields are those of
    the rows on display, and a save went through the checks of
    [handleSaveKey]. *)
Definition enabled (ev : Event) (d : t) : Prop :=
  match ev with
  | Open => True
  | Delete key _ => key ∈ rows d
  | Rename oldKey _ => oldKey ∈ rows d
  | Use key _ => key ∈ rows d
  | Saved key _ => KEY_REGEX_test key = true ∧ JSMap.has key (references d) = false
  end.

(** The states the dialog can be in, from the empty store. A handler
    that throws leaves the store and the rows as they were, so it adds no
    state. *)
Inductive reachable : t → Prop :=
| reachable_initial : reachable {| references := []; rows := [] |}
| reachable_step d ev d' :
    reachable d → enabled ev d → handle ev d = Some d' → reachable d'.
End RefDialog.

(** *** Submitting a message *)

(** The page around the chat form: the store with the chat, the staged
    image, the text of the prompt field, whether the form is disabled
    while a request is pending, the requests sent so far and whether the
    preview of the staged image is hidden. *)
Module App.
Record t := {
  store : Store;
  stagedImage : option StagedImage.t;
  promptInput : list N;
  loading : bool;
  sentRequests : list (list Part);
  imagePreviewHidden : bool
}.

Definition set_store (v : Store) (a : t) : t :=
  {| store := v; stagedImage := stagedImage a; promptInput := promptInput a;
     loading := loading a; sentRequests := sentRequests a;
     imagePreviewHidden := imagePreviewHidden a |}.

(** [addMessage] on the chat of the page. *)
Definition say (s : Sender) (t_ : jsstring) (imgs : list jsstring) (a : t) : t :=
  set_store
    {| references := references (store a); imageToSave := imageToSave (store a);
       saveModalSource := saveModalSource (store a);
       keyErrorMessage := keyErrorMessage (store a);
       saveKeyModalHidden := saveKeyModalHidden (store a);
       messages := addMessage s t_ imgs (messages (store a)) |} a.

(** [resetInputArea()] *)
Definition resetInputArea (a : t) : t :=
  {| store := store a; stagedImage := None; promptInput := lit "";
     loading := loading a; sentRequests := sentRequests a; imagePreviewHidden := true |}.

(** [toggleLoading(isLoading)] *)
Definition toggleLoading (isLoading : bool) (a : t) : t :=
  {| store := store a; stagedImage := stagedImage a; promptInput := promptInput a;
     loading := isLoading; sentRequests := sentRequests a;
     imagePreviewHidden := imagePreviewHidden a |}.

(** The [onload] callback of [handleFileSelect] for a file read as the data
    URL [data], of type [type]. *)
Definition handleFileSelect (data type_ : jsstring) (a : t) : t :=
  {| store := openSaveKeyModal data type_ upload (store a);
     stagedImage := Some {| StagedImage.data := data; StagedImage.mimeType := type_;
                            StagedImage.maskData := None;
                            StagedImage.maskPreviewData := None |};
     promptInput := promptInput a; loading := loading a; sentRequests := sentRequests a;
     imagePreviewHidden := false |}.

(** [stageGeneratedImageForEditing(dataUrl)], the edit button of a
    generated image and the use button of a row of the references dialog;
    [None]: [dataURLtoFile] throws and nothing is staged. The file is kept
    in [stagedImage.file], which nothing reads. *)
Definition stageGeneratedImageForEditing (now url : jsstring) (a : t) : option t :=
  _ ← generatedEditFile now url;
  Some {| store := store a;
          stagedImage := Some {| StagedImage.data := url;
                                 StagedImage.mimeType := mimeTypeOf url;
                                 StagedImage.maskData := None;
                                 StagedImage.maskPreviewData := None |};
          promptInput := promptInput a; loading := loading a;
          sentRequests := sentRequests a; imagePreviewHidden := false |}.

(** [handleCancelSave()] *)
Definition handleCancelSave (a : t) : t :=
  let a :=
    match saveModalSource (store a) with
    | Some upload => resetInputArea a
    | _ => a
    end in
  set_store (closeSaveKeyModal (store a)) a.

(** The image shown with the user's message:
    [stagedImage?.maskPreviewData || stagedImage?.data]. *)
Definition userImageData (staged : option StagedImage.t) : option (list N) :=
  match staged with
  | Some s =>
      if truthy_opt (StagedImage.maskPreviewData s) then StagedImage.maskPreviewData s
      else Some (StagedImage.data s)
  | None => None
  end.

Section submit.
(** [toLowerCase] is the string method; [helpText] is the text of
    [showHelpMessage]; [generate] is the model; [thrown] is the message of
    an exception that leaves [callGeminiApi]. The call is awaited with no
    other handler running in between. *)
Variable toLowerCase : list N → list N.
Variable helpText : list N.
Variable generate : list Part → ApiOutcome.
Variable thrown : list N.

(** [handleFormSubmit(e)] *)
Definition handleFormSubmit (a : t) : t :=
  let prompt := trim (promptInput a) in
  if decide (toLowerCase prompt = lit "help") then
    resetInputArea (say ai helpText [] a)
  else if negb (truthy prompt) && negb (bool_decide (is_Some (stagedImage a))) then a
  else
    let shown := userImageData (stagedImage a) in
    let a := say user prompt
               (if truthy_opt shown then [interpolate shown] else []) a in
    let imageToSend := stagedImage a in
    let a := resetInputArea a in
    let a := toggleLoading true a in
    let a :=
      match callGeminiApi generate (references (store a)) prompt imageToSend
              {| chatHistory := messages (store a); requests := sentRequests a |} with
      | Some w =>
          {| store :=
               {| references := references (store a);
                  imageToSave := imageToSave (store a);
                  saveModalSource := saveModalSource (store a);
                  keyErrorMessage := keyErrorMessage (store a);
                  saveKeyModalHidden := saveKeyModalHidden (store a);
                  messages := chatHistory w |};
             stagedImage := stagedImage a; promptInput := promptInput a;
             loading := loading a; sentRequests := requests w;
             imagePreviewHidden := imagePreviewHidden a |}
      | None => say ai (lit "An error occurred: " ++ thrown) [] a
      end in
    toggleLoading false a.
End submit.
End App.

(** * The vocabulary of the properties *)

(** A reference token of the prompt, as the prompt syntax defines it: at
    index [i] of [s] stands [@], then the non-empty run [k] of word
    characters, and the run cannot be extended (maximal munch). *)
Definition token_at (s : jsstring) (i : nat) (k : jsstring) : Prop :=
  ∃ pre post, s = pre ++ AT :: k ++ post ∧ length pre = i ∧ k ≠ [] ∧
    Forall (λ c, is_word c = true) k ∧
    match post with [] => True | c :: _ => is_word c = false end.

(** [a] is listed before [b] in [l]. *)
Definition before {A} (a b : A) (l : list A) : Prop :=
  ∃ p q, p < q ∧ l !! p = Some a ∧ l !! q = Some b.

(** The store invariant: keys are distinct and match [KEY_REGEX]. *)
Definition store_ok (references : References) : Prop :=
  NoDup references.*1 ∧ Forall (λ k, KEY_REGEX_test k = true) references.*1.

(** A stored encoded string: an envelope [header], the separating comma,
    and the encoded [payload]; neither part holds a comma (the base64
    alphabet has none). *)
Definition is_data_url (s payload : jsstring) : Prop :=
  ∃ header, s = header ++ COMMA :: payload ∧ (COMMA ∉ header) ∧ (COMMA ∉ payload).

(** The base64 alphabet with its padding character. *)
Definition is_base64 (c : char16) : bool :=
  ((48 <=? c) && (c <=? 57))%N || ((65 <=? c) && (c <=? 90))%N
  || ((97 <=? c) && (c <=? 122))%N || (c =? 43)%N || (c =? 47)%N || (c =? 61)%N.

(** The data URL the browser makes of base64 data:
    [data:<mime>;base64,<payload>]. *)
Definition dataUrl (mime payload : jsstring) : jsstring :=
  lit "data:" ++ mime ++ lit ";base64," ++ payload.

(** The stored strings an image part is made from, in emission order: the
    staged image, its mask when it has one, both with the mime type of the
    staged image. *)
Definition stagedSources (image : option StagedImage.t) : list (list N * list N) :=
  match image with
  | None => []
  | Some img =>
      (StagedImage.data img, StagedImage.mimeType img)
      :: match StagedImage.maskData img with
         | Some m => if truthy m then [(m, StagedImage.mimeType img)] else []
         | None => []
         end
  end.

(** A text part of a request. *)
Definition is_text (p : Part) : bool :=
  match p with TextPart _ => true | InlineDataPart _ _ => false end.

(** The text a response part adds to the message, and the image it adds. *)
Definition textOf (p : ResponsePart) : list N :=
  if truthy_opt (rp_text p) then interpolate (rp_text p) else [].

Definition imageOf (p : ResponsePart) : option (list N) :=
  if truthy_opt (rp_text p) then None else responseImageUrl <$> rp_inlineData p.

(** The four bytes of pixel [p] of a buffer, as the typed array reads
    them. *)
Definition pixel (d : list Z) (p : nat) : list (option Z) :=
  [d !! (4 * p); d !! (4 * p + 1); d !! (4 * p + 2); d !! (4 * p + 3)].

(** Opaque pure white and opaque pure black. *)
Definition WHITE : list (option Z) := [Some 255; Some 255; Some 255; Some 255]%Z.

Definition BLACK : list (option Z) := [Some 0; Some 0; Some 0; Some 255]%Z.

Section editor_invariant.
Context `{canvas2d : Canvas2D}.

(** A drawing call changes the context and the bytes of the bitmap, and
    nothing else. *)
Definition frame (st st' : Editor) : Prop :=
  stagedImage st' = stagedImage st ∧ isDrawing st' = isDrawing st ∧
  canvasHistory st' = canvasHistory st ∧
  editorModalHidden st' = editorModalHidden st ∧
  ImageData.same_size (editorCanvas st') (editorCanvas st) ∧
  length (ImageData.data (editorCanvas st'))
  = length (ImageData.data (editorCanvas st)).

(** While the editor is open: the history has snapshot 0, every snapshot
    is a well-formed bitmap of the size of the canvas, and so is the
    canvas; when no stroke is in progress the canvas shows the latest
    snapshot. *)
Definition editor_inv (st : Editor) : Prop :=
  editorModalHidden st = false →
  canvasHistory st ≠ [] ∧
  Forall (λ s, ImageData.wf s ∧ ImageData.same_size s (editorCanvas st))
    (canvasHistory st) ∧
  ImageData.wf (editorCanvas st) ∧
  (isDrawing st = false → last (canvasHistory st) = Some (editorCanvas st)).

End editor_invariant.

(** ** A small canvas to run the editor on *)

(** A canvas whose drawing calls paint the whole bitmap opaque white and
    whose encoder writes one letter per byte. *)
Definition plainCanvas : Canvas2D.
Proof.
  refine {| Point := nat * nat; Pen := unit; origin := (0, 0); pen_reset := tt;
            setStyle := λ _ _ p, p; setComposite := λ _ p, p;
            beginPath := λ p, p; moveTo := λ _ p, p; lineTo := λ _ p, p;
            arc := λ _ _ p, p;
            stroke := λ _ c, (λ _, 255%Z) <$> ImageData.data c;
            fill := λ _ c, (λ _, 255%Z) <$> ImageData.data c;
            fillRect := λ _ _ _ c, (λ _, 255%Z) <$> ImageData.data c;
            blit := λ _ c, ImageData.data c;
            toDataURL := λ mime img,
              lit "data:" ++ mime ++ lit ";base64," ++
              ((λ z, if decide (z = 0%Z) then 65%N else 47%N) <$> ImageData.data img) |};
    intros; by rewrite ?length_fmap.
Defined.

(** A staged 1x1 image, opened in the editor and painted with one brush
    stroke. *)
Definition one_stroke : list (@Event plainCanvas) :=
  [Stage {| StagedImage.data := lit "data:image/png;base64,SU1H";
            StagedImage.mimeType := lit "image/png";
            StagedImage.maskData := None; StagedImage.maskPreviewData := None |};
   OpenEditor {| ImageData.width := 1; ImageData.height := 1;
                 ImageData.data := [10; 20; 30; 255]%Z |};
   MouseDown ((0, 0) : @Point plainCanvas);
   MouseMove ((0, 0) : @Point plainCanvas) (lit "5") None;
   MouseUp ((0, 0) : @Point plainCanvas)].

Definition blank_canvas : ImageData.t :=
  {| ImageData.width := 1; ImageData.height := 1; ImageData.data := [0; 0; 0; 0]%Z |}.

(** * Properties *)

(** ** The reference scanner *)

Lemma is_word_not_AT c : is_word c = true → c ≠ AT.
Proof. intros H ->. by vm_compute in H. Qed.

Lemma word_run_spec r :
  ∃ post, r = word_run r ++ post ∧ Forall (λ c, is_word c = true) (word_run r) ∧
          match post with [] => True | c :: _ => is_word c = false end.
Proof.
  induction r as [|d r (post & Hr & Hw & Hp)]; simpl.
  - by exists [].
  - destruct (is_word d) eqn:Hd.
    + exists post. simpl. split; [by rewrite <-Hr|]. split; [by constructor|done].
    + by exists (d :: r).
Qed.

Lemma word_run_max k post :
  Forall (λ c, is_word c = true) k →
  match post with [] => True | c :: _ => is_word c = false end →
  word_run (k ++ post) = k.
Proof.
  induction 1 as [|c k Hc _ IH]; simpl; intros Hp.
  - destruct post as [|c ?]; [done|]. simpl. by rewrite Hp.
  - rewrite Hc. by rewrite IH.
Qed.

Lemma REFERENCE_REGEX_at_spec s i k :
  REFERENCE_REGEX_at s i = Some k ↔ token_at s i k.
Proof.
  unfold REFERENCE_REGEX_at, token_at. split.
  - destruct (drop i s) as [|c r] eqn:E; [done|]. case_decide as Hc; [|done].
    subst c. destruct (word_run_spec r) as (post & Hr & Hw & Hp).
    destruct (word_run r) as [|c w] eqn:Ew; [done|]. intros [= <-].
    exists (take i s), post. split.
    { rewrite <-Hr, <-E. by rewrite take_drop. }
    split; [|done]. apply length_take_le.
    assert (length (drop i s) ≠ 0) as Hd by (by rewrite E).
    rewrite length_drop in Hd. lia.
  - intros (pre & post & -> & <- & Hne & Hw & Hp).
    rewrite drop_app_length. rewrite decide_True by done.
    rewrite word_run_max by done. by destruct k.
Qed.

Lemma token_at_chars s i k m c :
  token_at s i k → k !! m = Some c → s !! (i + 1 + m) = Some c ∧ is_word c = true.
Proof.
  intros (pre & post & -> & <- & _ & Hw & _) Hm. split.
  - rewrite lookup_app_r by lia.
    replace (length pre + 1 + m - length pre) with (S m) by lia. simpl.
    by rewrite lookup_app_l by (by eapply lookup_lt_Some).
  - by eapply (Forall_lookup_1 _ _ _ _ Hw).
Qed.

Lemma token_at_head s i k : token_at s i k → s !! i = Some AT.
Proof.
  intros (pre & post & -> & <- & _). by rewrite list_lookup_middle.
Qed.

(** Matches of the pattern cannot overlap: inside a token no token starts. *)
Lemma token_at_disjoint s i k j k' :
  token_at s i k → token_at s j k' → i < j → i + 1 + length k ≤ j.
Proof.
  intros Hi Hj Hlt. destruct (decide (i + 1 + length k ≤ j)) as [|Hn]; [done|].
  exfalso. assert (is_Some (k !! (j - (i + 1)))) as [c Hc].
  { apply lookup_lt_is_Some. lia. }
  destruct (token_at_chars _ _ _ _ _ Hi Hc) as [Hs Hw].
  replace (i + 1 + (j - (i + 1))) with j in Hs by lia.
  rewrite (token_at_head _ _ _ Hj) in Hs. injection Hs as <-.
  by apply is_word_not_AT in Hw.
Qed.

Lemma token_at_fun s i k k' : token_at s i k → token_at s i k' → k = k'.
Proof.
  rewrite <-!REFERENCE_REGEX_at_spec. congruence.
Qed.

Lemma exec_None s i n :
  REFERENCE_REGEX_exec s i n = None →
  ∀ k, i ≤ k → k < i + n → REFERENCE_REGEX_at s k = None.
Proof.
  revert i. induction n as [|n IH]; intros i; simpl; [lia|].
  destruct (REFERENCE_REGEX_at s i) eqn:E; [done|]. intros H k ? ?.
  destruct (decide (k = i)) as [->|]; [done|]. eapply IH; [exact H|lia|lia].
Qed.

Lemma matchAll_from_elem s L i k :
  (i, k) ∈ matchAll_from s L ↔ L ≤ i ∧ token_at s i k.
Proof.
  funelim (matchAll_from s L); clear Heqcall.
  - rename lastIndex into L. pose proof (exec_bounds _ _ _ _ _ E) as (Hle & Hlt & Hat & Hnone).
    rewrite elem_of_cons, H. clear H.
    apply REFERENCE_REGEX_at_spec in Hat. split.
    + intros [[= -> ->]|[Hge Htok]]; [done|]. split; [lia|done].
    + intros [Hge Htok]. destruct (decide (i = j)) as [->|Hne].
      { left. f_equal. by eapply token_at_fun. }
      right. split; [|done].
      destruct (decide (i < j)) as [Hlt'|].
      { apply REFERENCE_REGEX_at_spec in Htok. rewrite Hnone in Htok by done. done. }
      eapply token_at_disjoint; [exact Hat|exact Htok|lia].
  - rewrite elem_of_nil. split; [done|]. intros [Hge Htok]. exfalso.
    apply REFERENCE_REGEX_at_spec in Htok.
    pose proof (at_length _ _ _ Htok) as [_ Hlen].
    match goal with
    | Hex : REFERENCE_REGEX_exec _ _ _ = None |- _ =>
        rewrite (exec_None _ _ _ Hex i) in Htok; [done|done|lia]
    end.
Qed.

(** The matches come in increasing index order. *)
Lemma matchAll_from_sorted s L :
  StronglySorted (λ a b, a.1 < b.1) (matchAll_from s L).
Proof.
  funelim (matchAll_from s L); clear Heqcall; [|constructor].
  constructor; [done|]. apply Forall_forall. intros [i k] Hin.
  apply matchAll_from_elem in Hin as [? _]. simpl. lia.
Qed.

Example matchAll_ex :
  matchAll (lit "combine @x and @yy, mail a@b.c @ @@z @x")
  = [(8, lit "x"); (15, lit "yy"); (26, lit "b"); (34, lit "z"); (37, lit "x")].
Proof. vm_compute. reflexivity. Qed.

(** ** Sets and maps *)

Lemma before_cons_inv {A} (a b x : A) l :
  before a b (x :: l) → (a = x ∧ b ∈ l) ∨ before a b l.
Proof.
  intros (p & q & Hlt & Hp & Hq). destruct q as [|q]; [lia|]. simpl in Hq.
  destruct p as [|p]; simpl in Hp.
  - left. split; [congruence|]. by eapply list_elem_of_lookup_2.
  - right. exists p, q. split; [lia|done].
Qed.

Lemma before_cons {A} (a b x : A) l : before a b l → before a b (x :: l).
Proof. intros (p & q & ? & ? & ?). exists (S p), (S q). split; [lia|done]. Qed.

Lemma before_head {A} (a b : A) l : b ∈ l → before a b (a :: l).
Proof.
  intros [q Hq]%list_elem_of_lookup_1. exists 0, (S q). split; [lia|done].
Qed.

Lemma before_filter {A} (P : A → Prop) `{!∀ x, Decision (P x)} a b l :
  before a b (filter P l) → before a b l.
Proof.
  induction l as [|x l IH]; [done|]. rewrite filter_cons.
  destruct (decide (P x)).
  - intros [[-> Hb]|Hb]%before_cons_inv.
    + apply before_head. by apply list_elem_of_filter in Hb as [_ ?].
    + by apply before_cons, IH.
  - intros Hb. by apply before_cons, IH.
Qed.

Lemma sorted_lookup {A} (R : relation A) l p q x y :
  StronglySorted R l → l !! p = Some x → l !! q = Some y → p < q → R x y.
Proof.
  intros Hs. revert p q. induction Hs as [|z l Hs IH Hall]; intros p q; [done|].
  destruct q as [|q]; [lia|]. simpl. destruct p as [|p]; simpl.
  - intros [= ->] Hq _. rewrite Forall_forall in Hall.
    by eapply Hall, list_elem_of_lookup_2.
  - intros Hp Hq ?. eapply IH; [done..|lia].
Qed.

Module JSSetFacts.
Import JSSet.
Section set.
Context {A : Type} `{!EqDecision A}.

Lemma from_snoc (xs : list A) (x : A) : from (xs ++ [x]) = add x (from xs).
Proof. unfold from. by rewrite foldl_snoc. Qed.

Lemma elem_of_from (xs : list A) (x : A) : x ∈ from xs ↔ x ∈ xs.
Proof.
  induction xs as [|y xs IH] using rev_ind; [done|].
  rewrite from_snoc, elem_of_app, list_elem_of_singleton. unfold add.
  case_decide as Hy; [|rewrite elem_of_app, list_elem_of_singleton; tauto].
  split; [tauto|]. intros [Hx| ->]; [tauto|by rewrite IH in Hy; tauto].
Qed.

Lemma NoDup_from (xs : list A) : NoDup (from xs).
Proof.
  induction xs as [|y xs IH] using rev_ind; [constructor|].
  rewrite from_snoc. unfold add. case_decide as Hy; [done|].
  apply NoDup_app. split; [done|]. split; [|apply NoDup_singleton].
  intros z Hz ->%list_elem_of_singleton. done.
Qed.

(** The traversal order of the set is the order of first occurrence in
    the array it was built from. *)
Lemma from_first_occurrence (xs : list A) (a b : A) :
  before a b (from xs) →
  ∃ p, xs !! p = Some a ∧ ∀ q, xs !! q = Some b → p < q.
Proof.
  induction xs as [|y xs IH] using rev_ind.
  { intros (p & q & _ & Hp & _). done. }
  rewrite from_snoc. unfold add. intros Hb.
  assert (∀ p, xs !! p = Some a → (∀ q, xs !! q = Some b → p < q) →
    ∃ p, (xs ++ [y]) !! p = Some a ∧ ∀ q, (xs ++ [y]) !! q = Some b → p < q)
    as Hlift.
  { intros p Hp Hq. exists p. split; [by apply lookup_app_l_Some|].
    intros q [Hq'|[-> _]]%lookup_snoc_Some; [by apply Hq, Hq'|].
    by eapply lookup_lt_Some. }
  case_decide as Hy.
  { destruct (IH Hb) as (p & Hp & Hq). eauto. }
  destruct Hb as (p & q & Hlt & Hp & Hq).
  apply lookup_snoc_Some in Hq as [[Hql Hq]|[Hql ->]].
  - apply lookup_snoc_Some in Hp as [[_ Hp]|[-> _]]; [|lia].
    destruct (IH (ex_intro _ p (ex_intro _ q (conj Hlt (conj Hp Hq)))))
      as (p' & Hp' & Hq'). eauto.
  - apply lookup_snoc_Some in Hp as [[_ Hp]|[-> _]]; [|lia].
    apply list_elem_of_lookup_2 in Hp. rewrite elem_of_from in Hp.
    apply list_elem_of_lookup_1 in Hp as [p' Hp'].
    exists p'. split; [by apply lookup_app_l_Some|].
    intros q' [[_ Hq']|[-> _]]%lookup_snoc_Some; [|by eapply lookup_lt_Some].
    exfalso. apply Hy. rewrite elem_of_from. by eapply list_elem_of_lookup_2.
Qed.

End set.
End JSSetFacts.

Module JSMapFacts.
Import JSMap.
Section map.
Context {K V : Type} `{!EqDecision K}.

Lemma has_get (k : K) (m : list (K * V)) : has k m = true ↔ is_Some (get k m).
Proof.
  unfold has. rewrite bool_decide_eq_true.
  induction m as [|[k' v] m IH]; simpl.
  - rewrite elem_of_nil. split; [done|]. by intros [? ?].
  - rewrite elem_of_cons. case_decide as Hk; [subst; split; [by eauto|by left]|].
    rewrite IH. split; [|tauto]. intros [?|?]; [congruence|done].
Qed.

Lemma has_false_get (k : K) (m : list (K * V)) :
  has k m = false ↔ get k m = None.
Proof.
  rewrite eq_None_not_Some, <-has_get. by destruct (has k m).
Qed.

Lemma set_fresh (k : K) (v : V) (m : list (K * V)) :
  has k m = false → set k v m = m ++ [(k, v)].
Proof.
  unfold has. rewrite bool_decide_eq_false.
  induction m as [|[k' v'] m IH]; simpl; [done|].
  rewrite not_elem_of_cons. intros [Hne Hm].
  rewrite decide_False by done. by rewrite IH.
Qed.

Lemma get_set_eq (k : K) (v : V) (m : list (K * V)) : get k (set k v m) = Some v.
Proof.
  induction m as [|[k' v'] m IH]; simpl; [by rewrite decide_True|].
  destruct (decide (k' = k)); simpl; [by rewrite decide_True|].
  by rewrite decide_False.
Qed.

Lemma get_set_ne (k k' : K) (v : V) (m : list (K * V)) : k ≠ k' → get k' (set k v m) = get k' m.
Proof.
  intros Hne. induction m as [|[k0 v0] m IH]; simpl.
  - by rewrite decide_False.
  - destruct (decide (k0 = k)) as [->|]; simpl.
    + by rewrite !decide_False.
    + by rewrite IH.
Qed.

Lemma get_delete_eq (k : K) (m : list (K * V)) : get k (delete k m) = None.
Proof.
  unfold delete. induction m as [|[k' v'] m IH]; [done|].
  rewrite filter_cons. simpl. destruct (decide (k' ≠ k)); [|done].
  simpl. by rewrite decide_False.
Qed.

Lemma get_delete_ne (k k' : K) (m : list (K * V)) : k ≠ k' → get k' (delete k m) = get k' m.
Proof.
  intros Hne. unfold delete. induction m as [|[k0 v0] m IH]; [done|].
  rewrite filter_cons. simpl. destruct (decide (k0 ≠ k)) as [|Heq]; simpl.
  - by rewrite IH.
  - apply dec_stable in Heq as ->. by rewrite decide_False.
Qed.

Lemma get_app_fresh (k k' : K) (v : V) (m : list (K * V)) :
  get k' (m ++ [(k, v)]) =
  match get k' m with Some w => Some w | None => if decide (k = k') then Some v else None end.
Proof.
  induction m as [|[k0 v0] m IH]; simpl; [done|].
  by destruct (decide (k0 = k')).
Qed.

Lemma has_delete_ne (k k' : K) (m : list (K * V)) : k ≠ k' → has k' (delete k m) = has k' m.
Proof.
  intros Hne. apply eq_true_iff_eq. by rewrite !has_get, get_delete_ne.
Qed.

End map.
End JSMapFacts.

(** ** Prompt resolution *)

Lemma missing_loop_filter (references : References) (keys acc : list (list N)) :
  foldl (λ missing key,
           if negb (JSMap.has key references) then missing ++ [key] else missing)
        acc keys
  = acc ++ filter (λ k, JSMap.has k references = false) keys.
Proof.
  revert acc. induction keys as [|k keys IH]; intros acc; simpl.
  - by rewrite app_nil_r.
  - rewrite IH, filter_cons.
    destruct (JSMap.has k references) eqn:E; simpl; [done|].
    by rewrite <-app_assoc.
Qed.

Lemma missingKeys_filter references prompt :
  missingKeys (parsePromptForReferences references prompt)
  = filter (λ k, JSMap.has k references = false)
           (referencedKeys (parsePromptForReferences references prompt)).
Proof. unfold parsePromptForReferences. simpl. by rewrite missing_loop_filter. Qed.

Lemma referencedKeys_token references s k :
  k ∈ referencedKeys (parsePromptForReferences references s) ↔ ∃ i, token_at s i k.
Proof.
  unfold parsePromptForReferences. simpl.
  rewrite JSSetFacts.elem_of_from, list_elem_of_fmap. split.
  - intros ([i k'] & -> & Hin). apply matchAll_from_elem in Hin as [_ ?]. eauto.
  - intros [i Hi]. exists (i, k). split; [done|].
    apply matchAll_from_elem. split; [lia|done].
Qed.

Lemma referencedKeys_order references s a b :
  before a b (referencedKeys (parsePromptForReferences references s)) →
  ∃ i, token_at s i a ∧ ∀ j, token_at s j b → i < j.
Proof.
  unfold parsePromptForReferences. simpl.
  intros (p & Hp & Hq)%JSSetFacts.from_first_occurrence.
  apply list_lookup_fmap_Some in Hp as ([i a'] & -> & Hp). simpl.
  exists i. split.
  { apply list_elem_of_lookup_2, matchAll_from_elem in Hp. tauto. }
  intros j Hj.
  assert ((j, b) ∈ matchAll s) as [q Hjq]%list_elem_of_lookup_1.
  { apply matchAll_from_elem. split; [lia|done]. }
  assert (p < q) as Hlt.
  { apply Hq. rewrite list_lookup_fmap. by rewrite Hjq. }
  pose proof (matchAll_from_sorted s 0) as Hs.
  by apply (sorted_lookup _ _ _ _ _ _ Hs Hp Hjq Hlt).
Qed.

Example parse_ex :
  parsePromptForReferences
    [(lit "x", {| StoredImage.data := lit "data:image/png;base64,AAAA";
                  StoredImage.mimeType := lit "image/png" |})]
    (lit "put @cat and @x near @cat, not @dog @")
  = {| referencedKeys := [lit "cat"; lit "x"; lit "dog"];
       missingKeys := [lit "cat"; lit "dog"] |}.
Proof. vm_compute. reflexivity. Qed.

(** C5. Resolution finds exactly the reference tokens of the prompt: a key
    is referenced if and only if [@key] stands somewhere in the prompt as a
    maximal run of word characters after an [@]; each key is listed once;
    the missing keys are the referenced keys that the store lacks, once each;
    and both sequences are in order of first occurrence in the prompt. *)
Theorem parsePromptForReferences_tokens (references : References) (s : jsstring) :
  let r := parsePromptForReferences references s in
  (∀ k, k ∈ referencedKeys r ↔ ∃ i, token_at s i k) ∧
  NoDup (referencedKeys r) ∧
  (∀ k, k ∈ missingKeys r ↔
        (∃ i, token_at s i k) ∧ JSMap.has k references = false) ∧
  NoDup (missingKeys r) ∧
  (∀ a b, before a b (referencedKeys r) ∨ before a b (missingKeys r) →
          ∃ i, token_at s i a ∧ ∀ j, token_at s j b → i < j).
Proof.
  intros r. subst r. split; [apply referencedKeys_token|].
  split; [apply JSSetFacts.NoDup_from|]. rewrite missingKeys_filter. split.
  { intros k. rewrite list_elem_of_filter, referencedKeys_token. tauto. }
  split; [apply NoDup_filter, JSSetFacts.NoDup_from|].
  intros a b [Hb|Hb]; [by eapply referencedKeys_order|].
  apply before_filter in Hb. by eapply referencedKeys_order.
Qed.

(** C3. A key the store lacks is listed twice by the resolver: with the
    prompt [@x] and an empty store, [x] is both in [referencedKeys] and in
    [missingKeys]. *)
Theorem parsePromptForReferences_missing_also_referenced :
  let r := parsePromptForReferences [] (lit "@x") in
  referencedKeys r = [lit "x"] ∧ missingKeys r = [lit "x"] ∧
  lit "x" ∈ referencedKeys r ∧ lit "x" ∈ missingKeys r.
Proof.
  assert (parsePromptForReferences [] (lit "@x")
          = {| referencedKeys := [lit "x"]; missingKeys := [lit "x"] |}) as ->
    by (vm_compute; reflexivity).
  simpl. repeat split; apply list_elem_of_singleton; reflexivity.
Qed.

(** Every missing key is also a referenced key. *)
Lemma missingKeys_referenced references s k :
  k ∈ missingKeys (parsePromptForReferences references s) →
  k ∈ referencedKeys (parsePromptForReferences references s)
  ∧ JSMap.get k references = None.
Proof.
  rewrite missingKeys_filter, list_elem_of_filter, JSMapFacts.has_false_get. tauto.
Qed.

(** With nothing missing, every referenced key is in the store. *)
Lemma referencedKeys_resolved references s k :
  missingKeys (parsePromptForReferences references s) = [] →
  k ∈ referencedKeys (parsePromptForReferences references s) →
  JSMap.has k references = true.
Proof.
  rewrite missingKeys_filter. intros Hnil Hk.
  destruct (JSMap.has k references) eqn:E; [done|].
  exfalso. by apply (filter_nil_not_elem_of _ _ k Hnil).
Qed.

(** ** Request assembly *)

Lemma pushReferenceParts_Some references keys parts refs :
  Forall2 (λ k r, JSMap.get k references = Some r) keys refs →
  pushReferenceParts references keys parts
  = Some (parts ++ ((λ r, inlineData (StoredImage.data r) (StoredImage.mimeType r))
                      <$> refs)).
Proof.
  unfold pushReferenceParts. intros HF. revert parts.
  induction HF as [|k r keys refs Hk _ IH]; intros parts; simpl.
  - by rewrite app_nil_r.
  - rewrite Hk. simpl. rewrite IH. by rewrite <-app_assoc.
Qed.

Lemma pushReferenceParts_None references keys parts k :
  k ∈ keys → JSMap.get k references = None →
  pushReferenceParts references keys parts = None.
Proof.
  unfold pushReferenceParts.
  assert (∀ l, foldl (λ acc key,
             parts ← acc; ref ← JSMap.get key references;
             Some (parts ++ [inlineData (StoredImage.data ref) (StoredImage.mimeType ref)]))
            None l = None) as Hnone.
  { induction l as [|x l IH]; [done|]. simpl. apply IH. }
  intros Hin Hk. revert parts.
  induction keys as [|x keys IH]; intros parts; [by apply elem_of_nil in Hin|].
  simpl. apply elem_of_cons in Hin as [<-|Hin].
  - rewrite Hk. simpl. apply Hnone.
  - destruct (JSMap.get x references); simpl; [by apply IH|apply Hnone].
Qed.

Lemma resolved_keys_refs (references : References) (keys : list (list N)) :
  (∀ k, k ∈ keys → JSMap.has k references = true) →
  ∃ refs, Forall2 (λ k r, JSMap.get k references = Some r) keys refs.
Proof.
  induction keys as [|k keys IH]; intros Hall.
  - exists []. constructor.
  - destruct IH as [refs Hrefs].
    { intros k' Hk'. apply Hall. by right. }
    assert (is_Some (JSMap.get k references)) as [r Hr].
    { apply JSMapFacts.has_get, Hall. by left. }
    exists (r :: refs). by constructor.
Qed.

(** C1. With a staged image that carries a mask and resolved keys, the
    parts are the text, then the staged image, then the mask, then one
    image per key in the traversal order of the key set; for the keys of
    the prompt that order is the order of first occurrence. *)
Theorem buildApiParts_masked_order (references : References) (prompt : jsstring)
    (image : StagedImage.t) (mask : jsstring) (keys : list (list N)) :
  StagedImage.maskData image = Some mask → mask ≠ [] →
  (∀ k, k ∈ keys → JSMap.has k references = true) →
  (∃ refs, Forall2 (λ k r, JSMap.get k references = Some r) keys refs ∧
     buildApiParts references prompt (Some image) keys
     = Some (TextPart (or_else prompt (lit "Describe this image."))
             :: inlineData (StagedImage.data image) (StagedImage.mimeType image)
             :: inlineData mask (StagedImage.mimeType image)
             :: ((λ r, inlineData (StoredImage.data r) (StoredImage.mimeType r))
                   <$> refs))) ∧
  or_else prompt (lit "Describe this image.") ≠ [] ∧
  (keys = referencedKeys (parsePromptForReferences references prompt) →
   ∀ a b, before a b keys →
          ∃ i, token_at prompt i a ∧ ∀ j, token_at prompt j b → i < j).
Proof.
  intros Hmask Hne Hkeys. split; [|split].
  - destruct (resolved_keys_refs _ _ Hkeys) as [refs Hrefs].
    exists refs. split; [done|]. unfold buildApiParts. rewrite Hmask.
    assert (truthy (or_else prompt (lit "Describe this image.")) = true) as ->.
    { unfold or_else. by destruct prompt. }
    assert (truthy mask = true) as -> by (by destruct mask).
    by rewrite (pushReferenceParts_Some _ _ _ refs).
  - unfold or_else. by destruct prompt.
  - intros -> a b Hb. by eapply referencedKeys_order.
Qed.

Lemma buildApiParts_masked_order_witness :
  let references :=
    [(lit "x", {| StoredImage.data := lit "data:image/png;base64,WA==";
                  StoredImage.mimeType := lit "image/png" |});
     (lit "y", {| StoredImage.data := lit "data:image/jpeg;base64,WQ==";
                  StoredImage.mimeType := lit "image/jpeg" |})] in
  let image :=
    {| StagedImage.data := lit "data:image/png;base64,SU1H";
       StagedImage.mimeType := lit "image/png";
       StagedImage.maskData := Some (lit "data:image/png;base64,TUFTSw==");
       StagedImage.maskPreviewData := Some (lit "data:image/png;base64,UFJFVg==") |} in
  ∃ refs,
    Forall2 (λ k r, JSMap.get k references = Some r) [lit "x"; lit "y"] refs ∧
    buildApiParts references (lit "combine @x and @y") (Some image) [lit "x"; lit "y"]
    = Some (TextPart (or_else (lit "combine @x and @y") (lit "Describe this image."))
            :: inlineData (StagedImage.data image) (StagedImage.mimeType image)
            :: inlineData (lit "data:image/png;base64,TUFTSw==")
                 (StagedImage.mimeType image)
            :: ((λ r, inlineData (StoredImage.data r) (StoredImage.mimeType r))
                  <$> refs)).
Proof.
  intros references image.
  apply (buildApiParts_masked_order references (lit "combine @x and @y") image
           (lit "data:image/png;base64,TUFTSw==") [lit "x"; lit "y"]).
  - reflexivity.
  - discriminate.
  - intros k Hk. apply bool_decide_eq_true.
    apply elem_of_cons in Hk as [->|Hk]; [by left|].
    apply list_elem_of_singleton in Hk as ->. right. by left.
Defined.

(** The assembler on the prompt of the specification's example. *)
Example buildApiParts_combine :
  buildApiParts
    [(lit "x", {| StoredImage.data := lit "data:image/png;base64,WA==";
                  StoredImage.mimeType := lit "image/png" |});
     (lit "y", {| StoredImage.data := lit "data:image/jpeg;base64,WQ==";
                  StoredImage.mimeType := lit "image/jpeg" |})]
    (lit "combine @x and @y")
    (Some {| StagedImage.data := lit "data:image/png;base64,SU1H";
             StagedImage.mimeType := lit "image/png";
             StagedImage.maskData := Some (lit "data:image/png;base64,TUFTSw==");
             StagedImage.maskPreviewData := None |})
    [lit "x"; lit "y"]
  = Some [TextPart (lit "combine @x and @y");
          InlineDataPart (Some (lit "SU1H")) (lit "image/png");
          InlineDataPart (Some (lit "TUFTSw==")) (lit "image/png");
          InlineDataPart (Some (lit "WA==")) (lit "image/png");
          InlineDataPart (Some (lit "WQ==")) (lit "image/jpeg")].
Proof. vm_compute. reflexivity. Qed.

Lemma split_comma_no_comma s : COMMA ∉ s → split_comma s = [s].
Proof.
  induction s as [|c s IH]; [done|]. rewrite not_elem_of_cons. intros [Hc Hs].
  cbn [split_comma]. destruct (decide (c = COMMA)); [done|]. by rewrite IH.
Qed.

Lemma split_comma_1_data_url s payload :
  is_data_url s payload → split_comma_1 s = Some payload.
Proof.
  intros (header & -> & Hh & Hp). unfold split_comma_1.
  assert (split_comma (header ++ COMMA :: payload) = [header; payload]) as ->; [|done].
  induction header as [|c header IH].
  - change (split_comma ([] ++ COMMA :: payload))
      with ([] :: split_comma payload). by rewrite split_comma_no_comma.
  - apply not_elem_of_cons in Hh as [Hc Hh]. cbn [app split_comma].
    destruct (decide (c = COMMA)); [done|]. by rewrite IH.
Qed.

Lemma pushReferenceParts_inv references keys parts parts' :
  pushReferenceParts references keys parts = Some parts' →
  ∃ refs, Forall2 (λ k r, JSMap.get k references = Some r) keys refs ∧
    parts' = parts ++ ((λ r, inlineData (StoredImage.data r) (StoredImage.mimeType r))
                         <$> refs).
Proof.
  revert parts. induction keys as [|k keys IH]; intros parts.
  - intros [= <-]. exists []. split; [constructor|by rewrite app_nil_r].
  - destruct (JSMap.get k references) as [r|] eqn:Hk.
    + unfold pushReferenceParts. simpl. rewrite Hk. simpl.
      intros (refs & Hrefs & ->)%IH. exists (r :: refs).
      split; [by constructor|]. by rewrite <-app_assoc.
    + rewrite (pushReferenceParts_None _ _ _ k); [done|by left|done].
Qed.

Lemma dataUrl_is_data_url mime payload :
  COMMA ∉ mime → forallb is_base64 payload = true →
  is_data_url (dataUrl mime payload) payload.
Proof.
  intros Hm Hp. exists (lit "data:" ++ mime ++ lit ";base64"). split; [|split].
  - unfold dataUrl. by rewrite <-!app_assoc.
  - rewrite !not_elem_of_app. split; [|split; [done|]];
      apply (proj1 (bool_decide_eq_false _)); reflexivity.
  - intros Hin. rewrite forallb_forall in Hp.
    apply list_elem_of_In, Hp in Hin. by vm_compute in Hin.
Qed.

(** C9. Every image part of a request is made from a stored string and
    its mime type: the staged image, the mask and each referenced image
    give, in this order, a part whose mime type is the stored one and
    whose data is the stored string cut by [split(',')[1]]; on a stored
    data URL, such as the base64 data URLs the browser makes, that is
    exactly the payload after the separator. *)
Theorem buildApiParts_image_payload (references : References) (prompt : jsstring)
    (image : option StagedImage.t) (keys : list (list N)) (parts : list Part) :
  buildApiParts references prompt image keys = Some parts →
  (∃ refs, Forall2 (λ k r, JSMap.get k references = Some r) keys refs ∧
     ∃ texts, (texts = [] ∨ ∃ t, texts = [TextPart t]) ∧
       parts = texts ++
         ((λ src, inlineData src.1 src.2) <$>
            (stagedSources image ++
             ((λ r, (StoredImage.data r, StoredImage.mimeType r)) <$> refs)))) ∧
  (∀ d m payload, is_data_url d payload →
                  inlineData d m = InlineDataPart (Some payload) m) ∧
  (∀ mime payload m, COMMA ∉ mime → forallb is_base64 payload = true →
     inlineData (dataUrl mime payload) m = InlineDataPart (Some payload) m).
Proof.
  intros Hparts. split; [|split].
  - unfold buildApiParts in Hparts.
    apply pushReferenceParts_inv in Hparts as (refs & Hrefs & ->).
    exists refs. split; [done|].
    set (eff := or_else prompt _).
    exists (if truthy eff then [TextPart eff] else []). split.
    { destruct (truthy eff); eauto. }
    rewrite fmap_app, <-list_fmap_compose, app_assoc. f_equal.
    unfold stagedSources. destruct image as [img|]; [|by rewrite app_nil_r].
    destruct (StagedImage.maskData img) as [m|]; [destruct (truthy m)|];
      simpl; by rewrite <-?app_assoc.
  - intros d m payload Hd. unfold inlineData.
    by rewrite (split_comma_1_data_url _ _ Hd).
  - intros mime payload m Hm Hp. unfold inlineData.
    by rewrite (split_comma_1_data_url _ payload) by (by apply dataUrl_is_data_url).
Qed.

Lemma buildApiParts_image_payload_witness :
  inlineData (lit "data:image/png;base64,SU1H") (lit "image/png")
  = InlineDataPart (Some (lit "SU1H")) (lit "image/png").
Proof.
  refine (proj2 (proj2 (buildApiParts_image_payload
            [] (lit "edit") (Some {| StagedImage.data := lit "data:image/png;base64,SU1H";
                                     StagedImage.mimeType := lit "image/png";
                                     StagedImage.maskData := None;
                                     StagedImage.maskPreviewData := None |}) []
            [TextPart (lit "edit");
             InlineDataPart (Some (lit "SU1H")) (lit "image/png")] _))
            (lit "image/png") (lit "SU1H") (lit "image/png") _ _).
  - reflexivity.
  - apply (proj1 (bool_decide_eq_false _)); reflexivity.
  - reflexivity.
Defined.

(** ** The orchestrator *)

Lemma parse_empty_prompt references :
  parsePromptForReferences references [] = {| referencedKeys := []; missingKeys := [] |}.
Proof. reflexivity. Qed.

(** [join] puts the items one after the other, each but the first after
    the separator. *)
Lemma join_cons (sep x : list N) (r : list (list N)) :
  join sep (x :: r) = x ++ mjoin ((λ y, sep ++ y) <$> r).
Proof.
  revert x. induction r as [|y r IH]; intros x.
  - simpl. by rewrite app_nil_r.
  - change (join sep (x :: y :: r)) with (x ++ sep ++ join sep (y :: r)).
    rewrite IH. simpl. by rewrite <-app_assoc.
Qed.

Lemma mjoin_infix (sep x : list N) (r : list (list N)) (k : list N) :
  k ∈ x :: r → ∃ pre post, x ++ mjoin ((λ y, sep ++ y) <$> r) = pre ++ k ++ post.
Proof.
  revert x. induction r as [|y r IH]; intros x [->|Hk]%elem_of_cons.
  - by exists [], [].
  - by apply elem_of_nil in Hk.
  - by exists [], (mjoin ((λ y, sep ++ y) <$> (y :: r))).
  - destruct (IH y Hk) as (pre & post & E). exists (x ++ sep ++ pre), post.
    change (mjoin ((λ y0, sep ++ y0) <$> y :: r))
      with ((sep ++ y) ++ mjoin ((λ y0, sep ++ y0) <$> r)).
    rewrite <-!app_assoc. by rewrite E.
Qed.

(** C8. When the prompt names keys the store lacks, the orchestrator adds
    one message to the chat, sends no request to the model, and ends
    normally: the assembler, which would throw on such keys, is not run.
    The text of the message is the fixed opening, then the first missing
    key, then every further missing key after a comma and a space, in
    order, then a full stop; so every missing key stands in it. *)
Theorem callGeminiApi_missing_keys (generate : list Part → ApiOutcome)
    (references : References) (prompt : jsstring) (image : option StagedImage.t)
    (w : World) :
  let r := parsePromptForReferences references prompt in
  missingKeys r ≠ [] →
  ∃ k ks t,
    missingKeys r = k :: ks ∧
    t = lit "Error: The following reference keys were not found: "
        ++ k ++ mjoin ((λ k', [COMMA; SPACE] ++ k') <$> ks) ++ [46%N] ∧
    (∀ k', k' ∈ missingKeys r →
           ∃ pre post,
             t = lit "Error: The following reference keys were not found: "
                 ++ pre ++ k' ++ post ++ [46%N]) ∧
    callGeminiApi generate references prompt image w
    = Some {| chatHistory :=
                chatHistory w ++ [{| sender := ai; text := t; images := [] |}];
              requests := requests w |} ∧
    buildApiParts references prompt image (referencedKeys r) = None.
Proof.
  intros r Hmiss. subst r.
  destruct (missingKeys (parsePromptForReferences references prompt))
    as [|k ks] eqn:E; [done|].
  exists k, ks. eexists. split; [done|]. split; [reflexivity|]. split; [|split].
  - intros k' Hk'. destruct (mjoin_infix [COMMA; SPACE] k ks k' Hk')
      as (pre & post & Hj).
    exists pre, post. rewrite (app_assoc k), Hj. by rewrite <-!app_assoc.
  - unfold callGeminiApi. destruct prompt as [|c prompt].
    { by rewrite parse_empty_prompt in E. }
    cbn [truthy negb andb]. rewrite E. rewrite decide_True by (simpl; lia).
    change (lit ", ") with [COMMA; SPACE]. rewrite join_cons.
    change (lit ".") with [46%N]. by rewrite <-!app_assoc.
  - assert (k ∈ missingKeys (parsePromptForReferences references prompt)) as Hk
      by (rewrite E; by left).
    apply missingKeys_referenced in Hk as [Hk Hget].
    unfold buildApiParts. by eapply pushReferenceParts_None.
Qed.

Lemma callGeminiApi_missing_keys_witness :
  callGeminiApi (λ _, Failed None) [] (lit "blend @cat with @dog") None
    {| chatHistory := []; requests := [] |}
  = Some {| chatHistory :=
              [{| sender := ai;
                  text := lit "Error: The following reference keys were not found: cat, dog.";
                  images := [] |}];
            requests := [] |}.
Proof.
  destruct (callGeminiApi_missing_keys (λ _, Failed None) []
              (lit "blend @cat with @dog") None
              {| chatHistory := []; requests := [] |})
    as (k & ks & t & Hk & Ht & _ & Hcall & _).
  - vm_compute. discriminate.
  - rewrite Hcall, Ht. vm_compute in Hk. injection Hk as <- <-. reflexivity.
Defined.

Example callGeminiApi_missing_text :
  callGeminiApi (λ _, Failed None) [] (lit "blend @cat with @dog") None
    {| chatHistory := []; requests := [] |}
  = Some {| chatHistory :=
              [{| sender := ai;
                  text := lit "Error: The following reference keys were not found: cat, dog.";
                  images := [] |}];
            requests := [] |}.
Proof. vm_compute. reflexivity. Qed.

(** ** The reference store *)

Lemma is_word_not_space c : is_word c = true → is_space c = false.
Proof.
  unfold is_word, is_space. intros H.
  repeat (rewrite orb_true_iff in H || rewrite andb_true_iff in H).
  rewrite ?N.leb_le, ?N.eqb_eq in H.
  repeat (rewrite orb_false_iff || rewrite andb_false_iff).
  rewrite ?N.leb_gt, ?N.eqb_neq. lia.
Qed.

Lemma trimStart_word c s : is_word c = true → trimStart (c :: s) = c :: s.
Proof. intros H. simpl. by rewrite (is_word_not_space _ H). Qed.

Lemma forallb_word s :
  forallb is_word s = true ↔ Forall (λ c, is_word c = true) s.
Proof.
  induction s as [|c s IH]; simpl.
  - split; [constructor|done].
  - rewrite andb_true_iff, IH, Forall_cons. done.
Qed.

(** Trimming leaves a valid key as it is. *)
Lemma trim_key k : KEY_REGEX_test k = true → trim k = k.
Proof.
  unfold KEY_REGEX_test, trim. intros [Hne Hall]%andb_true_iff.
  apply forallb_word in Hall.
  destruct k as [|c k]; [done|].
  rewrite trimStart_word by (by inversion Hall).
  assert (Forall (λ c, is_word c = true) (reverse (c :: k))) as Hrev.
  { by apply Forall_reverse. }
  destruct (reverse (c :: k)) as [|d r] eqn:E.
  { apply (f_equal length) in E. rewrite length_reverse in E. done. }
  rewrite trimStart_word by (by inversion Hrev).
  by rewrite <-E, reverse_involutive.
Qed.

Lemma KEY_REGEX_test_nonempty k : KEY_REGEX_test k = true → truthy k = true.
Proof. unfold KEY_REGEX_test. by intros [? _]%andb_true_iff. Qed.

Lemma store_ok_has references k :
  store_ok references → JSMap.has k references = true → KEY_REGEX_test k = true.
Proof.
  intros [_ Hall] Hk. apply bool_decide_eq_true in Hk.
  rewrite Forall_forall in Hall. by apply Hall.
Qed.

Lemma stored_eta (img : StoredImage.t) :
  {| StoredImage.data := StoredImage.data img;
     StoredImage.mimeType := StoredImage.mimeType img |} = img.
Proof. by destruct img. Qed.




(** C7. With an image waiting in the save dialog: saving under a valid key
    that the store lacks stores the image there, last, and a later [get]
    returns it; saving under a key of the store leaves the store as it was
    and shows the key-taken message. *)
Theorem handleSaveKey_save_get (st : Store) (img : StoredImage.t) (key : jsstring) :
  imageToSave st = Some img →
  let st' := handleSaveKey key st in
  (KEY_REGEX_test key = true → JSMap.has key (references st) = false →
     JSMap.get key (references st') = Some img ∧
     references st' = references st ++ [(key, img)] ∧
     keyErrorMessage st' = [] ∧ saveKeyModalHidden st' = true) ∧
  (store_ok (references st) → JSMap.has key (references st) = true →
     references st' = references st ∧
     JSMap.get key (references st') = JSMap.get key (references st) ∧
     keyErrorMessage st' = MSG_KEY_TAKEN ∧ imageToSave st' = Some img ∧
     messages st' = messages st).
Proof.
  intros Himg st'. subst st'. unfold handleSaveKey. rewrite Himg. split.
  - intros Hkey Hfresh. rewrite (trim_key _ Hkey).
    rewrite (KEY_REGEX_test_nonempty _ Hkey), Hkey. simpl. rewrite Hfresh. simpl.
    rewrite stored_eta, JSMapFacts.get_set_eq, JSMapFacts.set_fresh by done. done.
  - intros Hok Hhas. pose proof (store_ok_has _ _ Hok Hhas) as Hkey.
    rewrite (trim_key _ Hkey).
    rewrite (KEY_REGEX_test_nonempty _ Hkey), Hkey. simpl. rewrite Hhas. simpl.
    done.
Qed.

Lemma handleSaveKey_save_get_witness :
  let img := {| StoredImage.data := lit "data:image/png;base64,WA==";
                StoredImage.mimeType := lit "image/png" |} in
  let old := {| StoredImage.data := lit "data:image/png;base64,T0xE";
                StoredImage.mimeType := lit "image/png" |} in
  let st := {| references := [(lit "cat", old)]; imageToSave := Some img;
               saveModalSource := Some generated; keyErrorMessage := lit "";
               saveKeyModalHidden := false; messages := [] |} in
  JSMap.get (lit "my_dog") (references (handleSaveKey (lit "my_dog") st)) = Some img ∧
  references (handleSaveKey (lit "cat") st) = references st.
Proof.
  intros img old st. split.
  - apply (handleSaveKey_save_get st img (lit "my_dog")); reflexivity.
  - apply (handleSaveKey_save_get st img (lit "cat")); [reflexivity| |reflexivity].
    split; simpl.
    + apply NoDup_singleton.
    + by repeat constructor.
Defined.

Lemma handleRename_success references oldKey value img :
  JSMap.get oldKey references = Some img →
  KEY_REGEX_test (trim value) = true → JSMap.has (trim value) references = false →
  handleRename oldKey value references
  = Some {| rn_references := JSMap.delete oldKey references ++ [(trim value, img)];
            rn_value := value; rn_invalid := false |}.
Proof.
  intros Hold Hkey Hfresh. unfold handleRename.
  assert (trim value ≠ oldKey) as Hne.
  { intros Heq. rewrite Heq in Hfresh. apply JSMapFacts.has_false_get in Hfresh. congruence. }
  rewrite decide_False by done. rewrite Hkey, Hfresh, Hold. simpl.
  rewrite JSMapFacts.set_fresh; [done|].
  by rewrite JSMapFacts.has_delete_ne.
Qed.

(** C4. Renaming the entry of [oldKey]: to a key that is not valid or is
    already in the store, the store stays exactly as it was; to a valid
    free key, the image is found under the new key, the old key is gone, and
    no other key is affected. *)
Theorem handleRename_atomic (references : References) (oldKey value : jsstring)
    (img : StoredImage.t) :
  JSMap.get oldKey references = Some img →
  let newKey := trim value in
  (KEY_REGEX_test newKey = false ∨ JSMap.has newKey references = true →
     ∃ out, handleRename oldKey value references = Some out ∧
            rn_references out = references) ∧
  (KEY_REGEX_test newKey = true → JSMap.has newKey references = false →
     ∃ out, handleRename oldKey value references = Some out ∧
            JSMap.get newKey (rn_references out) = Some img ∧
            JSMap.get oldKey (rn_references out) = None ∧
            ∀ k, k ≠ oldKey → k ≠ newKey →
                 JSMap.get k (rn_references out) = JSMap.get k references).
Proof.
  intros Hold newKey. subst newKey. split.
  - intros Hbad. unfold handleRename. case_decide as Heq; [by eauto|].
    rewrite (bool_decide_eq_false_2 _ Heq), andb_true_r.
    destruct Hbad as [-> | ->]; simpl; [by eauto|].
    rewrite orb_true_r. by eauto.
  - intros Hkey Hfresh. rewrite (handleRename_success _ _ _ img) by done.
    eexists. split; [done|]. simpl.
    assert (trim value ≠ oldKey) as Hne.
    { intros Heq. rewrite Heq in Hfresh. apply JSMapFacts.has_false_get in Hfresh.
      congruence. }
    rewrite !JSMapFacts.get_app_fresh, !JSMapFacts.get_delete_eq.
    rewrite JSMapFacts.get_delete_ne by done.
    apply JSMapFacts.has_false_get in Hfresh. rewrite Hfresh.
    rewrite decide_True by done. rewrite decide_False by done.
    split; [done|]. split; [done|]. intros k Hk1 Hk2.
    rewrite JSMapFacts.get_app_fresh, JSMapFacts.get_delete_ne by done.
    rewrite decide_False by done. by destruct (JSMap.get k references).
Qed.

Lemma handleRename_atomic_witness :
  let a := {| StoredImage.data := lit "data:image/png;base64,QQ==";
              StoredImage.mimeType := lit "image/png" |} in
  let c := {| StoredImage.data := lit "data:image/png;base64,Qw==";
              StoredImage.mimeType := lit "image/png" |} in
  let references := [(lit "A", a); (lit "C", c)] in
  (∃ out, handleRename (lit "A") (lit "C") references = Some out ∧
          rn_references out = references) ∧
  (∃ out, handleRename (lit "A") (lit "B") references = Some out ∧
          JSMap.get (lit "B") (rn_references out) = Some a ∧
          JSMap.get (lit "A") (rn_references out) = None ∧
          ∀ k, k ≠ lit "A" → k ≠ lit "B" →
               JSMap.get k (rn_references out) = JSMap.get k references).
Proof.
  intros a c references. split.
  - apply (handleRename_atomic references (lit "A") (lit "C") a); [reflexivity|].
    right. reflexivity.
  - apply (handleRename_atomic references (lit "A") (lit "B") a); reflexivity.
Defined.

(** C10. Amended: after a successful rename the entry is the last of
    the store's enumeration, under its new key and with its image; the
    other entries are the old ones, in their old order. That is the order
    of the rows of the references dialog and of the items of the picker,
    whatever the filter. *)
Theorem handleRename_moves_last (references : References) (oldKey value : jsstring)
    (img : StoredImage.t) :
  JSMap.get oldKey references = Some img →
  KEY_REGEX_test (trim value) = true → JSMap.has (trim value) references = false →
  ∃ out, handleRename oldKey value references = Some out ∧
         rn_references out
         = filter (λ kv, kv.1 ≠ oldKey) references ++ [(trim value, img)] ∧
         last (rn_references out) = Some (trim value, img) ∧
         (∀ rows0,
            RefDialog.rows
              (RefDialog.populateReferencesModal
                 {| RefDialog.references := rn_references out;
                    RefDialog.rows := rows0 |})
            = (filter (λ kv, kv.1 ≠ oldKey) references).*1 ++ [trim value]) ∧
         (∀ toLowerCase filter_,
            populateReferencePicker toLowerCase filter_ (rn_references out)
            = populateReferencePicker toLowerCase filter_
                (filter (λ kv, kv.1 ≠ oldKey) references)
              ++ (if includes (toLowerCase filter_) (toLowerCase (trim value))
                  then [trim value] else [])).
Proof.
  intros Hold Hkey Hfresh. rewrite (handleRename_success _ _ _ img) by done.
  eexists. split; [done|]. cbn [rn_references]. split; [done|].
  split; [by rewrite last_snoc|]. split.
  - intros rows0. cbn. by rewrite fmap_app.
  - intros toLowerCase filter_. unfold populateReferencePicker.
    rewrite fmap_app, filter_app. f_equal. cbn [fmap list_fmap fst].
    rewrite filter_cons, filter_nil.
    by destruct (includes (toLowerCase filter_) (toLowerCase (trim value))).
Qed.

Lemma handleRename_moves_last_witness :
  let a := {| StoredImage.data := lit "data:image/png;base64,QQ==";
              StoredImage.mimeType := lit "image/png" |} in
  let c := {| StoredImage.data := lit "data:image/png;base64,Qw==";
              StoredImage.mimeType := lit "image/png" |} in
  let references := [(lit "A", a); (lit "C", c)] in
  ∃ out, handleRename (lit "A") (lit " B ") references = Some out ∧
         rn_references out
         = filter (λ kv, kv.1 ≠ lit "A") references ++ [(trim (lit " B "), a)] ∧
         last (rn_references out) = Some (trim (lit " B "), a) ∧
         RefDialog.rows
           (RefDialog.populateReferencesModal
              {| RefDialog.references := rn_references out; RefDialog.rows := [] |})
         = (filter (λ kv, kv.1 ≠ lit "A") references).*1 ++ [trim (lit " B ")].
Proof.
  intros a c references.
  destruct (handleRename_moves_last references (lit "A") (lit " B ") a)
    as (out & Hout & Hrefs & Hlast & Hrows & _); [reflexivity..|].
  exists out. split; [exact Hout|]. split; [exact Hrefs|].
  split; [exact Hlast|exact (Hrows [])].
Defined.

(** The order of the reference parts of a request is not the order of
    the store: after [x] is renamed to [z] the store lists [y] before [z],
    and the prompt [@z @y] sends the image of [z] before the image of
    [y]. *)
Lemma handleRename_emission_counterexample :
  let x := {| StoredImage.data := lit "data:image/png;base64,WA==";
              StoredImage.mimeType := lit "image/png" |} in
  let y := {| StoredImage.data := lit "data:image/png;base64,WQ==";
              StoredImage.mimeType := lit "image/png" |} in
  ∃ out, handleRename (lit "x") (lit "z") [(lit "x", x); (lit "y", y)] = Some out ∧
    (rn_references out).*1 = [lit "y"; lit "z"] ∧
    buildApiParts (rn_references out) (lit "@z @y") None
      (referencedKeys (parsePromptForReferences (rn_references out) (lit "@z @y")))
    = Some [TextPart (lit "@z @y");
            InlineDataPart (Some (lit "WA==")) (lit "image/png");
            InlineDataPart (Some (lit "WQ==")) (lit "image/png")].
Proof.
  intros x y. eexists. split; [reflexivity|]. split; vm_compute; reflexivity.
Qed.

Example handleRename_order :
  rn_references <$>
    handleRename (lit "A") (lit "B")
      [(lit "A", {| StoredImage.data := lit "a"; StoredImage.mimeType := lit "m" |});
       (lit "C", {| StoredImage.data := lit "c"; StoredImage.mimeType := lit "m" |})]
  = Some [(lit "C", {| StoredImage.data := lit "c"; StoredImage.mimeType := lit "m" |});
          (lit "B", {| StoredImage.data := lit "a"; StoredImage.mimeType := lit "m" |})].
Proof. vm_compute. reflexivity. Qed.

(** ** The mask editor *)

Section editor_facts.
Context `{canvas2d : Canvas2D}.

Lemma writeMaskPixel_length b i m : length (writeMaskPixel b i m) = length m.
Proof. unfold writeMaskPixel. destruct b; by rewrite !length_insert. Qed.

Lemma pixel_write_same b j m :
  4 * j + 3 < length m →
  pixel (writeMaskPixel b (4 * j) m) j = if b then WHITE else BLACK.
Proof.
  intros Hlen. unfold pixel, writeMaskPixel, WHITE, BLACK.
  destruct b;
    repeat first [ rewrite list_lookup_insert_eq by (rewrite ?length_insert; lia)
                 | rewrite list_lookup_insert_ne by lia ];
    reflexivity.
Qed.

Lemma pixel_write_other b j p m :
  p ≠ j → pixel (writeMaskPixel b (4 * j) m) p = pixel m p.
Proof.
  intros Hne. unfold pixel, writeMaskPixel.
  destruct b; repeat (rewrite list_lookup_insert_ne by lia); reflexivity.
Qed.

Lemma hasChanged_pixel o c p :
  hasChanged o c (4 * p) = false ↔ pixel o p = pixel c p.
Proof.
  unfold hasChanged, differs, pixel.
  rewrite !orb_false_iff, !bool_decide_eq_false. split.
  - intros [[[H0 H1] H2] H3]. apply dec_stable in H0, H1, H2, H3. congruence.
  - intros [= H0 H1 H2 H3]. repeat split; intros Hn; by apply Hn.
Qed.

(** The loop from byte [4 * j] on: the pixels from [j] on are decided, the
    earlier ones are left as they are. *)
Lemma maskLoop_spec o c m i n j :
  length o = 4 * n → length m = 4 * n → i = 4 * j →
  length (maskLoop o c m i) = 4 * n ∧
  ∀ p, p < n →
    pixel (maskLoop o c m i) p
    = if decide (j ≤ p) then (if hasChanged o c (4 * p) then WHITE else BLACK)
      else pixel m p.
Proof.
  revert n j. funelim (maskLoop o c m i); clear Heqcall; intros k j Ho Hm Hi.
  - subst i.
    destruct (H k (S j)) as [Hlen Hpix]; [done|by rewrite writeMaskPixel_length|lia|].
    split; [done|]. intros p Hp. rewrite (Hpix p Hp).
    destruct (decide (S j ≤ p)).
    + by rewrite decide_True by lia.
    + destruct (decide (p = j)) as [->|].
      * rewrite decide_True by lia. rewrite pixel_write_same by lia. done.
      * rewrite decide_False by lia. by rewrite pixel_write_other.
  - split; [done|]. intros p Hp. by rewrite decide_False by lia.
Qed.

(** The mask computed from a snapshot that has the size of the canvas. *)
Lemma maskImageData_spec (original current : ImageData.t) :
  length (ImageData.data original)
  = 4 * (ImageData.width current * ImageData.height current) →
  let mask := maskImageData original current in
  ImageData.width mask = ImageData.width current ∧
  ImageData.height mask = ImageData.height current ∧
  ImageData.wf mask ∧
  ∀ p, p < ImageData.width current * ImageData.height current →
    pixel (ImageData.data mask) p
    = if decide (pixel (ImageData.data original) p = pixel (ImageData.data current) p)
      then BLACK else WHITE.
Proof.
  intros Hlen mask. subst mask.
  unfold maskImageData, ImageData.wf, repaint, createImageData.
  cbn [ImageData.width ImageData.height ImageData.data].
  destruct (maskLoop_spec (ImageData.data original) (ImageData.data current)
              (replicate (4 * (ImageData.width current * ImageData.height current)) 0%Z)
              0 (ImageData.width current * ImageData.height current) 0)
    as [Hl Hpix]; [done|by rewrite length_replicate|lia|].
  repeat split; [done|]. intros p Hp. rewrite (Hpix p Hp).
  rewrite decide_True by lia.
  destruct (hasChanged _ _ _) eqn:E.
  - rewrite decide_False; [done|]. intros Heq%hasChanged_pixel. congruence.
  - rewrite decide_True; [done|]. by apply hasChanged_pixel.
Qed.

(** *** What the handlers keep *)

Lemma same_size_refl (a : ImageData.t) : ImageData.same_size a a.
Proof. by split. Qed.

Lemma same_size_sym (a b : ImageData.t) :
  ImageData.same_size a b → ImageData.same_size b a.
Proof. intros [? ?]. by split. Qed.

Lemma same_size_trans (a b c : ImageData.t) :
  ImageData.same_size a b → ImageData.same_size b c → ImageData.same_size a c.
Proof. intros [? ?] [? ?]. split; congruence. Qed.

Lemma repaint_same_size (img c : ImageData.t) :
  ImageData.same_size img c → repaint (ImageData.data img) c = img.
Proof. destruct img, c. intros [Hw Hh]. simpl in *. by subst. Qed.

(** Restoring a snapshot of the canvas's size gives the snapshot back. *)
Lemma putImageData_same_size img st :
  ImageData.same_size img (editorCanvas st) →
  putImageData img st = set_editorCanvas img st.
Proof.
  intros Hs. unfold putImageData. rewrite decide_True by done.
  by rewrite repaint_same_size.
Qed.

Lemma frame_refl st : frame st st.
Proof. repeat split. Qed.

Lemma frame_trans st1 st2 st3 : frame st1 st2 → frame st2 st3 → frame st1 st3.
Proof.
  intros (? & ? & ? & ? & ? & ?) (? & ? & ? & ? & ? & ?).
  repeat split; try congruence; by eapply same_size_trans.
Qed.

Lemma frame_set_ctx v st : frame st (set_ctx v st).
Proof. repeat split. Qed.

Lemma frame_repaint bytes st :
  length bytes = length (ImageData.data (editorCanvas st)) →
  frame st (set_editorCanvas (repaint bytes (editorCanvas st)) st).
Proof. intros Hl. repeat split. done. Qed.

Lemma putImageData_frame img st :
  ImageData.wf img → ImageData.wf (editorCanvas st) → frame st (putImageData img st).
Proof.
  intros Hi Hc. unfold putImageData. case_decide as Hs.
  - apply frame_repaint. destruct Hs as [Hw Hh].
    unfold ImageData.wf in *. by rewrite Hi, Hc, Hw, Hh.
  - apply frame_repaint, blit_length.
Qed.

Lemma drawShape_frame p1 p2 st : frame st (drawShape p1 p2 st).
Proof.
  unfold drawShape.
  set (st1 := set_ctx (setComposite source_over (ctx st)) st).
  assert (frame st st1) as H1 by apply frame_set_ctx.
  destruct (is_tool "rectangle" st1).
  { eapply frame_trans; [exact H1|]. apply frame_repaint, fillRect_length. }
  destruct (is_tool "circle" st1); [|done].
  eapply frame_trans; [exact H1|].
  eapply frame_trans; [apply frame_set_ctx|]. apply frame_repaint, fill_length.
Qed.

(** A drawing call during a stroke keeps the invariant. *)
Lemma editor_inv_drawing st st' :
  editor_inv st → frame (set_isDrawing true st) st' → editor_inv st'.
Proof.
  intros Hinv (_ & Hd & Hh & Hm & Hs & Hl) Hopen. simpl in *.
  rewrite Hm in Hopen. destruct (Hinv Hopen) as (Hne & Hall & Hwf & _).
  rewrite Hh. split; [done|]. split; [|split].
  - eapply Forall_impl; [exact Hall|]. intros s [? ?]. split; [done|].
    eapply same_size_trans; [done|]. by apply same_size_sym.
  - unfold ImageData.wf in *. destruct Hs as [-> ->]. by rewrite Hl.
  - by rewrite Hd.
Qed.

(** Taking a snapshot at the end of a stroke restores the invariant. *)
Lemma editor_inv_saveCanvasState st st' :
  editor_inv st → frame (set_isDrawing false st) st' →
  editor_inv (saveCanvasState st').
Proof.
  intros Hinv (_ & Hd & Hh & Hm & Hs & Hl) Hopen. simpl in *.
  rewrite Hm in Hopen. destruct (Hinv Hopen) as (Hne & Hall & Hwf & _).
  assert (ImageData.wf (editorCanvas st')) as Hwf'.
  { unfold ImageData.wf in *. destruct Hs as [-> ->]. by rewrite Hl. }
  unfold getImageData. rewrite Hh.
  split; [by destruct (canvasHistory st)|]. split; [|split; [done|]].
  - apply Forall_app. split.
    + eapply Forall_impl; [exact Hall|]. intros s [? ?]. split; [done|].
      eapply same_size_trans; [done|]. by apply same_size_sym.
    + repeat constructor. done.
  - intros _. by rewrite last_snoc.
Qed.

Lemma removelast_elem_of {A} (x : A) l : x ∈ removelast l → x ∈ l.
Proof.
  induction l as [|y l IH]; [done|]. simpl. destruct l as [|z l].
  - by intros ?%elem_of_nil.
  - intros [->|Hin]%elem_of_cons; [by left|]. right. by apply IH.
Qed.

Lemma removelast_cons_ne {A} (x : A) l : l ≠ [] → removelast (x :: l) = x :: removelast l.
Proof. by destruct l. Qed.

(** An undo that has something to discard drops the latest snapshot and
    shows the one before. *)
Lemma handleUndo_pop st :
  1 < length (canvasHistory st) →
  Forall (λ s, ImageData.same_size s (editorCanvas st)) (canvasHistory st) →
  ∃ snapshot, last (removelast (canvasHistory st)) = Some snapshot ∧
    handleUndo st
    = set_editorCanvas snapshot (set_canvasHistory (removelast (canvasHistory st)) st).
Proof.
  intros Hlen Hall. unfold handleUndo. rewrite decide_True by done. simpl.
  destruct (last (removelast (canvasHistory st))) as [snapshot|] eqn:E.
  - exists snapshot. split; [done|]. apply putImageData_same_size. simpl.
    rewrite Forall_forall in Hall.
    by apply Hall, removelast_elem_of, last_Some_elem_of.
  - apply last_None in E. destruct (canvasHistory st) as [|a [|b l]]; simpl in *;
      [lia|lia|done].
Qed.

Lemma handleUndo_noop st : length (canvasHistory st) ≤ 1 → handleUndo st = st.
Proof. intros Hlen. unfold handleUndo. by rewrite decide_False by lia. Qed.

Lemma handle_inv ev st : event_ok ev → editor_inv st → editor_inv (handle ev st).
Proof.
  intros Hok Hinv. destruct ev; simpl.
  - exact Hinv.
  - exact Hinv.
  - unfold openEditor. destruct (stagedImage st); [|done].
    intros _. simpl. repeat split; try done. repeat constructor; done.
  - by intros ?.
  - unfold saveMask. destruct (stagedImage st); [|done].
    destruct (canvasHistory st); [done|]. by intros ?.
  - destruct (decide (1 < length (canvasHistory st))) as [Hlen|Hlen];
      [|by rewrite handleUndo_noop by lia].
    intros Hopen.
    assert (editorModalHidden st = false) as Hopen'.
    { revert Hopen. unfold handleUndo. rewrite decide_True by done.
      destruct (last _); [unfold putImageData; case_decide|]; done. }
    destruct (Hinv Hopen') as (Hne & Hall & Hwf & _).
    destruct (handleUndo_pop st Hlen) as (snapshot & Hlast & ->).
    { eapply Forall_impl; [exact Hall|]. by intros s [_ ?]. }
    simpl. rewrite Forall_forall in Hall.
    destruct (Hall snapshot) as [Hs1 Hs2].
    { by apply removelast_elem_of, last_Some_elem_of. }
    split; [by intros E; rewrite E in Hlast|]. split; [|done].
    apply Forall_forall. intros s Hs%removelast_elem_of.
    destruct (Hall s Hs) as [? ?]. split; [done|].
    eapply same_size_trans; [done|]. by apply same_size_sym.
  - unfold startDraw.
    destruct (_ || _);
      [by eapply editor_inv_drawing; [exact Hinv|repeat split]|].
    destruct (_ || _); by eapply editor_inv_drawing; [exact Hinv|repeat split].
  - unfold draw. destruct (isDrawing st) eqn:Hd; simpl; [|done].
    set (st1 := set_ctx _ st).
    assert (frame (set_isDrawing true st) st1) as H1 by (repeat split; done).
    destruct (is_tool "brush" st1).
    { eapply editor_inv_drawing; [exact Hinv|].
      repeat split; [done|]. apply stroke_length. }
    destruct (is_tool "eraser" st1).
    { eapply editor_inv_drawing; [exact Hinv|].
      repeat split; [done|]. apply stroke_length. }
    destruct (_ || _); [|by eapply editor_inv_drawing].
    destruct (last (canvasHistory st)) as [snapshot|] eqn:E;
      [|by eapply editor_inv_drawing].
    intros Hopen.
    assert (editorModalHidden st = false) as Hopen'.
    { revert Hopen. unfold drawShape, putImageData.
      repeat (case_decide || destruct (is_tool _ _)); done. }
    destruct (Hinv Hopen') as (Hne & Hall & Hwf & _).
    rewrite Forall_forall in Hall.
    destruct (Hall snapshot) as [Hs1 Hs2]; [by apply last_Some_elem_of|].
    revert Hopen. eapply editor_inv_drawing; [exact Hinv|].
    eapply frame_trans; [exact H1|].
    eapply frame_trans; [by apply putImageData_frame|apply drawShape_frame].
  - unfold stopDraw. destruct (isDrawing st) eqn:Hd; simpl; [|done].
    set (st1 := set_isDrawing false st).
    destruct (_ || _);
      [|by eapply editor_inv_saveCanvasState; [exact Hinv|apply frame_refl]].
    destruct (last (canvasHistory st)) as [snapshot|] eqn:E.
    + intros Hopen.
      assert (editorModalHidden st = false) as Hopen'.
      { revert Hopen. unfold saveCanvasState, drawShape, putImageData.
        repeat (case_decide || destruct (is_tool _ _)); done. }
      destruct (Hinv Hopen') as (Hne & Hall & Hwf & _).
      rewrite Forall_forall in Hall.
      destruct (Hall snapshot) as [Hs1 Hs2]; [by apply last_Some_elem_of|].
      revert Hopen. eapply editor_inv_saveCanvasState; [exact Hinv|].
      eapply frame_trans; [by apply putImageData_frame|apply drawShape_frame].
    + intros Hopen. destruct (Hinv Hopen) as (Hne & _).
      by apply last_None in E.
  - unfold stopDraw. destruct (isDrawing st) eqn:Hd; simpl; [|done].
    set (st1 := set_isDrawing false st).
    destruct (_ || _);
      [|by eapply editor_inv_saveCanvasState; [exact Hinv|apply frame_refl]].
    destruct (last (canvasHistory st)) as [snapshot|] eqn:E.
    + intros Hopen.
      assert (editorModalHidden st = false) as Hopen'.
      { revert Hopen. unfold saveCanvasState, drawShape, putImageData.
        repeat (case_decide || destruct (is_tool _ _)); done. }
      destruct (Hinv Hopen') as (Hne & Hall & Hwf & _).
      rewrite Forall_forall in Hall.
      destruct (Hall snapshot) as [Hs1 Hs2]; [by apply last_Some_elem_of|].
      revert Hopen. eapply editor_inv_saveCanvasState; [exact Hinv|].
      eapply frame_trans; [by apply putImageData_frame|apply drawShape_frame].
    + intros Hopen. destruct (Hinv Hopen) as (Hne & _).
      by apply last_None in E.
  - destruct (truthy tool); exact Hinv.
  - exact Hinv.
Qed.

Lemma reachable_inv canvas0 st : reachable canvas0 st → editor_inv st.
Proof.
  induction 1 as [|st ev _ IH Hok]; [by intros ?|]. by apply handle_inv.
Qed.

Lemma reachable_run canvas0 events :
  Forall event_ok events → reachable canvas0 (run canvas0 events).
Proof.
  unfold run. induction events as [|ev events IH] using rev_ind; intros Hok.
  - constructor.
  - apply Forall_app in Hok as [Hok Hev]. rewrite foldl_snoc.
    apply reachable_step; [by apply IH|]. by inversion Hev.
Qed.

Lemma take_pred_removelast {A} (l : list A) m :
  0 < m → m ≤ length l → removelast (take m l) = take (m - 1) l.
Proof.
  intros Hm Hl. destruct m as [|m]; [lia|].
  replace (S m - 1) with m by lia. apply removelast_firstn. lia.
Qed.

(** [n] undos in a row. *)
Lemma handleUndo_iter st pristine later :
  canvasHistory st = pristine :: later →
  Forall (λ s, ImageData.same_size s (editorCanvas st)) (canvasHistory st) →
  ∀ n, canvasHistory (Nat.iter n handleUndo st)
       = pristine :: take (length later - n) later ∧
       Forall (λ s, ImageData.same_size s (editorCanvas (Nat.iter n handleUndo st)))
         (canvasHistory (Nat.iter n handleUndo st)) ∧
       (later = [] → Nat.iter n handleUndo st = st) ∧
       (0 < n → later ≠ [] →
        last (canvasHistory (Nat.iter n handleUndo st))
        = Some (editorCanvas (Nat.iter n handleUndo st))).
Proof.
  intros Hh Hall n. induction n as [|n (IHh & IHall & IHnil & IHlast)].
  - simpl. rewrite Nat.sub_0_r, firstn_all. repeat split; try done. lia.
  - rewrite !Nat.iter_succ. set (stn := Nat.iter n handleUndo st) in *.
    destruct (decide (length later - n = 0)) as [Hz|Hz].
    + rewrite handleUndo_noop by (rewrite IHh, Hz; simpl; lia).
      replace (length later - S n) with 0 by lia. rewrite Hz in IHh.
      repeat split; try done. intros _ Hne. apply IHlast; [|done].
      destruct later; [done|]. simpl in Hz. lia.
    + assert (length (take (length later - n) later) = length later - n) as Hlt
        by (rewrite length_take; lia).
      destruct (handleUndo_pop stn) as (snapshot & Hlast & Heq);
        [rewrite IHh; simpl; lia|done|].
      assert (ImageData.same_size snapshot (editorCanvas stn)) as Hsnap.
      { rewrite Forall_forall in IHall.
        by apply IHall, removelast_elem_of, last_Some_elem_of. }
      rewrite Heq. simpl. split; [|split; [|split]].
      * rewrite IHh, removelast_cons_ne
          by (intros E; rewrite E in Hlt; simpl in Hlt; lia).
        rewrite take_pred_removelast by lia. do 2 f_equal. lia.
      * rewrite Forall_forall in IHall |- *. intros s Hs%removelast_elem_of.
        eapply same_size_trans; [by apply IHall|by apply same_size_sym].
      * intros ->. simpl in Hz. lia.
      * done.
Qed.

(** C6. Amended: while the editor is open its history holds snapshot 0.
    Undoing any number of times keeps snapshot 0 first and discards later
    snapshots one by one; with only snapshot 0 left an undo changes
    nothing. Once only snapshot 0 is left the canvas shows it, provided a
    later snapshot was undone or no stroke is in progress; an undo during
    the first stroke leaves the stroke on the canvas. When no stroke is in
    progress the canvas shows the latest snapshot. Right after opening,
    the history is snapshot 0 alone, the canvas shows it, and undos change
    nothing. *)
Theorem handleUndo_keeps_pristine canvas0 st :
  reachable canvas0 st →
  (editorModalHidden st = false →
   ∃ pristine later, canvasHistory st = pristine :: later ∧
     (isDrawing st = false → last (canvasHistory st) = Some (editorCanvas st)) ∧
     (∀ n, canvasHistory (Nat.iter n handleUndo st)
           = pristine :: take (length later - n) later ∧
           (later = [] → Nat.iter n handleUndo st = st) ∧
           (length later ≤ n →
            canvasHistory (Nat.iter n handleUndo st) = [pristine] ∧
            (later ≠ [] ∨ isDrawing st = false →
             editorCanvas (Nat.iter n handleUndo st) = pristine)))) ∧
  (∀ loaded n, stagedImage st ≠ None →
     editorModalHidden (openEditor loaded st) = false ∧
     canvasHistory (openEditor loaded st) = [loaded] ∧
     editorCanvas (openEditor loaded st) = loaded ∧
     Nat.iter n handleUndo (openEditor loaded st) = openEditor loaded st).
Proof.
  intros Hreach. split.
  - intros Hopen.
    destruct (reachable_inv _ _ Hreach Hopen) as (Hne & Hall & Hwf & Hlast).
    destruct (canvasHistory st) as [|pristine later] eqn:Hh; [done|].
    exists pristine, later. split; [done|]. split; [done|].
    intros n.
    destruct (handleUndo_iter st pristine later Hh) with (n := n)
      as (Hn & _ & Hnil & Hl).
    { rewrite Hh. eapply Forall_impl; [exact Hall|]. by intros s [_ ?]. }
    split; [done|]. split; [done|]. intros Hlen.
    replace (length later - n) with 0 in Hn by lia. simpl in Hn.
    split; [done|]. intros Hguard.
    assert (later ≠ [] ∨ editorCanvas st = pristine) as [Hlater|Hc].
    { destruct Hguard as [?|Hidle]; [by left|].
      destruct later as [|s later]; [right|by left].
      specialize (Hlast Hidle). by injection Hlast as <-. }
    + assert (0 < n) as Hpos by (destruct later; [done|simpl in Hlen; lia]).
      specialize (Hl Hpos Hlater). rewrite Hn in Hl. simpl in Hl. congruence.
    + destruct later as [|s later].
      * by rewrite Hnil.
      * assert (0 < n) as Hpos by (simpl in Hlen; lia).
        specialize (Hl Hpos). rewrite Hn in Hl. simpl in Hl.
        assert (Some pristine = Some (editorCanvas (Nat.iter n handleUndo st)))
          as [= <-] by (by apply Hl).
        done.
  - intros loaded n Hst. unfold openEditor.
    destruct (stagedImage st); [|done]. simpl. repeat split.
    induction n as [|n IH]; [done|]. rewrite Nat.iter_succ, IH.
    by apply handleUndo_noop.
Qed.

(** C2. Saving the mask while the editor is open with an image staged:
    the mask has the size of the canvas and four bytes per pixel; a pixel is
    opaque white when its four bytes in snapshot 0 and in the canvas are not
    all equal and opaque black otherwise, so a canvas equal to snapshot 0
    gives an all-black mask; the encoded mask is stored with the staged
    image and the editor closes. *)
Theorem saveMask_binary_mask canvas0 st staged :
  reachable canvas0 st → editorModalHidden st = false →
  stagedImage st = Some staged →
  ∃ pristine later, canvasHistory st = pristine :: later ∧
    let mask := maskImageData pristine (editorCanvas st) in
    let pixels := ImageData.width (editorCanvas st) * ImageData.height (editorCanvas st) in
    ImageData.width mask = ImageData.width (editorCanvas st) ∧
    ImageData.height mask = ImageData.height (editorCanvas st) ∧
    ImageData.wf mask ∧
    (∀ p, p < pixels →
       pixel (ImageData.data mask) p
       = if decide (pixel (ImageData.data pristine) p
                    = pixel (ImageData.data (editorCanvas st)) p)
         then BLACK else WHITE) ∧
    (ImageData.data (editorCanvas st) = ImageData.data pristine →
     ∀ p, p < pixels → pixel (ImageData.data mask) p = BLACK) ∧
    stagedImage (saveMask st)
    = Some {| StagedImage.data := StagedImage.data staged;
              StagedImage.mimeType := StagedImage.mimeType staged;
              StagedImage.maskData :=
                Some (toDataURL (StagedImage.mimeType staged) mask);
              StagedImage.maskPreviewData :=
                Some (toDataURL (StagedImage.mimeType staged) (editorCanvas st)) |} ∧
    editorModalHidden (saveMask st) = true.
Proof.
  intros Hreach Hopen Hst.
  destruct (reachable_inv _ _ Hreach Hopen) as (Hne & Hall & Hwf & _).
  destruct (canvasHistory st) as [|pristine later] eqn:Hh; [done|].
  exists pristine, later. split; [done|].
  apply Forall_cons in Hall as [[Hp [Hw Hhe]] _].
  destruct (maskImageData_spec pristine (editorCanvas st))
    as (Hmw & Hmh & Hmwf & Hpix).
  { unfold ImageData.wf in Hp. by rewrite Hp, Hw, Hhe. }
  cbn zeta. split; [done|]. split; [done|]. split; [done|]. split; [done|].
  split.
  - intros Heq p Hp'. rewrite (Hpix p Hp'). rewrite Heq. by rewrite decide_True.
  - unfold saveMask. rewrite Hst, Hh. done.
Qed.

End editor_facts.

Lemma one_stroke_ok : Forall event_ok one_stroke.
Proof. repeat constructor. Qed.

Lemma handleUndo_keeps_pristine_witness :
  let st := run blank_canvas one_stroke in
  ∃ pristine later, canvasHistory st = pristine :: later ∧
    (isDrawing st = false → last (canvasHistory st) = Some (editorCanvas st)) ∧
    (∀ n, canvasHistory (Nat.iter n handleUndo st)
          = pristine :: take (length later - n) later ∧
          (later = [] → Nat.iter n handleUndo st = st) ∧
          (length later ≤ n →
           canvasHistory (Nat.iter n handleUndo st) = [pristine] ∧
           (later ≠ [] ∨ isDrawing st = false →
            editorCanvas (Nat.iter n handleUndo st) = pristine))).
Proof.
  intros st.
  apply (proj1 (@handleUndo_keeps_pristine plainCanvas blank_canvas st
                  (reachable_run blank_canvas one_stroke one_stroke_ok))).
  reflexivity.
Defined.

(** During the first stroke the history is snapshot 0 alone, an undo
    changes nothing, and the canvas shows the stroke, not snapshot 0. *)
Lemma handleUndo_mid_stroke_counterexample :
  ¬ (∀ st : @Editor plainCanvas,
       reachable blank_canvas st → editorModalHidden st = false →
       ∀ pristine, canvasHistory st = [pristine] →
                   editorCanvas (handleUndo st) = pristine).
Proof.
  intros H.
  specialize (H (run blank_canvas (take 4 one_stroke))
                (reachable_run blank_canvas (take 4 one_stroke)
                   ltac:(repeat constructor))
                eq_refl _ eq_refl).
  by vm_compute in H.
Qed.

Lemma saveMask_binary_mask_witness :
  let st := run blank_canvas one_stroke in
  ∃ pristine later, canvasHistory st = pristine :: later ∧
    ImageData.wf (maskImageData pristine (editorCanvas st)) ∧
    ∀ p, p < ImageData.width (editorCanvas st) * ImageData.height (editorCanvas st) →
      pixel (ImageData.data (maskImageData pristine (editorCanvas st))) p
      = if decide (pixel (ImageData.data pristine) p
                   = pixel (ImageData.data (editorCanvas st)) p)
        then BLACK else WHITE.
Proof.
  intros st.
  destruct (@saveMask_binary_mask plainCanvas blank_canvas st
              {| StagedImage.data := lit "data:image/png;base64,SU1H";
                 StagedImage.mimeType := lit "image/png";
                 StagedImage.maskData := None;
                 StagedImage.maskPreviewData := None |})
    as (pristine & later & Hh & _ & _ & Hwf & Hpix & _).
  - apply reachable_run, one_stroke_ok.
  - reflexivity.
  - reflexivity.
  - exists pristine, later. split; [exact Hh|]. split; [exact Hwf|exact Hpix].
Defined.

(** One stroke, then save: the painted pixel is white in the mask. *)
Example saveMask_after_stroke :
  let st := run blank_canvas one_stroke in
  canvasHistory st
  = [ {| ImageData.width := 1; ImageData.height := 1;
         ImageData.data := [10; 20; 30; 255]%Z |};
      {| ImageData.width := 1; ImageData.height := 1;
         ImageData.data := [255; 255; 255; 255]%Z |} ] ∧
  StagedImage.maskData <$> stagedImage (saveMask st)
  = Some (Some (lit "data:image/png;base64,////")) ∧
  canvasHistory (saveMask st) = [].
Proof. vm_compute. repeat split; reflexivity. Qed.

(** Save without drawing: the mask is black, with opaque alpha. *)
Example saveMask_without_stroke :
  let st := run blank_canvas (take 2 one_stroke) in
  maskImageData
    {| ImageData.width := 1; ImageData.height := 1;
       ImageData.data := [10; 20; 30; 255]%Z |} (editorCanvas st)
  = {| ImageData.width := 1; ImageData.height := 1;
       ImageData.data := [0; 0; 0; 255]%Z |} ∧
  StagedImage.maskData <$> stagedImage (saveMask st)
  = Some (Some (lit "data:image/png;base64,AAA/")).
Proof. vm_compute. repeat split; reflexivity. Qed.

(** Undo after one stroke shows snapshot 0 again; more undos change
    nothing. *)
Example handleUndo_after_stroke :
  let st := run blank_canvas one_stroke in
  canvasHistory (handleUndo st) = take 1 (canvasHistory st) ∧
  ImageData.data (editorCanvas (handleUndo st)) = [10; 20; 30; 255]%Z ∧
  handleUndo (handleUndo st) = handleUndo st.
Proof. vm_compute. repeat split; reflexivity. Qed.

(** * Further properties *)

Local Arguments lit : simpl never.

(** ** Keys, references and requests *)

Lemma token_at_key s i k : token_at s i k → KEY_REGEX_test k = true.
Proof.
  intros (_ & _ & _ & _ & Hne & Hw & _). unfold KEY_REGEX_test.
  apply andb_true_iff. split; [by destruct k|]. by apply forallb_word.
Qed.

Lemma token_at_single k i k' :
  KEY_REGEX_test k = true → token_at (AT :: k) i k' → i = 0 ∧ k' = k.
Proof.
  intros [Hne Hk%forallb_word]%andb_true_iff Htok.
  assert (token_at (AT :: k) 0 k) as H0.
  { exists [], []. repeat split; [by rewrite app_nil_r| |done].
    by destruct k. }
  destruct i as [|i]; [split; [done|]; by eapply token_at_fun|].
  exfalso. pose proof (token_at_head _ _ _ Htok) as Hat. simpl in Hat.
  apply list_elem_of_lookup_2 in Hat. rewrite Forall_forall in Hk.
  by apply Hk, is_word_not_AT in Hat.
Qed.

Lemma referencedKeys_single (references : References) k :
  KEY_REGEX_test k = true →
  referencedKeys (parsePromptForReferences references (AT :: k)) = [k].
Proof.
  intros Hk.
  pose proof (JSSetFacts.NoDup_from
                ((λ m : nat * list N, m.2) <$> matchAll (AT :: k))) as Hnd.
  assert (∀ k', k' ∈ referencedKeys (parsePromptForReferences references (AT :: k))
                ↔ k' = k) as Hel.
  { intros k'. rewrite referencedKeys_token. split.
    - intros [i Hi]. by destruct (token_at_single _ _ _ Hk Hi).
    - intros ->. exists 0. exists [], []. rewrite app_nil_r.
      apply andb_true_iff in Hk as [Hne Hw%forallb_word].
      repeat split; [|done]. by destruct k. }
  change (JSSet.from ((λ m : nat * list N, m.2) <$> matchAll (AT :: k)))
    with (referencedKeys (parsePromptForReferences references (AT :: k))) in Hnd.
  destruct (referencedKeys _) as [|a [|b l]].
  - exfalso. by apply (elem_of_nil k), Hel.
  - f_equal. apply Hel. by left.
  - exfalso. apply NoDup_cons in Hnd as [Hnotin _]. apply Hnotin.
    assert (a = k) as -> by (apply Hel; by left).
    assert (b = k) as -> by (apply Hel; right; by left). by left.
Qed.

(** X1. The two patterns of the page agree: every key the resolver takes
    out of a prompt passes the key check of the store, and [@] followed by
    a key that passes the check resolves to exactly that key. *)
Theorem referencedKeys_are_keys (references : References) :
  (∀ s k, k ∈ referencedKeys (parsePromptForReferences references s) →
          KEY_REGEX_test k = true) ∧
  (∀ k, KEY_REGEX_test k = true →
        referencedKeys (parsePromptForReferences references (AT :: k)) = [k]).
Proof.
  split.
  - intros s k [i Hi]%referencedKeys_token. by eapply token_at_key.
  - apply referencedKeys_single.
Qed.

Lemma referencedKeys_are_keys_witness :
  KEY_REGEX_test (lit "cat_2") = true ∧
  referencedKeys (parsePromptForReferences [] (AT :: lit "cat_2")) = [lit "cat_2"].
Proof.
  split.
  - apply (proj1 (referencedKeys_are_keys []) (lit "a @cat_2.") (lit "cat_2")).
    vm_compute. by left.
  - apply (proj2 (referencedKeys_are_keys []) (lit "cat_2")). reflexivity.
Defined.

Lemma buildApiParts_None (references : References) (prompt : jsstring)
    (image : option StagedImage.t) (keys : list (list N)) :
  buildApiParts references prompt image keys = None
  ↔ ∃ k, k ∈ keys ∧ JSMap.has k references = false.
Proof.
  split.
  - intros Hnone.
    destruct (decide (Forall (λ k, JSMap.has k references = true) keys))
      as [Hall|Hex].
    + rewrite Forall_forall in Hall.
      destruct (resolved_keys_refs _ _ Hall) as [refs Hrefs].
      unfold buildApiParts in Hnone.
      by rewrite (pushReferenceParts_Some _ _ _ refs) in Hnone.
    + apply not_Forall_Exists in Hex; [|apply _].
      apply Exists_exists in Hex as (k & Hk & Hhas). exists k. split; [done|].
      simpl in Hhas. by destruct (JSMap.has k references).
  - intros (k & Hk & Hhas). apply JSMapFacts.has_false_get in Hhas.
    unfold buildApiParts. by eapply pushReferenceParts_None.
Qed.

(** X2. The assembler throws exactly when one of the keys it is given is
    not in the store; the prompt and the staged image play no part. *)
Theorem buildApiParts_throws_iff (references : References) (prompt : jsstring)
    (image : option StagedImage.t) (keys : list (list N)) :
  buildApiParts references prompt image keys = None
  ↔ ∃ k, k ∈ keys ∧ JSMap.has k references = false.
Proof. apply buildApiParts_None. Qed.

Lemma buildApiParts_throws_iff_witness :
  buildApiParts [] (lit "use @dog") None [lit "dog"] = None.
Proof.
  apply (buildApiParts_throws_iff [] (lit "use @dog") None [lit "dog"]).
  exists (lit "dog"). split; [by left|reflexivity].
Defined.

(** X3. The text of a request: the prompt when there is one, the fixed
    instruction to describe the image when only an image is staged, and no
    text part at all otherwise; a text part only ever comes first. With
    nothing given the request is empty. *)
Theorem buildApiParts_text (references : References) (prompt : jsstring)
    (image : option StagedImage.t) (keys : list (list N)) (parts : list Part) :
  buildApiParts references prompt image keys = Some parts →
  (prompt ≠ [] → head parts = Some (TextPart prompt)) ∧
  (prompt = [] → image ≠ None →
   head parts = Some (TextPart (lit "Describe this image."))) ∧
  (prompt = [] → image = None →
   length parts = length keys ∧ Forall (λ p, is_text p = false) parts) ∧
  Forall (λ p, is_text p = false) (tail parts) ∧
  (prompt = [] → image = None → keys = [] → parts = []).
Proof.
  intros Hparts.
  unfold buildApiParts in Hparts.
  destruct (pushReferenceParts_inv _ _ _ _ Hparts) as (refs & Hrefs & ->).
  clear Hparts.
  assert (Forall (λ p, is_text p = false)
            ((λ r, inlineData (StoredImage.data r) (StoredImage.mimeType r)) <$> refs))
    as Hrefparts.
  { apply Forall_fmap, Forall_forall. by intros r _. }
  pose proof (Forall2_length _ _ _ Hrefs) as Hlen.
  destruct prompt as [|c prompt]; destruct image as [img|];
    try (destruct (StagedImage.maskData img) as [m|]; [destruct (truthy m)|]);
    simpl; rewrite ?length_fmap; repeat split; try done;
    try (repeat (constructor; [done|]); exact Hrefparts).
  - destruct refs; [constructor|]. by apply Forall_cons in Hrefparts as [_ ?].
  - intros _ _ ->. by inversion Hrefs.
Qed.

Lemma buildApiParts_text_witness :
  head [TextPart (lit "Describe this image.");
        InlineDataPart (Some (lit "SU1H")) (lit "image/png")]
  = Some (TextPart (lit "Describe this image.")).
Proof.
  refine (proj1 (proj2 (buildApiParts_text [] (lit "")
            (Some {| StagedImage.data := lit "data:image/png;base64,SU1H";
                     StagedImage.mimeType := lit "image/png";
                     StagedImage.maskData := None;
                     StagedImage.maskPreviewData := None |}) [] _ _)) _ _).
  - reflexivity.
  - reflexivity.
  - discriminate.
Defined.

Lemma processPart_fold parts t0 i0 :
  foldl processPart (t0, i0) parts
  = (t0 ++ mjoin (textOf <$> parts), i0 ++ omap imageOf parts).
Proof.
  revert t0 i0. induction parts as [|p parts IH]; intros t0 i0; simpl.
  - by rewrite !app_nil_r.
  - unfold textOf, imageOf at 1. destruct (truthy_opt (rp_text p)); simpl.
    + rewrite IH. by rewrite <-app_assoc.
    + destruct (rp_inlineData p) as [[m d]|]; simpl; rewrite IH.
      * by rewrite <-app_assoc.
      * done.
Qed.

Lemma processApiResponse_cases (parts : list ResponsePart) (chat : list Message) :
  ∃ m, processApiResponse parts chat = chat ++ [m] ∧ sender m = ai ∧ text m ≠ [].
Proof.
  unfold processApiResponse. rewrite processPart_fold. simpl.
  eexists. split; [reflexivity|]. split; [done|]. simpl. unfold or_else.
  destruct (mjoin (textOf <$> parts)) as [|c body]; simpl; [|done].
  by destruct (omap imageOf parts).
Qed.

(** The message made of the parts of a response. *)
Lemma processApiResponse_parts (parts : list ResponsePart) (chat : list Message) :
  ∃ t, processApiResponse parts chat
       = chat ++ [{| sender := ai; text := t; images := omap imageOf parts |}] ∧
       t ≠ [] ∧
       (mjoin (textOf <$> parts) ≠ [] → t = mjoin (textOf <$> parts)) ∧
       (mjoin (textOf <$> parts) = [] →
        t = if decide (omap imageOf parts = [])
            then lit "I couldn't generate a response."
            else lit "Here is the generated image.").
Proof.
  unfold processApiResponse. rewrite processPart_fold. simpl.
  eexists. split; [reflexivity|]. unfold or_else.
  destruct (mjoin (textOf <$> parts)) as [|c body]; simpl.
  - destruct (omap imageOf parts) as [|u us]; simpl; by repeat split.
  - by repeat split.
Qed.

(** X4. [processApiResponse] either throws before it adds anything, or
    adds exactly one message of the assistant after the chat so far. It
    throws exactly when the response has no [candidates], or no first
    candidate, or that candidate has no [content], or the content no
    [parts]. Otherwise only the parts of the first candidate count: the
    text of the message is their texts put together, or a fixed phrase
    when there is none (one phrase with images, another without), so it is
    never empty; its images are the data URLs of the inline-data parts
    that carry no text, in response order. *)
Theorem processApiResponse_message (response : Response.t) (chat : list Message) :
  (Response.processApiResponse response chat = None ↔
   Response.candidates response = None ∨ Response.candidates response = Some [] ∨
   ∃ c cs, Response.candidates response = Some (c :: cs) ∧
     (Response.content c = None ∨
      ∃ ct, Response.content c = Some ct ∧ Response.parts ct = None)) ∧
  (∀ c cs ct parts,
     Response.candidates response = Some (c :: cs) →
     Response.content c = Some ct → Response.parts ct = Some parts →
     ∃ t, Response.processApiResponse response chat
          = Some (chat ++ [{| sender := ai; text := t;
                              images := omap imageOf parts |}]) ∧
          t ≠ [] ∧
          (mjoin (textOf <$> parts) ≠ [] → t = mjoin (textOf <$> parts)) ∧
          (mjoin (textOf <$> parts) = [] →
           t = if decide (omap imageOf parts = [])
               then lit "I couldn't generate a response."
               else lit "Here is the generated image.")).
Proof.
  unfold Response.processApiResponse, Response.firstParts.
  destruct response as [[[|[[[[parts|]]|]] cs]|]]; cbn.
  - split; [|by intros ? ? ? ? [=]]. split; [by eauto|done].
  - split.
    + split; [done|]. intros [?|[?|(c & cs' & [= <- <-] & [?|(ct & [= <-] & ?)])]];
        done.
    + intros c cs' ct parts' [= <- <-] [= <-] [= <-].
      destruct (processApiResponse_parts parts chat) as (t & -> & Ht).
      by exists t.
  - split; [|by intros ? ? ? ? [= <- <-] [= <-] [=]].
    split; [|done]. intros _. right. right. eexists _, _. split; [done|].
    right. by eexists.
  - split; [|by intros ? ? ? ? [= <- <-] [=]].
    split; [|done]. intros _. right. right. eexists _, _. split; [done|]. by left.
  - split; [|by intros ? ? ? ? [=]]. split; [by eauto|done].
Qed.

Lemma processApiResponse_message_witness :
  let parts :=
    [{| rp_text := Some (lit "Done. "); rp_inlineData := None |};
     {| rp_text := None;
        rp_inlineData := Some (Some (lit "image/png"), Some (lit "QUJD")) |}] in
  let response :=
    {| Response.candidates :=
         Some [{| Response.content := Some {| Response.parts := Some parts |} |}] |} in
  ∃ t, Response.processApiResponse response []
       = Some [{| sender := ai; text := t;
                  images := [lit "data:image/png;base64,QUJD"] |}] ∧ t = lit "Done. ".
Proof.
  intros parts response.
  destruct (proj2 (processApiResponse_message response [])
              {| Response.content := Some {| Response.parts := Some parts |} |} []
              {| Response.parts := Some parts |} parts eq_refl eq_refl eq_refl)
    as (t & Heq & _ & Ht & _).
  exists t. split; [exact Heq|]. apply Ht. discriminate.
Defined.

(** A response without candidates: the read throws and the chat is not
    touched. *)
Example processApiResponse_throws :
  Response.processApiResponse {| Response.candidates := Some [] |} [] = None.
Proof. reflexivity. Qed.

Lemma buildApiParts_resolved (references : References) prompt image :
  missingKeys (parsePromptForReferences references prompt) = [] →
  ∃ parts,
    buildApiParts references prompt image
      (referencedKeys (parsePromptForReferences references prompt)) = Some parts.
Proof.
  intros Hmiss.
  destruct (buildApiParts references prompt image _) as [parts|] eqn:E; [by eauto|].
  apply buildApiParts_None in E as (k & Hk & Hhas).
  by rewrite (referencedKeys_resolved _ _ _ Hmiss Hk) in Hhas.
Qed.

Lemma buildApiParts_head_text (references : References) prompt image keys parts :
  prompt ≠ [] ∨ image ≠ None →
  buildApiParts references prompt image keys = Some parts →
  ∃ t rest, t ≠ [] ∧ parts = TextPart t :: rest.
Proof.
  intros Hsome Hparts. unfold buildApiParts in Hparts.
  destruct (pushReferenceParts_inv _ _ _ _ Hparts) as (refs & _ & ->).
  clear Hparts.
  assert (truthy (or_else prompt
            (match image with Some _ => lit "Describe this image." | None => lit "" end))
          = true) as Ht.
  { unfold or_else. destruct prompt; [|done]. simpl.
    destruct image; [done|]. by destruct Hsome. }
  rewrite Ht.
  destruct image as [img|];
    [destruct (StagedImage.maskData img) as [m|]; [destruct (truthy m)|]|];
    simpl; (eexists _, _; split; [|reflexivity]); intros E; by rewrite E in Ht.
Qed.

Lemma callGeminiApi_sends (generate : list Part → ApiOutcome)
    (references : References) (prompt : jsstring) (image : option StagedImage.t)
    (w : World) (parts : list Part) :
  prompt ≠ [] ∨ image ≠ None →
  missingKeys (parsePromptForReferences references prompt) = [] →
  buildApiParts references prompt image
    (referencedKeys (parsePromptForReferences references prompt)) = Some parts →
  parts ≠ [] →
  callGeminiApi generate references prompt image w
  = match generate parts with
    | Responded response =>
        Some {| chatHistory := processApiResponse response (chatHistory w);
                requests := requests w ++ [parts] |}
    | Failed error =>
        Some {| chatHistory :=
                  chatHistory w ++
                    [{| sender := ai;
                        text := lit "Sorry, an error occurred. "
                                ++ match error with
                                   | Some e => e
                                   | None => lit "Please try again."
                                   end;
                        images := [] |}];
                requests := requests w ++ [parts] |}
    end.
Proof.
  intros Hor Hmiss Hparts Hne. unfold callGeminiApi.
  assert (negb (truthy prompt) && negb (bool_decide (is_Some image)) = false) as ->.
  { destruct prompt; [|done]. simpl. destruct image; [done|]. by destruct Hor. }
  rewrite Hmiss, Hparts. rewrite decide_False by (simpl; lia).
  cbn [mbind option_bind]. rewrite decide_False by (by destruct parts).
  by destruct (generate parts).
Qed.

(** Every way [callGeminiApi] can go. *)
Lemma callGeminiApi_cases (generate : list Part → ApiOutcome)
    (references : References) (prompt : jsstring) (image : option StagedImage.t)
    (w : World) :
  (prompt = [] ∧ image = None ∧
   callGeminiApi generate references prompt image w
   = Some {| chatHistory :=
               chatHistory w ++
                 [{| sender := ai; text := lit "Please provide a prompt or an image.";
                     images := [] |}];
             requests := requests w |}) ∨
  (missingKeys (parsePromptForReferences references prompt) ≠ [] ∧
   ∃ m, sender m = ai ∧ text m ≠ [] ∧
     callGeminiApi generate references prompt image w
     = Some {| chatHistory := chatHistory w ++ [m]; requests := requests w |}) ∨
  ((prompt ≠ [] ∨ image ≠ None) ∧
   missingKeys (parsePromptForReferences references prompt) = [] ∧
   ∃ parts m,
     buildApiParts references prompt image
       (referencedKeys (parsePromptForReferences references prompt)) = Some parts ∧
     (∃ t rest, t ≠ [] ∧ parts = TextPart t :: rest) ∧
     sender m = ai ∧ text m ≠ [] ∧
     (∀ response, generate parts = Responded response →
                  chatHistory w ++ [m] = processApiResponse response (chatHistory w)) ∧
     (∀ error, generate parts = Failed error →
        text m = lit "Sorry, an error occurred. "
                 ++ match error with Some e => e | None => lit "Please try again." end) ∧
     callGeminiApi generate references prompt image w
     = Some {| chatHistory := chatHistory w ++ [m];
               requests := requests w ++ [parts] |}).
Proof.
  destruct (decide (prompt = [] ∧ image = None)) as [[-> ->]|Hsome].
  { left. by repeat split. }
  right.
  assert (prompt ≠ [] ∨ image ≠ None) as Hor.
  { destruct prompt; [|by left]. right. intros ->. by apply Hsome. }
  destruct (missingKeys (parsePromptForReferences references prompt))
    as [|k ks] eqn:Hmiss.
  - right. split; [done|]. split; [done|].
    destruct (buildApiParts_resolved references prompt image Hmiss) as [parts Hparts].
    destruct (buildApiParts_head_text _ _ _ _ _ Hor Hparts) as (t & rest & Ht & ->).
    rewrite (callGeminiApi_sends _ _ _ _ _ _ Hor Hmiss Hparts) by done.
    exists (TextPart t :: rest).
    destruct (generate (TextPart t :: rest)) as [response|error] eqn:Hgen.
    + destruct (processApiResponse_cases response (chatHistory w))
        as (m & Hm & Hs & Hne).
      exists m. rewrite Hm. split; [done|]. split; [by eauto|].
      split; [done|]. split; [done|]. split; [by intros ? [= <-]|]. by split.
    + eexists. split; [done|]. split; [by eauto|].
      split; [|split; [|split; [|split; [|reflexivity]]]].
      * done.
      * cbn [text]. intros E. apply (f_equal length) in E.
        by rewrite length_app in E.
      * done.
      * by intros ? [= <-].
  - left. split; [done|]. unfold callGeminiApi.
    assert (negb (truthy prompt) && negb (bool_decide (is_Some image)) = false) as ->.
    { destruct prompt; [|done]. simpl. destruct image; [done|]. by destruct Hor. }
    rewrite Hmiss. rewrite decide_True by (simpl; lia).
    eexists. split; [|split; [|reflexivity]]; [done|].
    cbn [text]. intros E. apply (f_equal length) in E.
    by rewrite length_app in E.
Qed.

(** X5. [callGeminiApi] never throws, whatever the prompt, the image, the
    store and the answer of the model: it always adds exactly one message
    of the assistant, with a text, after the chat so far, and sends at most
    one request. *)
Theorem callGeminiApi_one_message (generate : list Part → ApiOutcome)
    (references : References) (prompt : jsstring) (image : option StagedImage.t)
    (w : World) :
  ∃ m sent,
    callGeminiApi generate references prompt image w
    = Some {| chatHistory := chatHistory w ++ [m];
              requests := requests w ++ sent |} ∧
    sender m = ai ∧ text m ≠ [] ∧ length sent ≤ 1.
Proof.
  destruct (callGeminiApi_cases generate references prompt image w)
    as [(_ & _ & ->)|[(_ & m & Hs & Ht & ->)|(_ & _ & parts & m & _ & _ & Hs & Ht & _ & _ & ->)]].
  - eexists _, []. rewrite app_nil_r.
    repeat split; [|simpl; lia]. intros E. by vm_compute in E.
  - exists m, []. rewrite app_nil_r. repeat split; [done..|simpl; lia].
  - exists m, [parts]. repeat split; [done..|simpl; lia].
Qed.

(** X6. A request goes to the model exactly when there is a prompt or a
    staged image and no key of the prompt is missing. It is the output of
    the assembler for the keys of the prompt and starts with a text part.
    When the model call fails, the one message added is the apology with
    the failure's message. *)
Theorem callGeminiApi_request (generate : list Part → ApiOutcome)
    (references : References) (prompt : jsstring) (image : option StagedImage.t)
    (w w' : World) :
  callGeminiApi generate references prompt image w = Some w' →
  ((prompt ≠ [] ∨ image ≠ None) ∧
   missingKeys (parsePromptForReferences references prompt) = [] →
   ∃ t rest,
     buildApiParts references prompt image
       (referencedKeys (parsePromptForReferences references prompt))
     = Some (TextPart t :: rest) ∧
     t ≠ [] ∧ requests w' = requests w ++ [TextPart t :: rest] ∧
     ∀ error, generate (TextPart t :: rest) = Failed error →
       chatHistory w'
       = chatHistory w ++
           [{| sender := ai;
               text := lit "Sorry, an error occurred. "
                       ++ match error with
                          | Some e => e
                          | None => lit "Please try again."
                          end;
               images := [] |}]) ∧
  (¬ ((prompt ≠ [] ∨ image ≠ None) ∧
      missingKeys (parsePromptForReferences references prompt) = []) →
   requests w' = requests w).
Proof.
  intros Hrun.
  destruct (callGeminiApi_cases generate references prompt image w)
    as [(-> & -> & Heq)|[(Hmiss & m & _ & _ & Heq)|(Hor & Hmiss & parts & m & Hparts
          & (t & rest & Ht & ->) & _ & _ & _ & Hfail & Heq)]];
    rewrite Heq in Hrun; injection Hrun as <-; simpl.
  - split; [|done]. intros [[?|?] _]; done.
  - split; [|done]. by intros [_ ?].
  - split; [|intros Hn; by destruct Hn]. intros _. exists t, rest.
    split; [done|]. split; [done|]. split; [done|].
    intros error Herr.
    rewrite (callGeminiApi_sends _ _ _ _ _ _ Hor Hmiss Hparts) in Heq by done.
    rewrite Herr in Heq. by injection Heq as <-.
Qed.

Lemma callGeminiApi_request_witness :
  let references :=
    [(lit "cat", {| StoredImage.data := lit "data:image/png;base64,Q0FU";
                    StoredImage.mimeType := lit "image/png" |})] in
  let w := {| chatHistory := []; requests := [] |} in
  let w' :=
    {| chatHistory :=
         [{| sender := ai;
             text := lit "Sorry, an error occurred. " ++ lit "quota";
             images := [] |}];
       requests := [[TextPart (lit "draw @cat");
                     InlineDataPart (Some (lit "Q0FU")) (lit "image/png")]] |} in
  ∃ t rest,
    buildApiParts references (lit "draw @cat") None
      (referencedKeys (parsePromptForReferences references (lit "draw @cat")))
    = Some (TextPart t :: rest) ∧
    t ≠ [] ∧ requests w' = requests w ++ [TextPart t :: rest] ∧
    ∀ error, Failed (Some (lit "quota")) = Failed error →
      chatHistory w'
      = chatHistory w ++
          [{| sender := ai;
              text := lit "Sorry, an error occurred. "
                      ++ match error with
                         | Some e => e
                         | None => lit "Please try again."
                         end;
              images := [] |}].
Proof.
  intros references w w'.
  refine (proj1 (callGeminiApi_request (λ _, Failed (Some (lit "quota")))
                   references (lit "draw @cat") None w w' _) _).
  - vm_compute. reflexivity.
  - split; [by left|]. vm_compute. reflexivity.
Defined.

(** ** Data URLs of generated images *)

Lemma indexOf_from_first c pre rest i :
  c ∉ pre → indexOf_from c (pre ++ c :: rest) i = (i + Z.of_nat (length pre))%Z.
Proof.
  revert i. induction pre as [|d pre IH]; intros i Hc; simpl.
  - rewrite decide_True by done. lia.
  - apply not_elem_of_cons in Hc as [Hd Hc].
    rewrite decide_False by done. rewrite IH by done. lia.
Qed.

Lemma mimeTypeOf_url mime payload :
  SEMICOLON ∉ mime → mimeTypeOf (dataUrl mime payload) = mime.
Proof.
  intros Hsemi. unfold mimeTypeOf, indexOf, dataUrl.
  assert (indexOf_from COLON (lit "data:" ++ mime ++ lit ";base64," ++ payload) 0
          = 4%Z) as ->.
  { change (indexOf_from COLON
              (lit "data" ++ COLON :: (mime ++ lit ";base64," ++ payload)) 0 = 4%Z).
    rewrite indexOf_from_first; [done|].
    apply (proj1 (bool_decide_eq_false _)). reflexivity. }
  assert (indexOf_from SEMICOLON (lit "data:" ++ mime ++ lit ";base64," ++ payload) 0
          = Z.of_nat (5 + length mime)) as ->.
  { change (lit "data:" ++ mime ++ lit ";base64," ++ payload)
      with (lit "data:" ++ mime ++ SEMICOLON :: (lit "base64," ++ payload)).
    rewrite (app_assoc (lit "data:")).
    rewrite indexOf_from_first.
    - rewrite length_app. change (length (lit "data:")) with 5. lia.
    - rewrite not_elem_of_app. split; [|done].
      apply (proj1 (bool_decide_eq_false _)). reflexivity. }
  unfold substring, clamp. rewrite !length_app.
  change (length (lit "data:")) with 5.
  replace (Z.to_nat (4 + 1) `min` (5 + (length mime + (length (lit ";base64,") + length payload))))
    with 5 by lia.
  replace (Z.to_nat (Z.of_nat (5 + length mime))
             `min` (5 + (length mime + (length (lit ";base64,") + length payload))))
    with (5 + length mime) by lia.
  replace (5 `max` (5 + length mime) - 5 `min` (5 + length mime)) with (length mime) by lia.
  replace (5 `min` (5 + length mime)) with (length (lit "data:")) by (simpl; lia).
  rewrite drop_app_length. by rewrite take_app_length.
Qed.

(** X7. The mime type the save button reads back from the data URL of a
    generated image is the mime type of the response part the URL was made
    from, for every mime type without a semicolon. *)
Theorem mimeTypeOf_response (mime data : jsstring) :
  SEMICOLON ∉ mime →
  mimeTypeOf (responseImageUrl (Some mime, Some data)) = mime.
Proof. apply mimeTypeOf_url. Qed.

Lemma mimeTypeOf_response_witness :
  mimeTypeOf (responseImageUrl (Some (lit "image/webp"), Some (lit "QUJD")))
  = lit "image/webp".
Proof.
  apply (mimeTypeOf_response (lit "image/webp") (lit "QUJD")).
  apply (proj1 (bool_decide_eq_false _)). reflexivity.
Defined.

(** X8. From the model and back to it: an image the model returned, saved
    from its chat bubble under a new valid key and then referenced as
    [@key], is sent to the model with the very data and mime type of the
    response part. *)
Theorem generated_reference_round_trip (st : Store) (mime data key : jsstring) :
  SEMICOLON ∉ mime → COMMA ∉ mime → forallb is_base64 data = true →
  KEY_REGEX_test key = true → JSMap.has key (references st) = false →
  let url := responseImageUrl (Some mime, Some data) in
  let st' := handleSaveKey key (saveGeneratedImage url st) in
  JSMap.get key (references st')
  = Some {| StoredImage.data := url; StoredImage.mimeType := mime |} ∧
  saveKeyModalHidden st' = true ∧
  buildApiParts (references st') (AT :: key) None
    (referencedKeys (parsePromptForReferences (references st') (AT :: key)))
  = Some [TextPart (AT :: key); InlineDataPart (Some data) mime].
Proof.
  intros Hsemi Hcomma Hdata Hkey Hfresh url st'.
  assert (references st'
          = references st ++ [(key, {| StoredImage.data := url;
                                        StoredImage.mimeType := mime |})]) as Hrefs.
  { subst st'. unfold handleSaveKey, saveGeneratedImage, openSaveKeyModal.
    cbn [imageToSave]. rewrite (trim_key _ Hkey).
    rewrite (KEY_REGEX_test_nonempty _ Hkey), Hkey.
    cbn [negb references set_keyErrorMessage]. rewrite Hfresh.
    cbn [closeSaveKeyModal references StoredImage.data StoredImage.mimeType].
    rewrite JSMapFacts.set_fresh by done. subst url.
    change (responseImageUrl (Some mime, Some data)) with (dataUrl mime data).
    by rewrite mimeTypeOf_url. }
  assert (JSMap.get key (references st')
          = Some {| StoredImage.data := url; StoredImage.mimeType := mime |}) as Hget.
  { rewrite Hrefs, JSMapFacts.get_app_fresh.
    apply JSMapFacts.has_false_get in Hfresh. rewrite Hfresh.
    by rewrite decide_True. }
  split; [done|]. split.
  { subst st'. unfold handleSaveKey, saveGeneratedImage, openSaveKeyModal.
    cbn [imageToSave]. rewrite (trim_key _ Hkey).
    rewrite (KEY_REGEX_test_nonempty _ Hkey), Hkey.
    cbn [negb references set_keyErrorMessage]. by rewrite Hfresh. }
  rewrite referencedKeys_single by done. unfold buildApiParts.
  rewrite (pushReferenceParts_Some _ _ _
             [{| StoredImage.data := url; StoredImage.mimeType := mime |}])
    by (by repeat constructor).
  cbn [fmap list_fmap StoredImage.data StoredImage.mimeType or_else truthy app].
  unfold inlineData. subst url.
  rewrite (split_comma_1_data_url _ data); [done|].
  by apply dataUrl_is_data_url.
Qed.

Lemma generated_reference_round_trip_witness :
  let st := {| references := []; imageToSave := None; saveModalSource := None;
               keyErrorMessage := lit ""; saveKeyModalHidden := true;
               messages := [] |} in
  let url := responseImageUrl (Some (lit "image/png"), Some (lit "QUJD")) in
  let st' := handleSaveKey (lit "out1") (saveGeneratedImage url st) in
  JSMap.get (lit "out1") (references st')
  = Some {| StoredImage.data := url; StoredImage.mimeType := lit "image/png" |} ∧
  saveKeyModalHidden st' = true ∧
  buildApiParts (references st') (AT :: lit "out1") None
    (referencedKeys (parsePromptForReferences (references st') (AT :: lit "out1")))
  = Some [TextPart (AT :: lit "out1");
          InlineDataPart (Some (lit "QUJD")) (lit "image/png")].
Proof.
  intros st.
  apply (generated_reference_round_trip st (lit "image/png") (lit "QUJD") (lit "out1"));
    try reflexivity; apply (proj1 (bool_decide_eq_false _)); reflexivity.
Defined.

Lemma split_comma_header header payload :
  COMMA ∉ header → COMMA ∉ payload →
  split_comma (header ++ COMMA :: payload) = [header; payload].
Proof.
  intros Hh Hp. induction header as [|c header IH].
  - change (split_comma ([] ++ COMMA :: payload))
      with ([] :: split_comma payload). by rewrite split_comma_no_comma.
  - apply not_elem_of_cons in Hh as [Hc Hh]. cbn [app split_comma].
    destruct (decide (c = COMMA)); [done|]. by rewrite IH.
Qed.

Lemma base64_no_comma data : forallb is_base64 data = true → COMMA ∉ data.
Proof.
  intros Hp Hin. rewrite forallb_forall in Hp.
  apply list_elem_of_In, Hp in Hin. by vm_compute in Hin.
Qed.

Lemma lazy_until_semicolon_first mime rest :
  SEMICOLON ∉ mime → Forall (λ c, is_line_terminator c = false) mime →
  lazy_until_semicolon (mime ++ SEMICOLON :: rest) = Some mime.
Proof.
  induction mime as [|c mime IH]; intros Hs Hl; simpl.
  - done.
  - apply not_elem_of_cons in Hs as [Hc Hs]. apply Forall_cons in Hl as [Hlc Hl].
    rewrite decide_False by done. rewrite Hlc, IH by done. done.
Qed.

Lemma match_mime_header mime :
  SEMICOLON ∉ mime → Forall (λ c, is_line_terminator c = false) mime →
  match_mime (lit "data:" ++ mime ++ lit ";base64") = Some mime.
Proof.
  intros Hs Hl.
  change (lit "data:" ++ mime ++ lit ";base64")
    with (100%N :: 97%N :: 116%N :: 97%N :: COLON
            :: (mime ++ SEMICOLON :: lit "base64")).
  cbn [match_mime]. rewrite !decide_False by done. rewrite decide_True by done.
  by rewrite lazy_until_semicolon_first.
Qed.

(** On a base64 data URL the file is made exactly when [atob] accepts the
    data. *)
Lemma dataURLtoFile_dataUrl filename mime data :
  SEMICOLON ∉ mime → COMMA ∉ mime →
  Forall (λ c, is_line_terminator c = false) mime →
  forallb is_base64 data = true →
  dataURLtoFile (dataUrl mime data) filename
  = (λ bstr, {| File.bits := bstr; File.name := filename; File.type_ := mime |})
      <$> atob data.
Proof.
  intros Hsemi Hcomma Hline Hdata. unfold dataURLtoFile.
  assert (dataUrl mime data = (lit "data:" ++ mime ++ lit ";base64") ++ COMMA :: data)
    as -> by (unfold dataUrl; by rewrite <-!app_assoc).
  rewrite split_comma_header.
  - change (default [] ([lit "data:" ++ mime ++ lit ";base64"; data] !! 0))
      with (lit "data:" ++ mime ++ lit ";base64").
    change (interpolate ([lit "data:" ++ mime ++ lit ";base64"; data] !! 1))
      with data.
    rewrite match_mime_header by done. cbn [mbind option_bind].
    by destruct (atob data).
  - rewrite !not_elem_of_app. split; [|split; [done|]];
      apply (proj1 (bool_decide_eq_false _)); reflexivity.
  - by apply base64_no_comma.
Qed.

Lemma generatedEditFile_dataUrl now mime data :
  SEMICOLON ∉ mime → COMMA ∉ mime →
  Forall (λ c, is_line_terminator c = false) mime →
  forallb is_base64 data = true →
  (atob data = None → generatedEditFile now (dataUrl mime data) = None) ∧
  (is_Some (atob data) → is_Some (generatedEditFile now (dataUrl mime data))).
Proof.
  intros Hsemi Hcomma Hline Hdata. unfold generatedEditFile.
  rewrite dataURLtoFile_dataUrl by done.
  split; [by intros ->|]. intros [bstr ->]. by eauto.
Qed.

(** X9. Editing a generated image sends it back as it came, when its data
    decodes: staged with the edit button, an image of the model goes into
    the next request right after the text, with the data and the mime type
    of the response part it came from, and without a mask. When [atob]
    rejects the data, [dataURLtoFile] throws and nothing is staged. *)
Theorem stageGeneratedImageForEditing_round_trip (references : References)
    (prompt mime data now : jsstring) (a : App.t) :
  SEMICOLON ∉ mime → COMMA ∉ mime →
  Forall (λ c, is_line_terminator c = false) mime →
  forallb is_base64 data = true →
  let url := responseImageUrl (Some mime, Some data) in
  (atob data = None → App.stageGeneratedImageForEditing now url a = None) ∧
  (is_Some (atob data) →
   ∃ a', App.stageGeneratedImageForEditing now url a = Some a' ∧
     buildApiParts references prompt (App.stagedImage a') []
     = Some [TextPart (or_else prompt (lit "Describe this image."));
             InlineDataPart (Some data) mime] ∧
     App.imagePreviewHidden a' = false ∧ App.store a' = App.store a).
Proof.
  intros Hsemi Hcomma Hline Hdata url. subst url.
  change (responseImageUrl (Some mime, Some data)) with (dataUrl mime data).
  destruct (generatedEditFile_dataUrl now mime data Hsemi Hcomma Hline Hdata)
    as [Hnone Hsome].
  unfold App.stageGeneratedImageForEditing. split.
  - intros Hatob. by rewrite (Hnone Hatob).
  - intros Hatob. destruct (Hsome Hatob) as [file ->]. cbn [mbind option_bind].
    eexists. split; [reflexivity|]. split; [|done].
    unfold buildApiParts.
    cbn [App.stagedImage StagedImage.maskData StagedImage.data StagedImage.mimeType
         pushReferenceParts foldl].
    rewrite mimeTypeOf_url by done. unfold inlineData.
    rewrite (split_comma_1_data_url _ data) by (by apply dataUrl_is_data_url).
    assert (truthy (or_else prompt (lit "Describe this image.")) = true) as ->.
    { unfold or_else. by destruct prompt. }
    done.
Qed.

Lemma stageGeneratedImageForEditing_round_trip_witness :
  let a := {| App.store :=
                {| references := []; imageToSave := None; saveModalSource := None;
                   keyErrorMessage := lit ""; saveKeyModalHidden := true;
                   messages := [] |};
              App.stagedImage := None; App.promptInput := lit "";
              App.loading := false; App.sentRequests := [];
              App.imagePreviewHidden := true |} in
  let url := responseImageUrl (Some (lit "image/png"), Some (lit "QUJD")) in
  ∃ a', App.stageGeneratedImageForEditing (lit "17") url a = Some a' ∧
    buildApiParts [] (lit "") (App.stagedImage a') []
    = Some [TextPart (or_else (lit "") (lit "Describe this image."));
            InlineDataPart (Some (lit "QUJD")) (lit "image/png")] ∧
    App.imagePreviewHidden a' = false ∧ App.store a' = App.store a.
Proof.
  intros a.
  apply (stageGeneratedImageForEditing_round_trip [] (lit "") (lit "image/png")
           (lit "QUJD") (lit "17") a).
  - apply (proj1 (bool_decide_eq_false _)). reflexivity.
  - apply (proj1 (bool_decide_eq_false _)). reflexivity.
  - apply (bool_decide_unpack _). vm_compute. exact I.
  - reflexivity.
  - eexists. reflexivity.
Defined.

(** Data of one character is in the alphabet, yet [atob] rejects it:
    nothing is staged. *)
Example stageGeneratedImageForEditing_throws :
  ∀ a, App.stageGeneratedImageForEditing (lit "17")
         (responseImageUrl (Some (lit "image/png"), Some (lit "A"))) a = None.
Proof. intros a. reflexivity. Qed.

(** ** Inserting a reference from the picker *)

(** X10. Picking a key in the reference picker always gives a prompt that
    references it: wherever the cursor or the selection is and whatever
    surrounds it, the inserted [@key] followed by a space is a token of the
    new text, so the resolver lists the key and, when the key is in the
    store, does not report it missing; the cursor lands right after the
    inserted space. *)
Theorem insertReferenceAtCursor_resolves (references : References)
    (key text : jsstring) (start end_ : nat) :
  KEY_REGEX_test key = true →
  let newText := (insertReferenceAtCursor key start end_ text).1 in
  let cursor := (insertReferenceAtCursor key start end_ text).2 in
  token_at newText (start `min` length text) key ∧
  key ∈ referencedKeys (parsePromptForReferences references newText) ∧
  (JSMap.has key references = true →
   key ∉ missingKeys (parsePromptForReferences references newText)) ∧
  (start ≤ length text →
   take cursor newText = take start text ++ AT :: key ++ [SPACE]) ∧
  newText = take start text ++ AT :: key ++ SPACE :: drop end_ text.
Proof.
  intros Hkey newText cursor.
  assert (newText = take start text ++ AT :: key ++ SPACE :: drop end_ text) as Hnew.
  { subst newText. unfold insertReferenceAtCursor, substring, substring_from, clamp.
    cbn [fst]. rewrite !Nat2Z.id. change (Z.to_nat 0) with 0.
    rewrite Nat.min_0_l, Nat.max_0_l, Nat.sub_0_r, drop_0.
    cbn [app]. f_equal; [|do 3 f_equal].
    - destruct (decide (start ≤ length text)).
      + by rewrite Nat.min_l by lia.
      + rewrite Nat.min_r by lia. by rewrite !take_ge by lia.
    - destruct (decide (end_ ≤ length text)).
      + by rewrite Nat.min_l by lia.
      + rewrite Nat.min_r by lia. by rewrite !drop_ge by lia. }
  assert (token_at newText (start `min` length text) key) as Htok.
  { rewrite Hnew. exists (take start text), (SPACE :: drop end_ text).
    apply andb_true_iff in Hkey as [Hne Hw%forallb_word].
    repeat split; [by rewrite length_take|by destruct key|done..]. }
  assert (key ∈ referencedKeys (parsePromptForReferences references newText)) as Hin.
  { apply referencedKeys_token. by eauto. }
  split; [done|]. split; [done|]. split; [|split; [|done]].
  - intros Hhas [_ Hget]%missingKeys_referenced.
    apply JSMapFacts.has_false_get in Hget. congruence.
  - intros Hle. rewrite Hnew. subst cursor. cbn [snd insertReferenceAtCursor].
    replace (take start text ++ AT :: key ++ SPACE :: drop end_ text)
      with ((take start text ++ AT :: key ++ [SPACE]) ++ drop end_ text)
      by (rewrite <-!app_assoc; simpl; by rewrite <-app_assoc).
    rewrite take_app_length'; [done|].
    rewrite length_app, length_take. simpl. rewrite length_app. simpl. lia.
Qed.

Lemma insertReferenceAtCursor_resolves_witness :
  token_at (insertReferenceAtCursor (lit "cat") 4 9 (lit "put here now")).1
    (4 `min` length (lit "put here now")) (lit "cat").
Proof.
  apply (insertReferenceAtCursor_resolves [] (lit "cat") (lit "put here now") 4 9).
  reflexivity.
Defined.

Example insertReferenceAtCursor_ex :
  insertReferenceAtCursor (lit "cat") 4 8 (lit "put here now")
  = (lit "put @cat  now", 9).
Proof. vm_compute. reflexivity. Qed.

(** ** More on the reference store *)

Lemma get_app_Some (k : list N) (m tail : list (list N * StoredImage.t)) v :
  JSMap.get k m = Some v → JSMap.get k (m ++ tail) = Some v.
Proof.
  induction m as [|[k0 v0] m IH]; simpl; [done|]. by destruct (decide (k0 = k)).
Qed.

Lemma delete_fresh (k : list N) (m : list (list N * StoredImage.t)) :
  JSMap.has k m = false → JSMap.delete k m = m.
Proof.
  unfold JSMap.has, JSMap.delete. rewrite bool_decide_eq_false.
  induction m as [|[k0 v0] m IH]; [done|]. simpl.
  rewrite not_elem_of_cons. intros [Hne Hm]. rewrite filter_cons. simpl.
  rewrite decide_True by done. by rewrite IH.
Qed.

Lemma delete_snoc (k : list N) (m : list (list N * StoredImage.t)) v :
  JSMap.delete k (m ++ [(k, v)]) = JSMap.delete k m.
Proof.
  unfold JSMap.delete. rewrite filter_app, filter_cons. simpl.
  rewrite decide_False by (by intros ?). by rewrite filter_nil, app_nil_r.
Qed.

(** Every way [handleSaveKey] can go, seen from the store and the chat. *)
Lemma handleSaveKey_cases (value : jsstring) (st : Store) :
  (references (handleSaveKey value st) = references st ∧
   messages (handleSaveKey value st) = messages st ∧
   (imageToSave st = None ∨ KEY_REGEX_test (trim value) = false
    ∨ JSMap.has (trim value) (references st) = true)) ∨
  (∃ img m, imageToSave st = Some img ∧ KEY_REGEX_test (trim value) = true ∧
     JSMap.has (trim value) (references st) = false ∧
     references (handleSaveKey value st) = references st ++ [(trim value, img)] ∧
     messages (handleSaveKey value st) = messages st ++ [m] ∧ sender m = ai ∧
     saveKeyModalHidden (handleSaveKey value st) = true ∧
     imageToSave (handleSaveKey value st) = None).
Proof.
  unfold handleSaveKey. destruct (imageToSave st) as [img|] eqn:Himg; [|by left; eauto].
  cbn [saveModalSource set_keyErrorMessage references].
  destruct (truthy (trim value)) eqn:Ht; cbn [negb].
  - destruct (KEY_REGEX_test (trim value)) eqn:Hkey; cbn [negb]; [|by left; eauto].
    destruct (JSMap.has (trim value) (references st)) eqn:Hhas; [by left; eauto|].
    right. eexists img, _. cbn. rewrite JSMapFacts.set_fresh by done.
    rewrite stored_eta. by repeat split.
  - left. assert (KEY_REGEX_test (trim value) = false) as Hkey.
    { destruct (KEY_REGEX_test (trim value)) eqn:E; [|done].
      apply KEY_REGEX_test_nonempty in E. congruence. }
    by destruct (saveModalSource st) as [[]|]; eauto.
Qed.

(** X11. Saving never overwrites, removes or reorders a reference: the
    store after [handleSaveKey] is the store before followed by at most
    one new entry, every earlier lookup gives what it gave, and the entry
    is added (with one chat message) exactly when an image is waiting and
    the trimmed key is valid and not in the store. *)
Theorem handleSaveKey_only_appends (value : jsstring) (st : Store) :
  ∃ tail,
    references (handleSaveKey value st) = references st ++ tail ∧
    length tail ≤ 1 ∧
    length (messages (handleSaveKey value st)) = length (messages st) + length tail ∧
    (∀ k v, JSMap.get k (references st) = Some v →
            JSMap.get k (references (handleSaveKey value st)) = Some v) ∧
    (tail ≠ [] ↔
     is_Some (imageToSave st) ∧ KEY_REGEX_test (trim value) = true ∧
     JSMap.has (trim value) (references st) = false) ∧
    (∀ kv, kv ∈ tail → kv.1 = trim value ∧ imageToSave st = Some kv.2).
Proof.
  destruct (handleSaveKey_cases value st)
    as [(Hr & Hm & Hwhy)|(img & m & Himg & Hkey & Hhas & Hr & Hm & _)].
  - exists []. rewrite app_nil_r, Hr, Hm. simpl.
    split; [done|]. split; [lia|]. split; [lia|]. split; [done|]. split.
    + split; [done|]. intros (Hi & Hk & Hh).
      destruct Hwhy as [E|[E|E]]; [|congruence..].
      rewrite E in Hi. by destruct Hi.
    + by intros ? ?%elem_of_nil.
  - exists [(trim value, img)]. rewrite Hr, Hm, length_app. simpl.
    split; [done|]. split; [lia|]. split; [lia|]. split; [|split].
    + intros k v. apply get_app_Some.
    + rewrite Himg. split; [by eauto|done].
    + by intros kv ->%list_elem_of_singleton.
Qed.

Lemma handleSaveKey_only_appends_witness :
  let st := {| references := [(lit "dog", {| StoredImage.data := lit "d";
                                              StoredImage.mimeType := lit "m" |})];
               imageToSave := Some {| StoredImage.data := lit "e";
                                      StoredImage.mimeType := lit "m" |};
               saveModalSource := Some generated; keyErrorMessage := lit "";
               saveKeyModalHidden := false; messages := [] |} in
  ∃ tail,
    references (handleSaveKey (lit "cat") st) = references st ++ tail ∧
    length tail ≤ 1.
Proof.
  intros st.
  destruct (handleSaveKey_only_appends (lit "cat") st) as (tail & Hr & Hl & _).
  exists tail. split; [exact Hr|exact Hl].
Defined.

(** X12. A save that fails a check changes nothing but the error line of
    the dialog: with an image waiting and a trimmed key that is empty
    (outside the upload case), not a word, or already in the store, the
    image keeps waiting, the dialog stays open, the store and the chat are
    as before, and the error names the first check that failed, in the
    order empty, invalid, taken. *)
Theorem handleSaveKey_rejects (value : jsstring) (st : Store) (img : StoredImage.t) :
  imageToSave st = Some img →
  (trim value = [] → saveModalSource st ≠ Some upload) →
  KEY_REGEX_test (trim value) = false ∨ JSMap.has (trim value) (references st) = true →
  let st' := handleSaveKey value st in
  st' = set_keyErrorMessage (keyErrorMessage st') st ∧
  (trim value = [] → keyErrorMessage st' = MSG_KEY_REQUIRED) ∧
  (trim value ≠ [] → KEY_REGEX_test (trim value) = false →
   keyErrorMessage st' = MSG_INVALID_KEY) ∧
  (KEY_REGEX_test (trim value) = true → keyErrorMessage st' = MSG_KEY_TAKEN).
Proof.
  intros Himg Hup Hbad st'. subst st'. unfold handleSaveKey. rewrite Himg.
  cbn [saveModalSource set_keyErrorMessage references].
  destruct (trim value) as [|c key] eqn:Ht.
  - cbn [truthy negb]. specialize (Hup eq_refl).
    destruct (saveModalSource st) as [[]|]; [done|by repeat split..].
  - change (truthy (c :: key)) with true. cbn [negb].
    destruct (KEY_REGEX_test (c :: key)) eqn:Hkey; cbn [negb].
    + destruct Hbad as [|Hhas]; [done|]. rewrite Hhas. by repeat split.
    + by repeat split.
Qed.

Lemma handleSaveKey_rejects_witness :
  let st := {| references := [(lit "dog", {| StoredImage.data := lit "d";
                                              StoredImage.mimeType := lit "m" |})];
               imageToSave := Some {| StoredImage.data := lit "e";
                                      StoredImage.mimeType := lit "m" |};
               saveModalSource := Some generated; keyErrorMessage := lit "";
               saveKeyModalHidden := false; messages := [] |} in
  keyErrorMessage (handleSaveKey (lit " dog ") st) = MSG_KEY_TAKEN.
Proof.
  intros st.
  refine (proj2 (proj2 (proj2 (handleSaveKey_rejects (lit " dog ") st
            {| StoredImage.data := lit "e"; StoredImage.mimeType := lit "m" |}
            _ _ _))) _).
  - reflexivity.
  - intros E. by vm_compute in E.
  - right. reflexivity.
  - reflexivity.
Defined.

(** X13. The three ways out of the dialog that an upload opens. Cancel
    drops the staged upload and also empties the prompt field; an empty key
    is use-once: the dialog closes and the store is as before; a valid new
    key stores the uploaded data under it. In the last two the upload
    stays staged for the next message. *)
Theorem upload_dialog_outcomes (a : App.t) (data type_ value : jsstring) :
  let staged := {| StagedImage.data := data; StagedImage.mimeType := type_;
                   StagedImage.maskData := None;
                   StagedImage.maskPreviewData := None |} in
  let a1 := App.handleFileSelect data type_ a in
  let saved := App.set_store (handleSaveKey value (App.store a1)) a1 in
  App.stagedImage a1 = Some staged ∧
  saveKeyModalHidden (App.store a1) = false ∧
  (App.stagedImage (App.handleCancelSave a1) = None ∧
   App.promptInput (App.handleCancelSave a1) = [] ∧
   references (App.store (App.handleCancelSave a1)) = references (App.store a) ∧
   saveKeyModalHidden (App.store (App.handleCancelSave a1)) = true) ∧
  App.stagedImage saved = Some staged ∧
  App.promptInput saved = App.promptInput a ∧
  (trim value = [] →
   references (App.store saved) = references (App.store a) ∧
   messages (App.store saved) = messages (App.store a) ∧
   saveKeyModalHidden (App.store saved) = true) ∧
  (KEY_REGEX_test (trim value) = true →
   JSMap.has (trim value) (references (App.store a)) = false →
   references (App.store saved)
   = references (App.store a)
     ++ [(trim value, {| StoredImage.data := data; StoredImage.mimeType := type_ |})] ∧
   saveKeyModalHidden (App.store saved) = true).
Proof.
  intros staged a1 saved. split; [done|]. split; [done|]. split; [done|].
  split; [done|]. split; [done|]. split.
  - intros Ht. subst saved a1. unfold handleSaveKey, App.handleFileSelect.
    cbn [App.store App.set_store openSaveKeyModal imageToSave]. rewrite Ht.
    done.
  - intros Hkey Hhas. subst saved.
    destruct (handleSaveKey_cases value (App.store a1))
      as [(_ & _ & [E|[E|E]])|(img & m & [= <-] & _ & _ & Hr & _ & _ & Hh & _)].
    + done.
    + congruence.
    + change (JSMap.has (trim value) (references (App.store a)) = true) in E.
      congruence.
    + by split.
Qed.

Lemma upload_dialog_outcomes_witness :
  let a := {| App.store :=
                {| references := []; imageToSave := None; saveModalSource := None;
                   keyErrorMessage := lit ""; saveKeyModalHidden := true;
                   messages := [] |};
              App.stagedImage := None; App.promptInput := lit "a cat";
              App.loading := false; App.sentRequests := [];
              App.imagePreviewHidden := true |} in
  let a1 := App.handleFileSelect (lit "data:image/png;base64,SU1H") (lit "image/png") a in
  App.promptInput (App.handleCancelSave a1) = [] ∧
  references (App.store (App.set_store (handleSaveKey (lit " cat ") (App.store a1)) a1))
  = [(lit "cat", {| StoredImage.data := lit "data:image/png;base64,SU1H";
                    StoredImage.mimeType := lit "image/png" |})].
Proof.
  intros a.
  destruct (upload_dialog_outcomes a (lit "data:image/png;base64,SU1H")
              (lit "image/png") (lit " cat "))
    as (_ & _ & (_ & Hp & _) & _ & _ & _ & Hsave).
  split; [exact Hp|]. apply Hsave; reflexivity.
Defined.

(** X14. A deleted reference cannot be sent any more: after the delete
    the key has no image, the other keys have theirs, and a message whose
    prompt has the token [@key] is answered with one message and no
    request, the key being reported missing. *)
Theorem handleDelete_forgets (generate : list Part → ApiOutcome)
    (references : References) (key prompt : jsstring) (i : nat)
    (image : option StagedImage.t) (w : World) :
  token_at prompt i key →
  let references' := handleDelete key references in
  JSMap.get key references' = None ∧
  (∀ k, k ≠ key → JSMap.get k references' = JSMap.get k references) ∧
  key ∈ missingKeys (parsePromptForReferences references' prompt) ∧
  ∃ m, sender m = ai ∧
       callGeminiApi generate references' prompt image w
       = Some {| chatHistory := chatHistory w ++ [m]; requests := requests w |}.
Proof.
  intros Htok references'.
  assert (JSMap.get key references' = None) as Hget
    by apply JSMapFacts.get_delete_eq.
  assert (key ∈ missingKeys (parsePromptForReferences references' prompt)) as Hmiss.
  { rewrite missingKeys_filter, list_elem_of_filter, JSMapFacts.has_false_get.
    split; [done|]. apply referencedKeys_token. by eauto. }
  split; [done|]. split.
  { intros k Hk. by apply JSMapFacts.get_delete_ne. }
  split; [done|].
  destruct (callGeminiApi_cases generate references' prompt image w)
    as [(-> & _)|[(_ & m & Hm & _ & ->)|(_ & Hnil & _)]].
  - destruct Htok as (pre & post & E & _). by destruct pre.
  - by eauto.
  - rewrite Hnil in Hmiss. by apply elem_of_nil in Hmiss.
Qed.

Lemma handleDelete_forgets_witness :
  JSMap.get (lit "dog")
    (handleDelete (lit "dog")
       [(lit "dog", {| StoredImage.data := lit "d"; StoredImage.mimeType := lit "m" |})])
  = None.
Proof.
  refine (proj1 (handleDelete_forgets (λ _, Failed None)
            [(lit "dog", {| StoredImage.data := lit "d"; StoredImage.mimeType := lit "m" |})]
            (lit "dog") (lit "a @dog") 2 None
            {| chatHistory := []; requests := [] |} _)).
  exists (lit "a "), []. repeat split; try done.
  repeat constructor.
Defined.

(** X15. Deleting undoes a save: whatever was typed and whether or not
    the save went through, deleting the trimmed key afterwards gives back
    the store as it was before the save, provided the key was not in it. *)
Theorem handleDelete_undoes_save (value : jsstring) (st : Store) :
  JSMap.has (trim value) (references st) = false →
  handleDelete (trim value) (references (handleSaveKey value st)) = references st.
Proof.
  intros Hfresh. unfold handleDelete.
  destruct (handleSaveKey_cases value st)
    as [(-> & _)|(img & m & _ & _ & _ & -> & _)].
  - by apply delete_fresh.
  - rewrite delete_snoc. by apply delete_fresh.
Qed.

Lemma handleDelete_undoes_save_witness :
  let st := {| references := [(lit "dog", {| StoredImage.data := lit "d";
                                              StoredImage.mimeType := lit "m" |})];
               imageToSave := Some {| StoredImage.data := lit "e";
                                      StoredImage.mimeType := lit "m" |};
               saveModalSource := Some generated; keyErrorMessage := lit "";
               saveKeyModalHidden := false; messages := [] |} in
  handleDelete (trim (lit "cat ")) (references (handleSaveKey (lit "cat ") st))
  = references st.
Proof.
  intros st. apply (handleDelete_undoes_save (lit "cat ") st). reflexivity.
Defined.

(** X16. Renaming there and back loses nothing but the position: after
    renaming [a] to a valid free key [b] and then [b] to [a] again, both
    renames succeed, every key has the image it had, and the entry of [a]
    stands last. *)
Theorem handleRename_round_trip (references : References) (a b : jsstring)
    (img : StoredImage.t) :
  JSMap.get a references = Some img →
  KEY_REGEX_test a = true → KEY_REGEX_test b = true →
  JSMap.has b references = false →
  ∃ out1 out2,
    handleRename a b references = Some out1 ∧
    handleRename b a (rn_references out1) = Some out2 ∧
    rn_invalid out1 = false ∧ rn_invalid out2 = false ∧
    rn_references out2 = JSMap.delete a references ++ [(a, img)] ∧
    ∀ k, JSMap.get k (rn_references out2) = JSMap.get k references.
Proof.
  intros Hget Ha Hb Hfresh.
  assert (b ≠ a) as Hne.
  { intros ->. apply JSMapFacts.has_false_get in Hfresh. congruence. }
  pose proof (handleRename_success references a b img Hget) as H1.
  rewrite (trim_key _ Hb) in H1. specialize (H1 Hb Hfresh).
  assert (JSMap.has b (JSMap.delete a references) = false) as Hfresh'.
  { by rewrite JSMapFacts.has_delete_ne. }
  pose proof (handleRename_success (JSMap.delete a references ++ [(b, img)]) b a img)
    as H2.
  rewrite (trim_key _ Ha) in H2.
  rewrite delete_snoc, (delete_fresh _ _ Hfresh') in H2.
  eexists _, _. split; [exact H1|]. split; [apply H2|].
  - rewrite JSMapFacts.get_app_fresh.
    apply JSMapFacts.has_false_get in Hfresh'. rewrite Hfresh'.
    by rewrite decide_True.
  - done.
  - apply JSMapFacts.has_false_get. rewrite JSMapFacts.get_app_fresh.
    rewrite JSMapFacts.get_delete_eq. by rewrite decide_False.
  - cbn [rn_invalid rn_references]. repeat split.
    intros k. rewrite JSMapFacts.get_app_fresh.
    destruct (decide (a = k)) as [<-|Hk].
    + by rewrite JSMapFacts.get_delete_eq.
    + rewrite JSMapFacts.get_delete_ne by done.
      by destruct (JSMap.get k references).
Qed.

Lemma handleRename_round_trip_witness :
  let references :=
    [(lit "dog", {| StoredImage.data := lit "d"; StoredImage.mimeType := lit "m" |});
     (lit "cat", {| StoredImage.data := lit "c"; StoredImage.mimeType := lit "m" |})] in
  ∃ out1 out2,
    handleRename (lit "dog") (lit "pup") references = Some out1 ∧
    handleRename (lit "pup") (lit "dog") (rn_references out1) = Some out2 ∧
    rn_invalid out1 = false ∧ rn_invalid out2 = false ∧
    rn_references out2
    = JSMap.delete (lit "dog") references
      ++ [(lit "dog", {| StoredImage.data := lit "d"; StoredImage.mimeType := lit "m" |})] ∧
    ∀ k, JSMap.get k (rn_references out2) = JSMap.get k references.
Proof.
  intros references.
  apply (handleRename_round_trip references (lit "dog") (lit "pup")); reflexivity.
Defined.

(** ** The references dialog *)






(** The use button on a row whose stored data is a data URL runs to its
    end; on stored data that is no data URL it throws. *)
Example RefDialog_use :
  let good := {| StoredImage.data := lit "data:image/png;base64,QUJD";
                 StoredImage.mimeType := lit "image/png" |} in
  let bad := {| StoredImage.data := lit "d"; StoredImage.mimeType := lit "m" |} in
  let d := {| RefDialog.references := [(lit "dog", good); (lit "cat", bad)];
              RefDialog.rows := [lit "dog"; lit "cat"] |} in
  RefDialog.handle (RefDialog.Use (lit "dog") (lit "17")) d = Some d ∧
  RefDialog.handle (RefDialog.Use (lit "cat") (lit "17")) d = None.
Proof. vm_compute. by split. Qed.

(** ** Submitting a message *)

Section submit_facts.
Variable toLowerCase : list N → list N.
Variable helpText : list N.
Variable generate : list Part → ApiOutcome.

(** The bubble of the user for a submit from [a]. *)
Lemma handleFormSubmit_unfold (thrown : list N) (a : App.t) :
  let prompt := trim (App.promptInput a) in
  let shown := App.userImageData (App.stagedImage a) in
  let bubble := {| sender := user; text := prompt;
                   images := if truthy_opt shown then [interpolate shown] else [] |} in
  toLowerCase prompt ≠ lit "help" →
  prompt ≠ [] ∨ App.stagedImage a ≠ None →
  ∀ w, callGeminiApi generate (references (App.store a)) prompt (App.stagedImage a)
         {| chatHistory := messages (App.store a) ++ [bubble];
            requests := App.sentRequests a |} = Some w →
  App.handleFormSubmit toLowerCase helpText generate thrown a
  = {| App.store :=
         {| references := references (App.store a);
            imageToSave := imageToSave (App.store a);
            saveModalSource := saveModalSource (App.store a);
            keyErrorMessage := keyErrorMessage (App.store a);
            saveKeyModalHidden := saveKeyModalHidden (App.store a);
            messages := chatHistory w |};
       App.stagedImage := None; App.promptInput := lit "";
       App.loading := false; App.sentRequests := requests w;
       App.imagePreviewHidden := true |}.
Proof.
  intros prompt shown bubble Hhelp Hsome w Hw. unfold App.handleFormSubmit.
  rewrite decide_False by done.
  assert (negb (truthy (trim (App.promptInput a)))
          && negb (bool_decide (is_Some (App.stagedImage a))) = false) as ->.
  { fold prompt. destruct prompt; [|done]. simpl.
    destruct (App.stagedImage a); [done|]. by destruct Hsome. }
  change (callGeminiApi generate
            (references (App.store
               (App.toggleLoading true (App.resetInputArea
                  (App.say user (trim (App.promptInput a))
                     (if truthy_opt (App.userImageData (App.stagedImage a))
                      then [interpolate (App.userImageData (App.stagedImage a))]
                      else []) a)))))
            (trim (App.promptInput a))
            (App.stagedImage
               (App.say user (trim (App.promptInput a))
                  (if truthy_opt (App.userImageData (App.stagedImage a))
                   then [interpolate (App.userImageData (App.stagedImage a))]
                   else []) a))
            _)
    with (callGeminiApi generate (references (App.store a)) prompt (App.stagedImage a)
            {| chatHistory := messages (App.store a) ++ [bubble];
               requests := App.sentRequests a |}).
  by rewrite Hw.
Qed.

Lemma handleFormSubmit_noop (thrown : list N) (a : App.t) :
  toLowerCase [] ≠ lit "help" →
  trim (App.promptInput a) = [] → App.stagedImage a = None →
  App.handleFormSubmit toLowerCase helpText generate thrown a = a.
Proof.
  intros Hhelp Hp Hs. unfold App.handleFormSubmit. rewrite Hp, Hs.
  by rewrite decide_False.
Qed.

(** X18. A submit with a prompt or a staged image (and not the word
    help) adds exactly two bubbles, the user's with the trimmed prompt and
    one of the assistant, sends at most one request, and leaves the form
    empty, enabled and with nothing staged. The request is there exactly
    when no key of the prompt is missing, and it is assembled from the
    image that was staged when the form was submitted, although the form
    is reset before the call. *)
Theorem handleFormSubmit_submit (thrown : list N) (a : App.t) :
  let prompt := trim (App.promptInput a) in
  let r := parsePromptForReferences (references (App.store a)) prompt in
  let a' := App.handleFormSubmit toLowerCase helpText generate thrown a in
  toLowerCase prompt ≠ lit "help" →
  prompt ≠ [] ∨ App.stagedImage a ≠ None →
  ∃ imgs m sent,
    messages (App.store a')
    = messages (App.store a)
      ++ [{| sender := user; text := prompt; images := imgs |}; m] ∧
    (∀ u, u ∈ imgs ↔ u ≠ [] ∧ App.userImageData (App.stagedImage a) = Some u) ∧
    sender m = ai ∧ text m ≠ [] ∧
    App.sentRequests a' = App.sentRequests a ++ sent ∧
    (missingKeys r ≠ [] → sent = []) ∧
    (missingKeys r = [] →
     ∃ parts, sent = [parts] ∧
       buildApiParts (references (App.store a)) prompt (App.stagedImage a)
         (referencedKeys r) = Some parts) ∧
    references (App.store a') = references (App.store a) ∧
    App.stagedImage a' = None ∧ App.promptInput a' = [] ∧
    App.loading a' = false ∧ App.imagePreviewHidden a' = true.
Proof.
  intros prompt r a' Hhelp Hsome.
  pose (shown := App.userImageData (App.stagedImage a)).
  pose (imgs := if truthy_opt shown then [interpolate shown] else []).
  pose (bubble := {| sender := user; text := prompt; images := imgs |}).
  pose (w0 := {| chatHistory := messages (App.store a) ++ [bubble];
                 requests := App.sentRequests a |}).
  assert (∀ u, u ∈ imgs ↔ u ≠ [] ∧ shown = Some u) as Himgs.
  { intros u. subst imgs. destruct shown as [[|c s]|]; simpl.
    - rewrite elem_of_nil. split; [done|]. by intros [? [= <-]].
    - rewrite list_elem_of_singleton. split; [by intros ->|by intros [_ [= <-]]].
    - rewrite elem_of_nil. split; [done|]. by intros [? ?]. }
  assert (∀ m sent,
            callGeminiApi generate (references (App.store a)) prompt
              (App.stagedImage a) w0
            = Some {| chatHistory := chatHistory w0 ++ [m];
                      requests := requests w0 ++ sent |} →
            messages (App.store a')
            = messages (App.store a)
              ++ [{| sender := user; text := prompt; images := imgs |}; m] ∧
            App.sentRequests a' = App.sentRequests a ++ sent ∧
            references (App.store a') = references (App.store a) ∧
            App.stagedImage a' = None ∧ App.promptInput a' = [] ∧
            App.loading a' = false ∧ App.imagePreviewHidden a' = true) as Hrun.
  { intros m sent Hw. subst a'.
    rewrite (handleFormSubmit_unfold thrown a Hhelp Hsome _ Hw). cbn.
    by rewrite <-app_assoc. }
  destruct (callGeminiApi_cases generate (references (App.store a)) prompt
              (App.stagedImage a) w0)
    as [(Hp & Hs & _)|[(Hmiss & m & Hm1 & Hm2 & Hw)
                      |(_ & Hmiss & parts & m & Hparts & _ & Hm1 & Hm2 & _ & _ & Hw)]].
  - destruct Hsome; congruence.
  - rewrite <-(app_nil_r (requests w0)) in Hw.
    destruct (Hrun m [] Hw) as (? & ? & ? & ? & ? & ? & ?).
    exists imgs, m, []. split; [done|]. split; [exact Himgs|].
    do 4 (split; [done|]). split; [by intros ?|]. by repeat split.
  - destruct (Hrun m [parts] Hw) as (? & ? & ? & ? & ? & ? & ?).
    exists imgs, m, [parts]. split; [done|]. split; [exact Himgs|].
    do 3 (split; [done|]). split; [by intros ?|]. split; [by eauto|].
    by repeat split.
Qed.

(** X19. Submitting twice in a row sends once: whatever the first submit
    did, a second one right after it changes nothing, because the first
    left the prompt empty and nothing staged. *)
Theorem handleFormSubmit_twice (thrown : list N) (a : App.t) :
  toLowerCase [] ≠ lit "help" →
  let once := App.handleFormSubmit toLowerCase helpText generate thrown a in
  App.handleFormSubmit toLowerCase helpText generate thrown once = once.
Proof.
  intros Hhelp once. apply handleFormSubmit_noop; [done|..]; subst once;
    unfold App.handleFormSubmit.
  - case_decide; [done|].
    destruct (negb (truthy (trim (App.promptInput a)))
              && negb (bool_decide (is_Some (App.stagedImage a)))) eqn:E.
    + apply andb_true_iff in E as [E _].
      by destruct (trim (App.promptInput a)).
    + by destruct (callGeminiApi _ _ _ _ _).
  - case_decide; [done|].
    destruct (negb (truthy (trim (App.promptInput a)))
              && negb (bool_decide (is_Some (App.stagedImage a)))) eqn:E.
    + apply andb_true_iff in E as [_ E]. by destruct (App.stagedImage a).
    + by destruct (callGeminiApi _ _ _ _ _).
Qed.

(** X20. The [catch] of [handleFormSubmit] never runs: since the
    orchestrator handles every failure itself, the outcome of a submit does
    not depend on what an exception leaving it would say. *)
Theorem handleFormSubmit_catch_dead (thrown thrown' : list N) (a : App.t) :
  App.handleFormSubmit toLowerCase helpText generate thrown a
  = App.handleFormSubmit toLowerCase helpText generate thrown' a.
Proof.
  unfold App.handleFormSubmit. case_decide; [done|].
  destruct (negb (truthy (trim (App.promptInput a)))
            && negb (bool_decide (is_Some (App.stagedImage a)))); [done|].
  match goal with
  | |- context [callGeminiApi ?g ?r ?p ?i ?w] =>
      destruct (callGeminiApi_cases g r p i w)
        as [(_ & _ & ->)|[(_ & m & _ & _ & ->)|(_ & _ & ps & m & _ & _ & _ & _ & _ & _ & ->)]]
  end; reflexivity.
Qed.

End submit_facts.

Lemma handleFormSubmit_submit_witness :
  let a := {| App.store :=
                {| references := []; imageToSave := None; saveModalSource := None;
                   keyErrorMessage := lit ""; saveKeyModalHidden := true;
                   messages := [] |};
              App.stagedImage := None; App.promptInput := lit " a cat ";
              App.loading := false; App.sentRequests := [];
              App.imagePreviewHidden := true |} in
  let a' := App.handleFormSubmit id (lit "?") (λ _, Failed None) (lit "") a in
  ∃ imgs m sent,
    messages (App.store a')
    = [{| sender := user; text := lit "a cat"; images := imgs |}; m] ∧
    App.sentRequests a' = sent.
Proof.
  intros a a'.
  destruct (handleFormSubmit_submit id (lit "?") (λ _, Failed None) (lit "") a)
    as (imgs & m & sent & Hm & _ & _ & _ & Hs & _).
  - intros E. by vm_compute in E.
  - left. intros E. by vm_compute in E.
  - exists imgs, m, sent. split; [exact Hm|exact Hs].
Defined.

Lemma handleFormSubmit_twice_witness :
  let a := {| App.store :=
                {| references := []; imageToSave := None; saveModalSource := None;
                   keyErrorMessage := lit ""; saveKeyModalHidden := true;
                   messages := [] |};
              App.stagedImage := None; App.promptInput := lit " a cat ";
              App.loading := false; App.sentRequests := [];
              App.imagePreviewHidden := true |} in
  let once := App.handleFormSubmit id (lit "?") (λ _, Failed None) (lit "") a in
  App.handleFormSubmit id (lit "?") (λ _, Failed None) (lit "") once = once.
Proof.
  intros a.
  apply (handleFormSubmit_twice id (lit "?") (λ _, Failed None) (lit "") a).
  intros E. by vm_compute in E.
Defined.

(** ** More on the mask editor *)

Section editor_further.
Context `{canvas2d : Canvas2D}.

Lemma frame_wf st st' :
  frame st st' → ImageData.wf (editorCanvas st) → ImageData.wf (editorCanvas st').
Proof.
  intros (_ & _ & _ & _ & [Hw Hh] & Hl) Hwf. unfold ImageData.wf in *.
  by rewrite Hl, Hw, Hh.
Qed.

Lemma startDraw_frame pos st : frame (set_isDrawing true st) (startDraw pos st).
Proof.
  unfold startDraw.
  destruct (is_tool "brush" _ || is_tool "eraser" _); [by repeat split|].
  destruct (is_tool "rectangle" _ || is_tool "circle" _); by repeat split.
Qed.

Lemma draw_frame pos size selected st :
  ImageData.wf (editorCanvas st) → Forall ImageData.wf (canvasHistory st) →
  frame st (draw pos size selected st).
Proof.
  intros Hwf Hall. unfold draw.
  destruct (negb (isDrawing st)); [apply frame_refl|].
  set (st1 := set_ctx _ st). assert (frame st st1) as H1 by apply frame_set_ctx.
  destruct (is_tool "brush" st1).
  { eapply frame_trans; [exact H1|].
    eapply frame_trans; [apply frame_set_ctx|]. apply frame_repaint, stroke_length. }
  destruct (is_tool "eraser" st1).
  { eapply frame_trans; [exact H1|].
    eapply frame_trans; [apply frame_set_ctx|]. apply frame_repaint, stroke_length. }
  destruct (is_tool "rectangle" st1 || is_tool "circle" st1); [|done].
  destruct (last (canvasHistory st1)) as [snapshot|] eqn:E; [|done].
  eapply frame_trans; [exact H1|].
  eapply frame_trans; [|apply drawShape_frame].
  apply putImageData_frame; [|done].
  rewrite Forall_forall in Hall. by apply Hall, last_Some_elem_of.
Qed.

(** The end of a stroke in progress: some drawing, then one snapshot. *)
Lemma stopDraw_snapshot pos st :
  isDrawing st = true → canvasHistory st ≠ [] →
  ImageData.wf (editorCanvas st) → Forall ImageData.wf (canvasHistory st) →
  ∃ st2, frame (set_isDrawing false st) st2 ∧ stopDraw pos st = saveCanvasState st2.
Proof.
  intros Hd Hne Hwf Hall. unfold stopDraw. rewrite Hd. cbn [negb].
  set (st1 := set_isDrawing false st).
  destruct (is_tool "rectangle" st1 || is_tool "circle" st1).
  - destruct (last (canvasHistory st1)) as [snapshot|] eqn:E.
    + eexists. split; [|reflexivity].
      eapply frame_trans; [|apply drawShape_frame].
      apply putImageData_frame; [|done].
      rewrite Forall_forall in Hall. by apply Hall, last_Some_elem_of.
    + apply last_None in E. done.
  - exists st1. split; [apply frame_refl|done].
Qed.

Lemma stopDraw_isDrawing pos st : isDrawing (stopDraw pos st) = false.
Proof.
  unfold stopDraw. destruct (isDrawing st) eqn:Hd; [|done]. cbn [negb].
  set (st1 := set_isDrawing false st).
  destruct (is_tool "rectangle" st1 || is_tool "circle" st1); [|done].
  destruct (last (canvasHistory st1)) as [snapshot|]; [|done].
  cbn [saveCanvasState set_canvasHistory isDrawing].
  destruct (drawShape_frame (shapeStart (putImageData snapshot st1)) pos
              (putImageData snapshot st1)) as (_ & -> & _).
  unfold putImageData. by case_decide.
Qed.

(** X21. The end of a stroke is recorded once: the canvas listens to both
    [mouseup] and [mouseout] with [stopDraw], and a second call in a row
    does nothing, whatever the state; after any call no stroke is in
    progress. *)
Theorem stopDraw_idempotent (p q : Point) (st : Editor) :
  stopDraw q (stopDraw p st) = stopDraw p st ∧ isDrawing (stopDraw p st) = false.
Proof.
  split; [|apply stopDraw_isDrawing].
  unfold stopDraw at 1. by rewrite stopDraw_isDrawing.
Qed.

Lemma saveMask_closed st : saveMask (closeEditor st) = closeEditor st.
Proof. unfold saveMask. simpl. by destruct (stagedImage st). Qed.

(** X22. A closed editor is inert: after [closeEditor] the save and undo
    buttons do nothing, the staged image is untouched and the canvas is
    cleared; so saving the mask twice is saving it once, and the mask is
    never recomputed from the cleared canvas. *)
Theorem closeEditor_inert (st : Editor) :
  saveMask (closeEditor st) = closeEditor st ∧
  handleUndo (closeEditor st) = closeEditor st ∧
  stagedImage (closeEditor st) = stagedImage st ∧
  Forall (λ b, b = 0%Z) (ImageData.data (editorCanvas (closeEditor st))) ∧
  saveMask (saveMask st) = saveMask st.
Proof.
  split; [apply saveMask_closed|]. split; [by apply handleUndo_noop; simpl; lia|].
  split; [done|]. split.
  - simpl. apply Forall_forall. by intros b [-> _]%elem_of_replicate.
  - destruct (stagedImage st) as [staged|] eqn:Hs.
    + destruct (canvasHistory st) as [|pristine later] eqn:Hh.
      * assert (saveMask st = st) as -> by (unfold saveMask; by rewrite Hs, Hh).
        unfold saveMask; by rewrite Hs, Hh.
      * unfold saveMask at 2. rewrite Hs, Hh.
        unfold saveMask at 2. rewrite Hs, Hh. apply saveMask_closed.
    + assert (saveMask st = st) as -> by (unfold saveMask; by rewrite Hs).
      unfold saveMask; by rewrite Hs.
Qed.

(** X23. Undo takes back a whole stroke: from an open editor with no
    stroke in progress, a press, any number of moves and a release
    followed by one undo give back the canvas and the history as they were
    before the press, with any tool. *)
Theorem handleUndo_undoes_stroke (canvas0 : ImageData.t) (st : Editor)
    (p q : Point) (moves : list (Point * list N * option (list N))) :
  reachable canvas0 st → editorModalHidden st = false → isDrawing st = false →
  let drawn := foldl (λ s m, draw m.1.1 m.1.2 m.2 s) (startDraw p st) moves in
  canvasHistory (stopDraw q drawn)
  = canvasHistory st ++ [editorCanvas (stopDraw q drawn)] ∧
  editorCanvas (handleUndo (stopDraw q drawn)) = editorCanvas st ∧
  canvasHistory (handleUndo (stopDraw q drawn)) = canvasHistory st ∧
  stagedImage (handleUndo (stopDraw q drawn)) = stagedImage st ∧
  isDrawing (handleUndo (stopDraw q drawn)) = false.
Proof.
  intros Hreach Hopen Hidle drawn.
  destruct (reachable_inv _ _ Hreach Hopen) as (Hne & Hall & Hwf & Hlast).
  specialize (Hlast Hidle).
  assert (Forall ImageData.wf (canvasHistory st)) as Hallwf.
  { eapply Forall_impl; [exact Hall|]. by intros s [? _]. }
  assert (frame (set_isDrawing true st) drawn) as Hdrawn.
  { subst drawn. generalize (startDraw_frame p st).
    generalize (startDraw p st).
    induction moves as [|m moves IH]; intros s Hs; [done|]. simpl. apply IH.
    eapply frame_trans; [exact Hs|]. apply draw_frame.
    - apply (frame_wf _ _ Hs). exact Hwf.
    - destruct Hs as (_ & _ & -> & _). exact Hallwf. }
  pose proof (frame_wf _ _ Hdrawn Hwf) as Hwfd.
  destruct Hdrawn as (Hst & Hd & Hh & Hm & Hsz & Hl). simpl in Hst, Hd, Hh, Hm, Hsz, Hl.
  destruct (stopDraw_snapshot q drawn) as (st2 & Hf & ->);
    [done|by rewrite Hh|done|by rewrite Hh|].
  destruct Hf as (Hst2 & Hd2 & Hh2 & Hm2 & Hsz2 & Hl2).
  simpl in Hst2, Hd2, Hh2, Hm2, Hsz2, Hl2.
  assert (canvasHistory (saveCanvasState st2)
          = canvasHistory st ++ [editorCanvas st2]) as Hhist.
  { simpl. unfold getImageData. by rewrite Hh2, Hh. }
  split; [done|].
  assert (handleUndo (saveCanvasState st2)
          = set_editorCanvas (editorCanvas st)
              (set_canvasHistory (canvasHistory st) (saveCanvasState st2))) as ->.
  { unfold handleUndo. rewrite Hhist.
    rewrite decide_True
      by (rewrite length_app; simpl; destruct (canvasHistory st); [done|simpl; lia]).
    rewrite removelast_last. cbn [canvasHistory set_canvasHistory]. rewrite Hlast.
    apply putImageData_same_size. simpl.
    apply same_size_sym. eapply same_size_trans; [exact Hsz2|exact Hsz]. }
  simpl. repeat split; congruence.
Qed.


(** X25. While the editor is open, in every state the page can reach,
    the history is not empty and every snapshot is a whole bitmap of the
    size of the canvas, as is the canvas itself; so restoring any snapshot
    replaces the canvas by exactly that snapshot. *)
Theorem editor_snapshots_fit (canvas0 : ImageData.t) (st : Editor) :
  reachable canvas0 st → editorModalHidden st = false →
  canvasHistory st ≠ [] ∧ ImageData.wf (editorCanvas st) ∧
  ∀ s, s ∈ canvasHistory st →
       ImageData.wf s ∧ ImageData.same_size s (editorCanvas st) ∧
       editorCanvas (putImageData s st) = s.
Proof.
  intros Hreach Hopen.
  destruct (reachable_inv _ _ Hreach Hopen) as (Hne & Hall & Hwf & _).
  split; [done|]. split; [done|]. intros s Hs.
  rewrite Forall_forall in Hall. destruct (Hall s Hs) as [Hswf Hsz].
  split; [done|]. split; [done|]. by rewrite putImageData_same_size.
Qed.

End editor_further.

Lemma handleUndo_undoes_stroke_witness :
  let st := run (canvas2d := plainCanvas) blank_canvas (take 2 one_stroke) in
  let drawn := foldl (λ s m, draw m.1.1 m.1.2 m.2 s)
                 (startDraw ((0, 0) : @Point plainCanvas) st)
                 [(((0, 0) : @Point plainCanvas), lit "5", None)] in
  editorCanvas (handleUndo (stopDraw ((0, 0) : @Point plainCanvas) drawn))
  = editorCanvas st.
Proof.
  intros st.
  apply (@handleUndo_undoes_stroke plainCanvas blank_canvas st
           ((0, 0) : @Point plainCanvas) ((0, 0) : @Point plainCanvas)
           [(((0, 0) : @Point plainCanvas), lit "5", None)]);
    [apply reachable_run; repeat constructor|reflexivity|reflexivity].
Defined.


Lemma editor_snapshots_fit_witness :
  let st := run (canvas2d := plainCanvas) blank_canvas one_stroke in
  canvasHistory st ≠ [] ∧ ImageData.wf (editorCanvas st) ∧
  ∀ s, s ∈ canvasHistory st →
       ImageData.wf s ∧ ImageData.same_size s (editorCanvas st) ∧
       editorCanvas (putImageData s st) = s.
Proof.
  intros st. apply (editor_snapshots_fit blank_canvas st).
  - apply reachable_run. repeat constructor.
  - reflexivity.
Defined.
